(** * CBIR_Model: retrieval and evaluation engine

    A shallow embedding of the retrieval-and-evaluation code of the
    notebooks (representative-embedding selection, file-name
    classification, nearest-neighbour retrieval, match accuracy, the
    evaluation loop and the choice of the number of clusters), followed by
    the properties proved about it.

    Conventions.
    - A Python [str] is a [string]: a sequence of characters with code
      points below 256.  In that range the class [\d] of [re] is exactly
      the ten characters 0..9.
    - A float is read as the rational it denotes ([Q]); sums, products and
      quotients are exact, rounding is not modelled.
    - A raised exception is [None]. *)

From Stdlib Require Import Bool Arith List String Ascii ZArith QArith Lia.
From Stdlib Require Import Lqa Sorted Permutation OrderedTypeEx DecimalString Qround.
Import ListNotations.

Open Scope string_scope.

(** Sequencing of steps that may raise: the first exception ends the
    computation. *)
Notation "'let?' x ':=' e 'in' k" :=
  (match e with
   | Some x => k
   | None => None
   end)
  (at level 10, x name, e at level 100, k at level 200,
   format "'[v' 'let?'  x  ':='  e  'in' '/' k ']'").

(* ================================================================== *)
(** * Part I.  The embedding *)
(* ================================================================== *)

(** ** Python strings and the [re] fragment the notebooks use *)

Module Py.

(** [s.startswith(p)] *)
Definition startswith (s p : string) : bool := String.prefix p s.

(** [s.split(sep)[0]]: the text before the first [sep], the whole string
    when [sep] does not occur. *)
Fixpoint split_first (sep : ascii) (s : string) : string :=
  match s with
  | EmptyString => EmptyString
  | String c s' =>
      if Ascii.eqb c sep then EmptyString else String c (split_first sep s')
  end.

(** [\d] on code points below 256 *)
Definition is_digit (c : ascii) : bool :=
  let n := nat_of_ascii c in (48 <=? n)%nat && (n <=? 57)%nat.

Inductive atom : Type :=
| Digit                (* \d *)
| Lit (c : ascii).     (* a literal character, escaped or not *)

Inductive piece : Type :=
| One (a : atom)           (* a      *)
| OneOrMore (a : atom).    (* a+     *)

Definition pattern := list piece.

(** [a{n}] *)
Definition Times (n : nat) (a : atom) : pattern := repeat (One a) n.

Definition atom_ok (a : atom) (c : ascii) : bool :=
  match a with
  | Digit => is_digit c
  | Lit x => Ascii.eqb x c
  end.

Definition newline : ascii := ascii_of_nat 10.

(** [$] without [re.MULTILINE]: the end of the string, or just before a
    newline that is the last character. *)
Definition at_dollar (s : string) : bool :=
  match s with
  | EmptyString => true
  | String c EmptyString => Ascii.eqb c newline
  | _ => false
  end.

(** [re.match('^' p '$', s)]: the backtracking matcher, anchored at the
    start, trying the longest repetition first.  On success it returns
    the text each piece of [p] consumed, in order. *)
Fixpoint re_match (p : pattern) : string -> option (list string) :=
  match p with
  | [] => fun s => if at_dollar s then Some [] else None
  | One a :: r =>
      fun s =>
        match s with
        | String c s' =>
            if atom_ok a c
            then option_map (cons (String c EmptyString)) (re_match r s')
            else None
        | EmptyString => None
        end
  | OneOrMore a :: r =>
      fix more (s : string) : option (list string) :=
        match s with
        | String c s' =>
            if atom_ok a c then
              match more s' with
              | Some (g :: gs) => Some (String c g :: gs)
              | _ => option_map (cons (String c EmptyString)) (re_match r s')
              end
            else None
        | EmptyString => None
        end
  end.

Definition literal (s : string) : pattern :=
  map (fun c => One (Lit c)) (list_ascii_of_string s).

(** Python list and pandas [iloc] positional access: a negative position
    counts from the end, anything outside [-n, n) raises [IndexError]. *)
Definition getitem {A : Type} (l : list A) (i : Z) : option A :=
  let n := Z.of_nat (List.length l) in
  if (0 <=? i)%Z then nth_error l (Z.to_nat i)
  else if (- n <=? i)%Z then nth_error l (Z.to_nat (n + i))
  else None.

(** All-or-nothing traversal: the first exception aborts. *)
Fixpoint mapM {A B : Type} (f : A -> option B) (l : list A) : option (list B) :=
  match l with
  | [] => Some []
  | x :: t =>
      match f x with
      | None => None
      | Some y => option_map (cons y) (mapM f t)
      end
  end.

(** [l[idx]] with a list of positions (numpy fancy indexing, [df.iloc[idx]]) *)
Definition take {A : Type} (l : list A) (idx : list Z) : option (list A) :=
  mapM (getitem l) idx.

End Py.

(** ** File-name classification *)

Module Naming.
Import Py.

(** r'^\d{3}_\d{2}\.jpg$' *)
Definition pat_3_2 : pattern :=
  (Times 3 Digit ++ literal "_" ++ Times 2 Digit ++ literal ".jpg")%list.

(** r'^\d{4}_\d{2}\.jpg$' *)
Definition pat_4_2 : pattern :=
  (Times 4 Digit ++ literal "_" ++ Times 2 Digit ++ literal ".jpg")%list.

(** r'^(\d+)_\d+\.jpg$' ; group 1 is the first piece *)
Definition pat_match_set : pattern :=
  ([OneOrMore Digit] ++ literal "_" ++ [OneOrMore Digit] ++ literal ".jpg")%list.

(** Evaluation notebook, [determine_source] *)
Definition determine_source (image_name : string) : string :=
  match re_match pat_3_2 image_name with
  | Some _ => "matches"
  | None =>
      match re_match pat_4_2 image_name with
      | Some _ => "matches"
      | None => "pubmed"
      end
  end.

(** Comparison notebook, [get_match_set] *)
Definition get_match_set (image_name : string) : string :=
  match re_match pat_match_set image_name with
  | Some (g1 :: _) => g1          (* match.group(1) *)
  | _ => "pubmed"
  end.

End Naming.

(** ** Cluster diagnostics *)

Module Cluster.

(** Evaluation notebook, step 8:
    [num_clusters = min(10, len(embeddings) // 100)] *)
Definition num_clusters (n_embeddings : nat) : nat :=
  Nat.min 10 (n_embeddings / 100).

(** The rule as the specification words it:
    [max(1, min(10, N // 100))]. *)
Definition num_clusters_spec (n_embeddings : nat) : nat :=
  Nat.max 1 (Nat.min 10 (n_embeddings / 100)).

(** Step 9: the silhouette score is computed only when
    [num_clusters > 1]; the other branch reports "a single cluster". *)
Definition silhouette_computed (k : nat) : bool := (1 <? k)%nat.

End Cluster.

(** ** Vectors *)

Module Np.

Definition vec := list Q.

Fixpoint dot (u v : vec) : Q :=
  match u, v with
  | x :: u', y :: v' => x * y + dot u' v'
  | _, _ => 0
  end.

(** Squared Euclidean distance, the metric of [IndexFlatL2].  The vectors
    of one index have one dimension; on unequal lengths the shorter one
    decides. *)
Fixpoint l2_sq (u v : vec) : Q :=
  match u, v with
  | x :: u', y :: v' => (x - y) * (x - y) + l2_sq u' v'
  | _, _ => 0
  end.

(** Exact unit length: the squared Euclidean norm is 1. *)
Definition unit_length (v : vec) : Prop := dot v v == 1.

(** [np.argmax]: the position of the first occurrence of the maximum;
    [ValueError] on an empty sequence. *)
Fixpoint argmax_from (best_i : nat) (best : Q) (i : nat) (l : list Q) : nat :=
  match l with
  | [] => best_i
  | x :: t =>
      if Qle_bool x best
      then argmax_from best_i best (S i) t
      else argmax_from i x (S i) t
  end.

Definition argmax (l : list Q) : option nat :=
  match l with
  | [] => None
  | x :: t => Some (argmax_from 0 x 1 t)
  end.

(** A square root on [Q] that is exact on squares of rationals. *)
Definition Qsqrt (q : Q) : Q :=
  Z.sqrt (Qnum q * Zpos (Qden q)) # Qden q.

(** The Euclidean norm wherever it is rational. *)
Definition norm_rat (v : vec) : Q := Qsqrt (dot v v).

End Np.

(** ** Single-precision arithmetic *)

Module Float32.
Import Np.

(** The arrays of the notebooks hold IEEE 754 binary32 numbers.  A float
    is read as the rational it denotes; every operation returns the
    float nearest to the exact result, ties to the even significand.
    Only the normal range is modelled: no overflow, no subnormal
    numbers. *)

(** The integer part of the binary logarithm of a positive rational. *)
Definition floor_log2 (x : Q) : Z :=
  let e := (Z.log2 (Qnum x) - Z.log2 (Zpos (Qden x)))%Z in
  if Qle_bool (2 ^ e) x then e else (e - 1)%Z.

(** The integer nearest to a rational that is not negative, ties to the
    even one. *)
Definition nearest_even (s : Q) : Z :=
  let m := Qfloor s in
  match Qcompare (s - inject_Z m) (1 # 2) with
  | Lt => m
  | Gt => (m + 1)%Z
  | Eq => if Z.even m then m else (m + 1)%Z
  end.

(** Rounding to 24 significant bits. *)
Definition round_pos (x : Q) : Q :=
  let e := (floor_log2 x - 23)%Z in
  Qred (inject_Z (nearest_even (x / 2 ^ e)) * 2 ^ e).

Definition round (x : Q) : Q :=
  match Qcompare x 0 with
  | Eq => 0
  | Gt => round_pos x
  | Lt => - round_pos (- x)
  end.

Definition add (a b : Q) : Q := round (a + b).
Definition mul (a b : Q) : Q := round (a * b).
Definition div (a b : Q) : Q := round (a / b).

(** The correctly rounded square root: with [x = t * 4 ^ e] and [t]
    between [2 ^ 46] and [2 ^ 48], the significand is the integer nearest
    to the square root of [t]. *)
Definition sqrt (x : Q) : Q :=
  match Qcompare x 0 with
  | Gt =>
      let e := ((floor_log2 x - 46) / 2)%Z in
      let t := x / 4 ^ e in
      let m := Z.sqrt (Qfloor t) in
      let half := inject_Z (m * m + m) + (1 # 4) in   (* (m + 1/2)^2 *)
      let m' :=
        match Qcompare t half with
        | Gt => (m + 1)%Z
        | Lt => m
        | Eq => if Z.even m then m else (m + 1)%Z
        end in
      Qred (inject_Z m' * 2 ^ e)
  | _ => 0
  end.

(** [np.linalg.norm(x, axis=1)] on one row of a float32 array:
    [sqrt(add.reduce(x * x))], the squares added from left to right. *)
Definition norm (v : vec) : Q :=
  sqrt (fold_left (fun s x => add s (mul x x)) v 0).

(** [x / np.linalg.norm(x, axis=1, keepdims=True)] on one row. *)
Definition normalize (v : vec) : vec :=
  let n := norm v in map (fun x => div x n) v.

End Float32.

(** ** Representative-embedding selection (embedding notebooks, step 6) *)

Module Selector.
Import Py Np.

(** [data.groupby('original_image')]: one group per distinct key, keys in
    ascending order, each group listing its rows in row order. *)
Fixpoint positions_of (key : string) (col : list string) (i : nat) : list nat :=
  match col with
  | [] => []
  | x :: t =>
      if String.eqb x key
      then i :: positions_of key t (S i)
      else positions_of key t (S i)
  end.

Fixpoint insert_key (k : string) (ks : list string) : list string :=
  match ks with
  | [] => [k]
  | x :: t =>
      match String.compare k x with
      | Lt => k :: x :: t
      | Eq => x :: t
      | Gt => x :: insert_key k t
      end
  end.

Definition sorted_keys (col : list string) : list string :=
  fold_right insert_key [] col.

Definition groupby (col : list string) : list (string * list nat) :=
  map (fun k => (k, positions_of k col 0)) (sorted_keys col).

Section WithNorm.

(** [np.linalg.norm(., axis=1)] on one row: the float it returns, read
    as a rational.  Which rational is left open. *)
Variable norm : vec -> Q.

(** The body of the loop for one group. *)
Definition select_group (embeddings : list vec) (indices : list nat)
  : option vec :=
  let? group_embeddings := mapM (nth_error embeddings) indices in
  let norms := map norm group_embeddings in
  let? best_idx_in_group := argmax norms in
  let? best_idx := nth_error indices best_idx_in_group in
  nth_error embeddings best_idx.

(** The loop: [selected_embeddings] and [selected_image_files] grow by
    one entry per group. *)
Fixpoint select_loop (embeddings : list vec)
    (groups : list (string * list nat))
    (selected_embeddings : list vec) (selected_image_files : list string)
  : option (list vec * list string) :=
  match groups with
  | [] => Some (selected_embeddings, selected_image_files)
  | (original_image, indices) :: rest =>
      let? e := select_group embeddings indices in
      select_loop embeddings rest
        (selected_embeddings ++ [e])
        (selected_image_files ++ [original_image])
  end.

(** [pd.DataFrame] refuses columns of different lengths. *)
Definition select_representatives
    (original_image : list string) (embeddings : list vec)
  : option (list vec * list string) :=
  if (List.length original_image =? List.length embeddings)%nat
  then select_loop embeddings (groupby original_image) [] []
  else None.

(** The normalisation of step 5 on one row, as a list of quotients.  The
    quotients are exact here; [Float32.normalize] rounds them as the
    arrays do. *)
Definition normalize (v : vec) : vec := map (fun x => x / norm v) v.

End WithNorm.

(** [e] is the member of the group [indices] with the largest norm, the
    first such member in row order. *)
Definition first_max_of (norm : vec -> Q) (embeddings : list vec)
    (indices : list nat) (e : vec) : Prop :=
  exists pre j post,
    indices = (pre ++ j :: post)%list
    /\ nth_error embeddings j = Some e
    /\ (forall i x, In i pre -> nth_error embeddings i = Some x ->
                    norm x < norm e)
    /\ (forall i x, In i post -> nth_error embeddings i = Some x ->
                    norm x <= norm e).

(** The selector that ignores norms: the first-seen embedding of every
    group. *)
Definition first_seen (embeddings : list vec) (indices : list nat)
  : option vec :=
  match indices with
  | [] => None
  | i :: _ => nth_error embeddings i
  end.

Definition select_first_seen
    (original_image : list string) (embeddings : list vec)
  : option (list vec * list string) :=
  if (List.length original_image =? List.length embeddings)%nat
  then
    option_map (fun sel => (sel, map fst (groupby original_image)))
      (mapM (fun g => first_seen embeddings (snd g)) (groupby original_image))
  else None.

End Selector.

(** ** The similarity index *)

Module Faiss.
Import Np.

(** [faiss.IndexFlatL2] is a library class.  Its exhaustive search is
    modelled as documented: for one query it fills exactly [k] slots, the
    stored vectors nearest first by squared Euclidean distance, and
    leaves label [-1] (with the largest float as distance) in the slots
    for which no stored vector is left.  Equal distances are ordered by
    insertion, as the specification requires. *)

Definition FLT_MAX : Q := 340282346638528859811704183484516925440 # 1.

Section Sort.
Context {A : Type}.
Variable le : A -> A -> bool.

Fixpoint insert_sorted (x : A) (l : list A) : list A :=
  match l with
  | [] => [x]
  | y :: t => if le x y then x :: y :: t else y :: insert_sorted x t
  end.

(** Stable insertion sort. *)
Definition sort_by (l : list A) : list A := fold_right insert_sorted [] l.
End Sort.

(** [index.add(embeddings)]: position [i] holds row [i]. *)
Definition enumerate (xb : list vec) : list (nat * vec) :=
  combine (seq 0 (List.length xb)) xb.

(** Stored vectors ranked by a score to be minimised. *)
Definition rank_by (score : vec -> Q) (xb : list vec) : list (nat * vec) :=
  sort_by (fun a b => Qle_bool (score (snd a)) (score (snd b))) (enumerate xb).

Definition pad {A : Type} (k : nat) (filler : A) (l : list A) : list A :=
  firstn k l ++ repeat filler (k - List.length l).

(** [D, I = index.search(q.reshape(1, -1), k)] for a positive [k]; the
    results are the rows [D[0]] and [I[0]]. *)
Definition search (xb : list vec) (q : vec) (k : nat) : list Q * list Z :=
  let ranked := rank_by (l2_sq q) xb in
  (pad k FLT_MAX (map (fun e => l2_sq q (snd e)) ranked),
   pad k (-1)%Z (map (fun e => Z.of_nat (fst e)) ranked)).

(** [index.search(x, k)] with any [k]: the call starts with
    [assert k > 0], so [k = 0] ends in [AssertionError]. *)
Definition index_search (xb : list vec) (q : vec) (k : nat)
  : option (list Q * list Z) :=
  if (k =? 0)%nat then None else Some (search xb q k).

(** The search as the library runs it on floats.  [dist q v] is the
    float it computes for the squared distance of [q] and [v], read as a
    rational; a distance that overflowed or is not a number is read as a
    rational not below [FLT_MAX].  The result heap starts as [k] entries of distance
    [FLT_MAX] and label [-1], and a stored vector enters it only when
    its computed distance is below the largest distance in the heap: a
    vector whose distance is not below [FLT_MAX] never enters. *)
Definition within_reach (dist : vec -> vec -> Q) (q : vec) (e : nat * vec)
  : bool :=
  negb (Qle_bool FLT_MAX (dist q (snd e))).

(** The stored vectors a search can return. *)
Definition stored_within_reach (dist : vec -> vec -> Q)
    (xb : list vec) (q : vec) : list vec :=
  filter (fun v => negb (Qle_bool FLT_MAX (dist q v))) xb.

Definition search_computed (dist : vec -> vec -> Q)
    (xb : list vec) (q : vec) (k : nat) : option (list Q * list Z) :=
  if (k =? 0)%nat then None
  else
    let ranked :=
      sort_by (fun a b => Qle_bool (dist q (snd a)) (dist q (snd b)))
              (filter (within_reach dist q) (enumerate xb)) in
    Some (pad k FLT_MAX (map (fun e => dist q (snd e)) ranked),
          pad k (-1)%Z (map (fun e => Z.of_nat (fst e)) ranked)).

Section Cosine.
Variable norm : vec -> Q.

Definition cos_theta (u v : vec) : Q := dot u v / (norm u * norm v).

(** The same index ranked by descending cosine similarity. *)
Definition search_cosine (xb : list vec) (q : vec) (k : nat) : list Z :=
  pad k (-1)%Z
    (map (fun e => Z.of_nat (fst e))
       (sort_by
          (fun a b => Qle_bool (cos_theta q (snd b)) (cos_theta q (snd a)))
          (enumerate xb))).
End Cosine.

End Faiss.

(** ** Evaluation notebook *)

Module Evaluation.
Import Py Np Naming.

(** One row of [df].  The caption column, merged in for display only, is
    left out; the left merge keeps rows and their positions. *)
Record row : Type := mkRow {
  image_file : string;
  embedding_index : nat;
  original_image : string;
  source : string
}.

Definition row_eqb (a b : row) : bool :=
  String.eqb (image_file a) (image_file b)
  && Nat.eqb (embedding_index a) (embedding_index b)
  && String.eqb (original_image a) (original_image b)
  && String.eqb (source a) (source b).

(** [augmented_df.set_index('augmented_image')['original_image'].to_dict()]
    followed by [.get(x, x)]: the last row with key [x] wins. *)
Fixpoint mapping_get (augmented_df : list (string * string)) (x : string)
    (default : string) : string :=
  match augmented_df with
  | [] => default
  | (aug, orig) :: rest =>
      mapping_get rest x (if String.eqb aug x then orig else default)
  end.

Fixpoint build_rows (augmented_df : list (string * string))
    (image_files : list string) (i : nat) : list row :=
  match image_files with
  | [] => []
  | f :: rest =>
      mkRow f i (mapping_get augmented_df f f) (determine_source f)
      :: build_rows augmented_df rest (S i)
  end.

(** Step 4 *)
Definition build_df (augmented_df : list (string * string))
    (image_files : list string) : list row :=
  build_rows augmented_df image_files 0.

(** [Series.unique()]: first occurrences, in order. *)
Fixpoint unique (l : list string) : list string :=
  match l with
  | [] => []
  | x :: t => x :: filter (fun y => negb (String.eqb y x)) (unique t)
  end.

(** [DataFrame.drop_duplicates()]: the first of equal rows is kept. *)
Fixpoint drop_duplicates (l : list row) : list row :=
  match l with
  | [] => []
  | x :: t => x :: filter (fun y => negb (row_eqb y x)) (drop_duplicates t)
  end.

(** Step 7: [df[df['source'] == 'matches']['original_image'].unique()] *)
Definition matches_images (df : list row) : list string :=
  unique (map original_image
            (filter (fun r => String.eqb (source r) "matches") df)).

(** [df[df['original_image'] == q]['embedding_index'].tolist()] *)
Definition query_indices (df : list row) (query_image_name : string)
  : list nat :=
  map embedding_index
    (filter (fun r => String.eqb (original_image r) query_image_name) df).

(** The query has a row, hence an embedding. *)
Definition has_embedding (df : list row) (query_image_name : string) : bool :=
  existsb (fun r => String.eqb (original_image r) query_image_name) df.

(** [embedding_index] is [range(len(image_files))]: every row carries its
    own position. *)
Definition well_indexed (df : list row) : Prop :=
  map embedding_index df = seq 0 (List.length df).

Definition underscore : ascii := "_"%char.

(** The row filter both counts of [evaluate_retrieval] use:
    [original_image.str.startswith(query_image_name.split('_')[0])]
    and [source == 'matches']. *)
Definition counts_as_match (query_image_name : string) (r : row) : bool :=
  startswith (original_image r) (split_first underscore query_image_name)
  && String.eqb (source r) "matches".

Definition no_embeddings_msg (query_image_name : string) : string :=
  "No embeddings found for query image: " ++ query_image_name.

(** The group-id of a name: [name.split('_')[0]]. *)
Definition group_id (name : string) : string := split_first underscore name.

(** A match-set row whose original image has the group-id of the
    query [q]. *)
Definition shares_group (q : string) (r : row) : bool :=
  String.eqb (group_id (original_image r)) (group_id q)
  && String.eqb (source r) "matches".

(** No name in [rows] merely begins with the group-id of [q]: whenever
    it starts with it, its own group-id is that one. *)
Definition prefix_free (q : string) (rows : list row) : Prop :=
  forall r, In r rows ->
    startswith (original_image r) (group_id q) = true ->
    group_id (original_image r) = group_id q.

Section WithTable.
Variable df : list row.
Variable embeddings : list vec.

(** [evaluate_retrieval] *)
Definition evaluate_retrieval (query_image_name : string)
    (retrieved_images : list row) : nat * nat * Q :=
  let total_available_matches :=
    List.length (filter (counts_as_match query_image_name) df) in
  let retrieved_matches :=
    filter (fun r => startswith (original_image r)
                       (split_first underscore query_image_name))
           retrieved_images in
  let num_matches_found :=
    List.length
      (filter (fun r => String.eqb (source r) "matches") retrieved_matches) in
  let match_accuracy :=
    if (0 <? total_available_matches)%nat
    then inject_Z (Z.of_nat num_matches_found)
         / inject_Z (Z.of_nat total_available_matches)
    else 0 in
  (num_matches_found, total_available_matches, match_accuracy).

(** What [retrieve_and_display] returns, the display left out:
    [inl msg] when it prints [msg] and returns nothing. *)
Definition retrieve_and_display (query_image_name : string) (top_k : nat)
  : option (string + list row) :=
  match query_indices df query_image_name with
  | [] => Some (inl (no_embeddings_msg query_image_name))
  | query_idx :: _ =>
      let? query_embedding := nth_error embeddings query_idx in
      let? found := Faiss.index_search embeddings query_embedding top_k in
      let retrieved_indices := snd found in
      let? retrieved_images := take df retrieved_indices in
      if existsb (Z.eqb (Z.of_nat query_idx)) retrieved_indices
      then Some (inr retrieved_images)
      else
        let? query_row := nth_error df query_idx in
        Some (inr (firstn top_k
                     (drop_duplicates (query_row :: retrieved_images))))
  end.

(** One entry of [evaluation_results]. *)
Record result : Type := mkResult {
  queried_image : string;
  number_of_matches_found : nat;
  total_available_matches : nat;
  match_accuracy : Q
}.

(** The state the loop of step 11 changes: what was printed and the
    rows collected so far. *)
Record loop_state : Type := mkState {
  stdout : list string;
  evaluation_results : list result
}.

(** One iteration of the loop of step 11. *)
Definition evaluate_query (st : loop_state) (query_image_name : string)
  : option loop_state :=
  match query_indices df query_image_name with
  | [] =>
      (* print(...); continue *)
      Some (mkState (stdout st ++ [no_embeddings_msg query_image_name])
                    (evaluation_results st))
  | query_idx :: _ =>
      let? query_embedding := nth_error embeddings query_idx in
      let retrieved_indices :=
        snd (Faiss.search embeddings query_embedding 10) in
      let? retrieved_images := take df retrieved_indices in
      let '(found, total, acc) :=
        evaluate_retrieval query_image_name retrieved_images in
      Some (mkState (stdout st)
              (evaluation_results st
                 ++ [mkResult query_image_name found total acc]))
  end.

Fixpoint evaluation_loop (queries : list string) (st : loop_state)
  : option loop_state :=
  match queries with
  | [] => Some st
  | q :: rest =>
      let? st' := evaluate_query st q in
      evaluation_loop rest st'
  end.

(** Step 11 as the notebook runs it. *)
Definition evaluation_df : option loop_state :=
  evaluation_loop (matches_images df) (mkState [] []).

End WithTable.

End Evaluation.

(** ** Comparison notebook *)

Module Comparison.
Import Py Np Naming.

Record row : Type := mkRow {
  image_file : string;
  embedding_index : nat;
  match_set : string
}.

Fixpoint build_rows (image_files : list string) (i : nat) : list row :=
  match image_files with
  | [] => []
  | f :: rest => mkRow f i (get_match_set f) :: build_rows rest (S i)
  end.

(** Step 5.1 *)
Definition build_df (image_files : list string) : list row :=
  build_rows image_files 0.

Definition no_embeddings_msg (model query_image_name : string) : string :=
  "No embeddings found for query image: " ++ query_image_name
    ++ " in model " ++ model.

Definition well_indexed (df : list row) : Prop :=
  map embedding_index df = seq 0 (List.length df).

(** The values [retrieve_images_for_model] computes.  The function
    returns [retrieved_images] and [match_accuracy]; the two counts are
    its local variables. *)
Record retrieval : Type := mkRetrieval {
  retrieved_images : list string;
  num_matches_found : nat;
  total_available_matches : Z;
  match_accuracy : Q
}.

(** [l[1:]] *)
Definition drop_first {A : Type} (l : list A) : list A := tl l.

Definition same_set (query_match_set : string) (r : row) : bool :=
  String.eqb (match_set r) query_match_set.

(** Image [f] shares the match-set group-id of the query [q]. *)
Definition shares_match_set (q f : string) : bool :=
  String.eqb (get_match_set f) (get_match_set q).

(** [retrieve_images_for_model]; [inl msg] when it prints [msg] and
    returns [(None, None)]. *)
Definition retrieve_images_for_model (model : string)
    (embeddings : list vec) (image_files : list string)
    (query_image_name : string) (top_k : nat)
  : option (string + retrieval) :=
  let df := build_df image_files in
  match map embedding_index
          (filter (fun r => String.eqb (image_file r) query_image_name) df)
  with
  | [] => Some (inl (no_embeddings_msg model query_image_name))
  | query_idx :: _ =>
      let? query_embedding := nth_error embeddings query_idx in
      let indices :=
        snd (Faiss.search embeddings query_embedding (top_k + 1)) in
      let retrieved_indices := drop_first indices in
      let? retrieved_images := take image_files retrieved_indices in
      let? retrieved_df := take df retrieved_indices in
      let? query_row := nth_error df query_idx in
      let query_match_set := match_set query_row in
      let correct_matches :=
        filter (same_set query_match_set) retrieved_df in
      let num_matches_found := List.length correct_matches in
      let total_available_matches :=
        (Z.of_nat (List.length (filter (same_set query_match_set) df)) - 1)%Z in
      let match_accuracy :=
        if (0 <? total_available_matches)%Z
        then inject_Z (Z.of_nat num_matches_found)
             / inject_Z total_available_matches
        else 0 in
      Some (inr (mkRetrieval retrieved_images
                   num_matches_found
                   total_available_matches
                   match_accuracy))
  end.

End Comparison.

(** ** Counting, as the specification words it *)

Module Counting.

(** The number of entries of [l] that satisfy [P]. *)
Definition count {A : Type} (P : A -> bool) (l : list A) : nat :=
  List.length (filter P l).

(** The number of positions of [l] other than [idx] whose entry
    satisfies [P]. *)
Definition count_others {A : Type} (P : A -> bool) (l : list A) (idx : nat)
  : nat :=
  List.length
    (filter (fun p => negb (p =? idx)%nat
                      && match nth_error l p with
                         | Some x => P x
                         | None => false
                         end)
            (seq 0 (List.length l))).

End Counting.

(** ** Sample data *)

Module Sample.
Import Np.

(** Four augmented views of two originals; the views of "b" are unit
    vectors, those of "a" have norms 5 and 5. *)
Definition originals : list string := ["b"; "a"; "b"; "a"].
Definition views : list vec := [[3#5; 4#5]; [3; 4]; [1; 0]; [0; 5]].

(** Unit-length views of the same two originals. *)
Definition unit_views : list vec := [[3#5; 4#5]; [0; 1]; [1; 0]; [4#5; 3#5]].

(** A table of two images of one match set. *)
Definition two_files : list string := ["100_01.jpg"; "100_02.jpg"].
Definition two_embeddings : list vec := [[1; 0]; [0; 1]].

(** A mapping table of three augmented views of two originals. *)
Definition mapping : list (string * string) :=
  [("100_01_rot.jpg", "100_01.jpg"); ("cell_flip.jpg", "cell.jpg");
   ("100_01_blur.jpg", "100_01.jpg")].

(** A stand-in for a network: an image is embedded by the parity of the
    length of its path, as a vector of norm 5 or of norm 13. *)
Definition network_one (path : string) : vec :=
  if Nat.even (String.length path) then [3; 4] else [5; 12].

Definition network (paths : list string) : list vec := map network_one paths.

(** A table of ten images: two match sets and five other images. *)
Definition ten_files : list string :=
  ["100_01.jpg"; "100_02.jpg"; "100_03.jpg"; "2000_01.jpg"; "2000_02.jpg";
   "a.jpg"; "b.jpg"; "c.jpg"; "d.jpg"; "e.jpg"].
Definition ten_embeddings : list vec :=
  map (fun n => [inject_Z n; 1]) [0; 1; 2; 3; 4; 5; 6; 7; 8; 9]%Z.

End Sample.

(** ** The classification rule as the specification words it *)

Module NamingSpec.
Import Py.

Fixpoint all_digits (s : string) : bool :=
  match s with
  | EmptyString => true
  | String c s' => is_digit c && all_digits s'
  end.

(** [<group-id>_<variant-id>.<ext>] with a group-id of 3 or 4 digits and
    a variant-id of exactly 2 digits. *)
Definition match_set_name (s : string) : Prop :=
  exists g v ext,
    s = g ++ "_" ++ v ++ "." ++ ext
    /\ all_digits g = true /\ (String.length g = 3 \/ String.length g = 4)%nat
    /\ all_digits v = true /\ String.length v = 2%nat.

(** [re.match] succeeds. *)
Definition matches (p : pattern) (s : string) : Prop :=
  exists gs, re_match p s = Some gs.

(** What [$] lets follow the pattern. *)
Definition line_end (s : string) : Prop :=
  s = "" \/ s = String newline "".

End NamingSpec.

(** ** Embedding generation (embedding notebooks, step 5) *)

Module Generation.
Import Py Np.

(** [range(0, stop, step)] for a step that is not negative: the multiples
    of [step] below [stop]; [ValueError] when [step] is 0. *)
Definition range_step (stop step : nat) : option (list nat) :=
  if (step =? 0)%nat then None
  else Some (map (fun i => i * step)%nat (seq 0 ((stop + step - 1) / step))).

(** [l[start:stop]] with both bounds non-negative. *)
Definition slice {A : Type} (l : list A) (start stop : nat) : list A :=
  firstn (stop - start) (skipn start l).

Fixpoint last_char (s : string) : option ascii :=
  match s with
  | EmptyString => None
  | String c EmptyString => Some c
  | String _ s' => last_char s'
  end.

(** [os.path.join(a, b)] on POSIX: an absolute [b] replaces [a]; otherwise
    the two are joined by one slash unless [a] is empty or ends in one. *)
Definition path_join (a b : string) : string :=
  if startswith b "/" then b
  else
    match last_char a with
    | None => b
    | Some c => if Ascii.eqb c "/" then a ++ b else a ++ "/" ++ b
    end.

Definition augmented_dir : string := "./augmented_dataset/".

(** [np.vstack] of a list of rows: [ValueError] on the empty list. *)
Definition vstack (rows : list vec) : option (list vec) :=
  match rows with
  | [] => None
  | _ => Some rows
  end.

(** The lists the loops of step 5 fill. *)
Record gen_state : Type := mkGen {
  embeddings : list vec;
  original_image_files : list string;
  augmented_image_files : list string
}.

Section WithModel.

Variable norm : vec -> Q.

(** UNI and DINO: the images at the given paths are opened, stacked and
    passed through the network at once; the result has one row per
    output. *)
Variable model : list string -> list vec.

(** CLIP and PLIP: one image at a time,
    [model.get_image_features(...).cpu().numpy()[0]]. *)
Variable model_one : string -> vec.

(** The body of the batched loop for one [start_idx]. *)
Definition batch_step (image_paths original_images augmented_images : list string)
    (batch_size total_images : nat) (st : gen_state) (start_idx : nat)
  : gen_state :=
  let end_idx := Nat.min (start_idx + batch_size) total_images in
  let batch_image_paths := slice image_paths start_idx end_idx in
  let batch_original_images := slice original_images start_idx end_idx in
  let batch_augmented_images := slice augmented_images start_idx end_idx in
  let batch_embeddings := model batch_image_paths in
  let batch_embeddings := map (Selector.normalize norm) batch_embeddings in
  mkGen (embeddings st ++ batch_embeddings)
        (original_image_files st ++ batch_original_images)
        (augmented_image_files st ++ batch_augmented_images).

(** Step 5 of the DINO notebook (the UNI notebook keeps no list of
    augmented names but is otherwise the same), up to [np.vstack].
    [augmented_df] lists the rows (augmented_image, original_image). *)
Definition generate_batched (augmented_df : list (string * string))
    (batch_size : nat) : option gen_state :=
  let image_paths := map (fun r => path_join augmented_dir (fst r)) augmented_df in
  let original_images := map snd augmented_df in
  let augmented_images := map fst augmented_df in
  let total_images := List.length image_paths in
  let? starts := range_step total_images batch_size in
  let st :=
    fold_left
      (batch_step image_paths original_images augmented_images
         batch_size total_images)
      starts (mkGen [] [] []) in
  let? stacked := vstack (embeddings st) in
  Some (mkGen stacked (original_image_files st) (augmented_image_files st)).

(** The body of the per-image loop for one row of [augmented_df]. *)
Definition image_step (st : gen_state) (row : string * string) : gen_state :=
  let augmented_image_file := fst row in
  let original_image_file := snd row in
  let image_path := path_join augmented_dir augmented_image_file in
  let embedding := model_one image_path in
  let embedding := Selector.normalize norm embedding in
  mkGen (embeddings st ++ [embedding])
        (original_image_files st ++ [original_image_file])
        (augmented_image_files st ++ [augmented_image_file]).

(** Step 5 of the CLIP and PLIP notebooks, up to [np.vstack]. *)
Definition generate_per_image (augmented_df : list (string * string))
  : option gen_state :=
  let st := fold_left image_step augmented_df (mkGen [] [] []) in
  let? stacked := vstack (embeddings st) in
  Some (mkGen stacked (original_image_files st) (augmented_image_files st)).

(** Steps 5 to 7 of the DINO notebook: what is saved as
    [embeddings_dino.npy] and [image_files_dino.npy]. *)
Definition dino_notebook (augmented_df : list (string * string))
    (batch_size : nat) : option (list vec * list string) :=
  let? st := generate_batched augmented_df batch_size in
  let? sel :=
    Selector.select_representatives norm
      (original_image_files st) (embeddings st) in
  let? stacked := vstack (fst sel) in
  Some (stacked, snd sel).

(** Steps 5 to 7 of the UNI notebook: the grouping column is
    [augmented_df['original_image']] itself. *)
Definition uni_notebook (augmented_df : list (string * string))
    (batch_size : nat) : option (list vec * list string) :=
  let? st := generate_batched augmented_df batch_size in
  let? sel :=
    Selector.select_representatives norm
      (map snd augmented_df) (embeddings st) in
  let? stacked := vstack (fst sel) in
  Some (stacked, snd sel).

(** Steps 5 to 7 of the CLIP and PLIP notebooks. *)
Definition clip_notebook (augmented_df : list (string * string))
  : option (list vec * list string) :=
  let? st := generate_per_image augmented_df in
  let? sel :=
    Selector.select_representatives norm
      (original_image_files st) (embeddings st) in
  let? stacked := vstack (fst sel) in
  Some (stacked, snd sel).

End WithModel.

End Generation.


(** ** Display (evaluation notebook, step 6 and step 10) *)

Module Display.
Import Py Np.

(** A value put into an f-string: [None], a missing value or a string. *)
Inductive cell : Type :=
| PyNone
| NaN
| Str (s : string).

Definition fmt (c : cell) : string :=
  match c with
  | PyNone => "None"
  | NaN => "nan"
  | Str s => s
  end.

(** [str(n)] for a non-negative integer *)
Definition dec (n : nat) : string := NilEmpty.string_of_uint (Nat.to_uint n).

(** [rows = len(image_paths) // cols + int(len(image_paths) % cols != 0)];
    [ZeroDivisionError] when [cols] is 0. *)
Definition subplot_rows (n cols : nat) : option nat :=
  if (cols =? 0)%nat then None
  else Some (n / cols + (if (n mod cols =? 0)%nat then 0 else 1))%nat.

(** One subplot: its position in the grid, the image and its title. *)
Record panel : Type := mkPanel {
  subplot_index : nat;
  img_path : string;
  full_title : string
}.

(** The loop of [display_images] from position [idx] on.
    [plt.subplot(rows, cols, idx + 1)] raises [ValueError] outside
    1 .. rows * cols; [titles[idx]] and [captions[idx]] raise [IndexError]
    on a list that is not empty and too short. *)
Fixpoint draw (rows cols : nat) (titles : list string) (captions : list cell)
    (idx : nat) (image_paths : list string) : option (list panel) :=
  match image_paths with
  | [] => Some []
  | path :: rest =>
      if (idx + 1 <=? rows * cols)%nat then
        let? title :=
          match titles with
          | [] => Some ""
          | _ => nth_error titles idx
          end in
        let? caption :=
          match captions with
          | [] => Some ""
          | _ => option_map fmt (nth_error captions idx)
          end in
        let? panels := draw rows cols titles captions (S idx) rest in
        Some (mkPanel (idx + 1) path (title ++ String newline caption) :: panels)
      else None
  end.

(** [display_images]; an absent or empty [titles] or [captions] is [[]].
    Returns the number of rows of the grid and the subplots drawn. *)
Definition display_images (image_paths : list string) (titles : list string)
    (captions : list cell) (cols : nat) : option (nat * list panel) :=
  let? rows := subplot_rows (List.length image_paths) cols in
  let? panels := draw rows cols titles captions 0 image_paths in
  Some (rows, panels).

Definition combined_dataset : string := "./combined_dataset/".

(** [enumerate] with a function applied to position and element. *)
Fixpoint mapi_from {A B : Type} (f : nat -> A -> B) (i : nat) (l : list A)
  : list B :=
  match l with
  | [] => []
  | x :: t => f i x :: mapi_from f (S i) t
  end.




(** Step 10.  [df['cluster_label'] = cluster_labels] pairs row [i] with
    label [i]; the images of one cluster, in row order. *)
Definition cluster_images (image_files : list string) (cluster_labels : list nat)
    (cluster_num : nat) : list string :=
  map fst
    (filter (fun p => (snd p =? cluster_num)%nat)
            (combine image_files cluster_labels)).

(** [np.random.choice(population, size, replace=False)]: [ValueError] when
    more is asked for than there is; otherwise the draw [pick] makes. *)
Definition random_choice (pick : list string -> nat -> list string)
    (population : list string) (size : nat) : option (list string) :=
  if (size <=? List.length population)%nat
  then Some (pick population size)
  else None.

(** [display_cluster_images]: [inl msg] when the cluster is empty. *)
Definition display_cluster_images (pick : list string -> nat -> list string)
    (image_files : list string) (cluster_labels : list nat)
    (cluster_num images_per_cluster : nat)
  : option (string + nat * list panel) :=
  let members := cluster_images image_files cluster_labels cluster_num in
  if (List.length members =? 0)%nat
  then Some (inl ("Cluster " ++ dec cluster_num ++ " is empty."))
  else
    let? sample_images :=
      random_choice pick members
        (Nat.min images_per_cluster (List.length members)) in
    let sample_image_paths :=
      map (Generation.path_join combined_dataset) sample_images in
    let titles :=
      map (fun img_file => "Cluster " ++ dec cluster_num ++ ": " ++ img_file)
          sample_images in
    let? figure := display_images sample_image_paths titles [] 3 in
    Some (inr figure).

(** The loop over [range(num_clusters)]: the size printed for each cluster
    and what [display_cluster_images] did. *)
Definition display_clusters (pick : list string -> nat -> list string)
    (image_files : list string) (cluster_labels : list nat)
    (num_clusters : nat)
  : option (list (nat * (string + nat * list panel))) :=
  if (List.length cluster_labels =? List.length image_files)%nat
  then
    mapM (fun cluster =>
            let? shown :=
              display_cluster_images pick image_files cluster_labels cluster 5 in
            Some (List.length (cluster_images image_files cluster_labels cluster),
                  shown))
         (seq 0 num_clusters)
  else None.

End Display.

(** ** Model comparison (comparison notebook, steps 3 to 5) *)

Module Aggregation.
Import Py Np.

(** [d[key]]: [KeyError] on a missing key; the last binding wins. *)
Fixpoint lookup {V : Type} (d : list (string * V)) (key : string) : option V :=
  match d with
  | [] => None
  | (k, v) :: rest =>
      match lookup rest key with
      | Some v' => Some v'
      | None => if String.eqb k key then Some v else None
      end
  end.

Definition models : list string := ["PLIP"; "UNI"; "DINO"; "CLIP"].

(** A row of the master table: the query and total of the PLIP table and,
    for every model in turn, the cells "Matches Found" and "Match
    Accuracy"; an entry is missing (NaN) where the table it is taken from
    has no row with that index. *)
Record master_row : Type := mkMaster {
  queried_image : option string;
  total_available_matches : option nat;
  cells : list (option (nat * Q))
}.

(** The row index of the master table after the assignments of the
    loop.  It starts as the index of the PLIP table; assigning a column
    that is not empty to a frame whose index is empty makes the frame
    take the index of that column, the columns it already has being
    filled with missing values. *)
Definition index_length (tables : list (list Evaluation.result)) (n : nat)
  : nat :=
  fold_left
    (fun n eval_df => if (n =? 0)%nat then List.length eval_df else n)
    tables n.

(** Step 3.  Assigning a column of another table aligns on the row
    index, which every table read from its file numbers from 0. *)
Definition master_df (model_data : list (string * list Evaluation.result))
  : option (list master_row) :=
  let? plip := lookup model_data "PLIP" in
  let? tables := mapM (lookup model_data) models in
  Some
    (map
       (fun i =>
          mkMaster
            (option_map Evaluation.queried_image (nth_error plip i))
            (option_map Evaluation.total_available_matches (nth_error plip i))
            (map (fun eval_df =>
                    option_map
                      (fun e => (Evaluation.number_of_matches_found e,
                                 Evaluation.match_accuracy e))
                      (nth_error eval_df i))
                 tables))
       (seq 0 (index_length tables (List.length plip)))).

(** [f'Match Accuracy ({model})'] *)
Definition accuracy_column (model : string) : string :=
  "Match Accuracy (" ++ model ++ ")".

(** A name the pattern can take out again whole: no closing parenthesis,
    which would end the group early, and no newline, which [.] does not
    match. *)
Definition plain_name (model : string) : bool :=
  forallb (fun c => negb (Ascii.eqb c ")") && negb (Ascii.eqb c newline))
          (list_ascii_of_string model).

(** [.*?\)] at the start of [s]: the shortest run of characters other
    than a newline that a closing parenthesis follows. *)
Fixpoint lazy_until_close (s : string) : option string :=
  match s with
  | EmptyString => None
  | String c s' =>
      if Ascii.eqb c ")" then Some EmptyString
      else if Ascii.eqb c newline then None
      else option_map (String c) (lazy_until_close s')
  end.

(** [str.extract(r'\((.*?)\)')] on one entry: group 1 of the leftmost
    match, nothing when there is no match. *)
Fixpoint extract_parenthesised (s : string) : option string :=
  match s with
  | EmptyString => None
  | String c s' =>
      if Ascii.eqb c "(" then
        match lazy_until_close s' with
        | Some g => Some g
        | None => extract_parenthesised s'
        end
      else extract_parenthesised s'
  end.

(** Step 4.2: [pd.melt] over the accuracy columns, then the model name
    taken out of the column name; a triple is (query, model, accuracy). *)
Definition accuracy_data (master : list master_row)
  : list (option string * option string * option Q) :=
  List.concat
    (Display.mapi_from
       (fun j model =>
          map (fun row =>
                 (queried_image row,
                  extract_parenthesised (accuracy_column model),
                  match nth_error (cells row) j with
                  | Some (Some (_, acc)) => Some acc
                  | _ => None
                  end))
              master)
       0 models).

Definition markers : list string :=
  ["o"; "s"; "^"; "D"; "v"; "P"; "*"; "X"; "h"; "+"].

Definition edge_colors : list string :=
  ["black"; "blue"; "green"; "red"; "purple"; "orange"; "brown"; "pink";
   "gray"; "olive"].

(** [match_set_styles], filled in the order of [enumerate(match_sets)];
    a later entry for the same key replaces the earlier one. *)
Fixpoint match_set_styles_from (i : nat) (match_sets : list string)
  : option (list (string * (string * string))) :=
  match match_sets with
  | [] => Some []
  | match_set :: rest =>
      let? marker := nth_error markers (i mod List.length markers) in
      let? edgecolor := nth_error edge_colors (i mod List.length edge_colors) in
      let? styles := match_set_styles_from (S i) rest in
      Some ((match_set, (marker, edgecolor)) :: styles)
  end.

(** Step 5.3: the match sets of a table and their styles. *)
Definition match_sets (df : list Comparison.row) : list string :=
  Evaluation.unique
    (map Comparison.match_set
       (filter (fun r => negb (String.eqb (Comparison.match_set r) "pubmed")) df)).

End Aggregation.


(** ** The rows of step 11 *)

Module EvaluationRows.
Import Py Evaluation.

(** The row a query with an embedding adds: the counts and the ratio of
    [evaluate_retrieval] on ten rows, which are the rows retrieved from
    the index when it holds ten vectors or more. *)
Definition row_of (df : list row) (embeddings : list Np.vec)
    (q : string) (r : result) : Prop :=
  exists retrieved,
    List.length retrieved = 10%nat
    /\ ((10 <= List.length embeddings)%nat ->
        exists qe, take df (snd (Faiss.search embeddings qe 10)) = Some retrieved)
    /\ r = mkResult q
             (fst (fst (evaluate_retrieval df q retrieved)))
             (snd (fst (evaluate_retrieval df q retrieved)))
             (snd (evaluate_retrieval df q retrieved)).

End EvaluationRows.

(* ================================================================== *)
(** * Part II.  Properties *)
(* ================================================================== *)

Import Py Np Naming NamingSpec.

(** ** The embedding at work *)

Example determine_source_samples :
  map determine_source
    ["004_03.jpg"; "1234_56.jpg"; "12_34.jpg"; "12345_67.jpg"; "004_3.jpg";
     "004_03.png"; "a1b2c3.jpg"; "x004_03.jpg"]
  = ["matches"; "matches"; "pubmed"; "pubmed"; "pubmed";
     "pubmed"; "pubmed"; "pubmed"].
Proof. reflexivity. Qed.

Example get_match_set_samples :
  map get_match_set
    ["387_01.jpg"; "004_03.jpg"; "1234_56.jpg"; "7_1.jpg"; "a1b2c3.jpg";
     "387_01.png"; "_01.jpg"]
  = ["387"; "004"; "1234"; "7"; "pubmed"; "pubmed"; "pubmed"].
Proof. reflexivity. Qed.

Example re_match_groups :
  re_match pat_match_set "0040_0312.jpg"
  = Some ["0040"; "_"; "0312"; "."; "j"; "p"; "g"].
Proof. reflexivity. Qed.

Example groupby_sample :
  Selector.groupby Sample.originals = [("a", [1; 3]%nat); ("b", [0; 2]%nat)].
Proof. reflexivity. Qed.

(** Both groups of the sample tie on the largest norm; the first-seen view
    is kept. *)
Example select_representatives_sample :
  Selector.select_representatives norm_rat Sample.originals Sample.views
  = Some ([[3; 4]; [3#5; 4#5]], ["a"; "b"]).
Proof. reflexivity. Qed.

Example search_sample :
  Faiss.search Sample.unit_views [0; 1] 3
  = ([0; 250 # 625; 500 # 625], [1; 0; 3]%Z).
Proof. reflexivity. Qed.

Example search_padded_sample :
  Faiss.search Sample.two_embeddings [1; 0] 4
  = ([0; 2; Faiss.FLT_MAX; Faiss.FLT_MAX], [0; 1; -1; -1]%Z).
Proof. reflexivity. Qed.

Example getitem_samples :
  map (getitem ["a"; "b"; "c"]) [0; 2; 3; -1; -3; -4]%Z
  = [Some "a"; Some "c"; None; Some "c"; Some "a"; None].
Proof. reflexivity. Qed.

Example matches_images_sample :
  Evaluation.matches_images
    (Evaluation.build_df [("100_01_rot.jpg", "100_01.jpg")]
       ["100_01.jpg"; "cell.jpg"; "100_02.jpg"; "100_01.jpg"])
  = ["100_01.jpg"; "100_02.jpg"].
Proof. reflexivity. Qed.

(** ** The matcher *)

Section Matcher.

Lemma at_dollar_spec s : at_dollar s = true <-> line_end s.
Proof.
  unfold line_end. destruct s as [|c [|c' s']]; simpl.
  - intuition.
  - rewrite Ascii.eqb_eq. split.
    + intros ->. now right.
    + intros [H|H]; [discriminate | now inversion H].
  - split; [discriminate | intros [H|H]; discriminate].
Qed.

Lemma re_match_nil s gs : re_match [] s = Some gs <-> line_end s /\ gs = [].
Proof.
  simpl. rewrite <- at_dollar_spec. destruct (at_dollar s); split.
  - intros [= <-]. auto.
  - now intros [_ ->].
  - discriminate.
  - intros [H _]. discriminate.
Qed.

Lemma re_match_one a r s gs :
  re_match (One a :: r) s = Some gs <->
  exists c s' gs', s = String c s' /\ atom_ok a c = true
                   /\ re_match r s' = Some gs'
                   /\ gs = String c "" :: gs'.
Proof.
  destruct s as [|c s']; simpl.
  - split; [discriminate | intros (c & s' & gs' & H & _); discriminate].
  - destruct (atom_ok a c) eqn:Ha.
    + destruct (re_match r s') as [gs0|] eqn:Hr; simpl; split.
      * intros [= <-]. now exists c, s', gs0.
      * intros (c0 & s0 & gs' & [= <- <-] & _ & Hr' & ->).
        rewrite Hr in Hr'. now inversion Hr'.
      * discriminate.
      * intros (c0 & s0 & gs' & [= <- <-] & _ & Hr' & _).
        rewrite Hr in Hr'. discriminate.
    + split; [discriminate|].
      intros (c0 & s0 & gs' & [= <- <-] & Ha' & _). congruence.
Qed.

Lemma re_match_plus_eq a r c s' :
  re_match (OneOrMore a :: r) (String c s') =
  if atom_ok a c then
    match re_match (OneOrMore a :: r) s' with
    | Some (g :: gs) => Some (String c g :: gs)
    | _ => option_map (cons (String c "")) (re_match r s')
    end
  else None.
Proof. reflexivity. Qed.

(** A run of digits followed by a literal that is not a digit: the run
    is the whole digit prefix, so the decomposition is unique. *)
Lemma re_match_digits_then_lit c r :
  is_digit c = false ->
  forall s gs,
    re_match (OneOrMore Digit :: One (Lit c) :: r) s = Some gs <->
    exists g rest gs',
      g <> "" /\ all_digits g = true /\ s = g ++ String c rest
      /\ re_match r rest = Some gs'
      /\ gs = g :: String c "" :: gs'.
Proof.
  intros Hc. induction s as [|a s' IH]; intros gs.
  - simpl. split; [discriminate|].
    intros (g & rest & gs' & Hg & _ & Hs & _).
    destruct g; [congruence | discriminate].
  - rewrite re_match_plus_eq. simpl atom_ok.
    destruct (is_digit a) eqn:Ha.
    + destruct (re_match (OneOrMore Digit :: One (Lit c) :: r) s')
        as [[|g0 gs0]|] eqn:Hm.
      * (* impossible: a match yields at least one group *)
        exfalso. destruct (proj1 (IH [])) as (g & rest & gs' & _ & _ & _ & _ & H);
          [reflexivity | discriminate].
      * destruct (proj1 (IH (g0 :: gs0)) eq_refl)
          as (g & rest & gs' & Hg & Hd & Hs & Hr & Hgs).
        inversion Hgs; subst g0 gs0. split.
        -- intros [= <-]. exists (String a g), rest, gs'.
           repeat split; try assumption.
           ++ discriminate.
           ++ simpl. now rewrite Ha, Hd.
           ++ simpl. now rewrite Hs.
        -- intros (g1 & rest1 & gs1 & Hg1 & Hd1 & Hs1 & Hr1 & ->).
           destruct g1 as [|a1 g1]; [congruence|].
           simpl in Hs1. injection Hs1 as <- Hs1.
           simpl in Hd1. apply andb_true_iff in Hd1 as [_ Hd1].
           destruct g1 as [|b g1].
           ++ simpl in Hs1. rewrite Hs in Hs1.
              destruct g as [|b g]; [congruence|].
              simpl in Hs1. injection Hs1 as <- _.
              simpl in Hd. rewrite Hc in Hd. discriminate.
           ++ assert (Hm' : re_match (OneOrMore Digit :: One (Lit c) :: r) s'
                            = Some (String b g1 :: String c "" :: gs1)).
              { rewrite Hm. apply IH. exists (String b g1), rest1, gs1.
                repeat split; try assumption. discriminate. }
              rewrite Hm in Hm'. now inversion Hm'.
      * split.
        -- intros H.
           destruct (re_match (One (Lit c) :: r) s') as [gs1|] eqn:H1;
             [|discriminate].
           simpl in H. injection H as <-.
           apply re_match_one in H1 as (c0 & s0 & gs' & -> & Hc0 & Hr & ->).
           simpl in Hc0. apply Ascii.eqb_eq in Hc0 as <-.
           exists (String a ""), s0, gs'. repeat split; try assumption.
           ++ discriminate.
           ++ simpl. now rewrite Ha.
        -- intros (g1 & rest1 & gs1 & Hg1 & Hd1 & Hs1 & Hr1 & ->).
           destruct g1 as [|a1 g1]; [congruence|].
           simpl in Hs1. injection Hs1 as <- Hs1.
           simpl in Hd1. apply andb_true_iff in Hd1 as [_ Hd1].
           destruct g1 as [|b g1].
           ++ simpl in Hs1. subst s'.
              replace (re_match (One (Lit c) :: r) (String c rest1))
                with (Some (String c "" :: gs1)); [reflexivity|].
              symmetry. apply re_match_one.
              exists c, rest1, gs1. repeat split; try assumption.
              simpl. apply Ascii.eqb_refl.
           ++ assert (Hm' : re_match (OneOrMore Digit :: One (Lit c) :: r) s'
                            = Some (String b g1 :: String c "" :: gs1)).
              { rewrite Hm. apply IH. exists (String b g1), rest1, gs1.
                repeat split; try assumption. discriminate. }
              rewrite Hm in Hm'. discriminate.
    + split; [discriminate|].
      intros (g1 & rest1 & gs1 & Hg1 & Hd1 & Hs1 & _).
      destruct g1 as [|a1 g1]; [congruence|].
      simpl in Hs1. injection Hs1 as <- _.
      simpl in Hd1. rewrite Ha in Hd1. discriminate.
Qed.

End Matcher.

(** ** File names *)

Section FileNames.

Lemma matches_dec p s : {matches p s} + {re_match p s = None}.
Proof.
  unfold matches. destruct (re_match p s) as [gs|]; [left; now exists gs | now right].
Qed.

Lemma matches_nil s : matches [] s <-> line_end s.
Proof.
  unfold matches. split.
  - intros [gs H]. now apply re_match_nil in H.
  - intros H. exists []. now apply re_match_nil.
Qed.

Lemma matches_one a r s :
  matches (One a :: r) s <->
  exists c s', s = String c s' /\ atom_ok a c = true /\ matches r s'.
Proof.
  unfold matches. split.
  - intros [gs H]. apply re_match_one in H as (c & s' & gs' & -> & Ha & Hr & _).
    exists c, s'. eauto.
  - intros (c & s' & -> & Ha & gs' & Hr).
    exists (String c "" :: gs'). apply re_match_one. now exists c, s', gs'.
Qed.

Lemma matches_times n r s :
  matches (Times n Digit ++ r)%list s <->
  exists g rest, String.length g = n /\ all_digits g = true
                 /\ s = g ++ rest /\ matches r rest.
Proof.
  revert s. induction n as [|n IH]; intros s.
  - simpl. split.
    + intros H. now exists "", s.
    + intros (g & rest & Hl & _ & -> & H). now destruct g.
  - change (Times (S n) Digit ++ r)%list with (One Digit :: (Times n Digit ++ r))%list.
    rewrite matches_one. split.
    + intros (c & s' & -> & Hc & H). apply IH in H as (g & rest & Hl & Hd & -> & H).
      exists (String c g), rest. simpl in *. rewrite Hc, Hd. auto.
    + intros (g & rest & Hl & Hd & -> & H). destruct g as [|c g]; [discriminate|].
      simpl in *. apply andb_true_iff in Hd as [Hc Hd].
      exists c, (g ++ rest). repeat split; auto.
      apply IH. exists g, rest. auto.
Qed.

Lemma matches_literal l r s :
  matches (literal l ++ r)%list s <-> exists rest, s = l ++ rest /\ matches r rest.
Proof.
  revert s. induction l as [|c l IH]; intros s.
  - simpl. split; [intros H; now exists s | now intros (rest & -> & H)].
  - change (literal (String c l) ++ r)%list
      with (One (Lit c) :: (literal l ++ r))%list.
    rewrite matches_one. split.
    + intros (c0 & s' & -> & Hc & H). simpl in Hc. apply Ascii.eqb_eq in Hc as <-.
      apply IH in H as (rest & -> & H). now exists rest.
    + intros (rest & -> & H). exists c, (l ++ rest). repeat split.
      * simpl. apply Ascii.eqb_refl.
      * apply IH. now exists rest.
Qed.

(** r'^\d{n}_\d{m}\.jpg$' *)
Lemma matches_fixed_width n m s :
  matches (Times n Digit ++ literal "_" ++ Times m Digit ++ literal ".jpg")%list s <->
  exists g v nl,
    s = g ++ "_" ++ v ++ ".jpg" ++ nl
    /\ all_digits g = true /\ String.length g = n
    /\ all_digits v = true /\ String.length v = m
    /\ line_end nl.
Proof.
  rewrite <- (app_nil_r (literal ".jpg")).
  rewrite matches_times. split.
  - intros (g & r1 & Hg & Hdg & -> & H).
    apply matches_literal in H as (r2 & -> & H).
    apply matches_times in H as (v & r3 & Hv & Hdv & -> & H).
    apply matches_literal in H as (nl & -> & H).
    apply matches_nil in H. exists g, v, nl. auto 10.
  - intros (g & v & nl & -> & Hdg & Hg & Hdv & Hv & Hnl).
    exists g, ("_" ++ v ++ ".jpg" ++ nl). repeat split; auto.
    apply matches_literal. exists (v ++ ".jpg" ++ nl). split; auto.
    apply matches_times. exists v, (".jpg" ++ nl). repeat split; auto.
    apply matches_literal. exists nl. split; auto.
    now apply matches_nil.
Qed.

Lemma determine_source_cases s :
  determine_source s = "matches" \/ determine_source s = "pubmed".
Proof.
  unfold determine_source.
  destruct (re_match pat_3_2 s); auto. destruct (re_match pat_4_2 s); auto.
Qed.

Lemma determine_source_matches s :
  determine_source s = "matches" <-> matches pat_3_2 s \/ matches pat_4_2 s.
Proof.
  unfold determine_source, matches.
  destruct (re_match pat_3_2 s) as [g3|].
  - split; eauto.
  - destruct (re_match pat_4_2 s) as [g4|].
    + split; eauto.
    + split; [discriminate|]. intros [[gs H]|[gs H]]; discriminate.
Qed.

(** [determine_source] accepts exactly three or four digits, an
    underscore, two digits and [.jpg], up to the newline [$] allows. *)
Lemma determine_source_spec s :
  determine_source s = "matches" <->
  exists g v nl,
    s = g ++ "_" ++ v ++ ".jpg" ++ nl
    /\ all_digits g = true /\ (String.length g = 3 \/ String.length g = 4)%nat
    /\ all_digits v = true /\ String.length v = 2%nat
    /\ line_end nl.
Proof.
  rewrite determine_source_matches. unfold pat_3_2, pat_4_2.
  rewrite !matches_fixed_width. split.
  - intros [H|H]; destruct H as (g & v & nl & ? & ? & ? & ? & ? & ?);
      exists g, v, nl; auto 10.
  - intros (g & v & nl & ? & ? & [?|?] & ? & ? & ?);
      [left | right]; exists g, v, nl; auto 10.
Qed.

(** [get_match_set] accepts any run of digits on both sides of the
    underscore and returns the first run. *)
Lemma pat_match_set_spec s gs :
  re_match pat_match_set s = Some gs <->
  exists g v nl,
    s = g ++ "_" ++ v ++ ".jpg" ++ nl
    /\ g <> "" /\ all_digits g = true
    /\ v <> "" /\ all_digits v = true
    /\ line_end nl
    /\ gs = [g; "_"; v; "."; "j"; "p"; "g"].
Proof.
  change pat_match_set
    with [OneOrMore Digit; One (Lit "_"); OneOrMore Digit; One (Lit ".");
          One (Lit "j"); One (Lit "p"); One (Lit "g")].
  rewrite re_match_digits_then_lit by reflexivity. split.
  - intros (g & r1 & gs1 & Hg & Hdg & -> & H & ->).
    apply re_match_digits_then_lit in H
        as (v & r2 & gs2 & Hv & Hdv & -> & H & ->); [|reflexivity].
    apply re_match_one in H as (c1 & r3 & gs3 & -> & Hc1 & H & ->).
    apply re_match_one in H as (c2 & r4 & gs4 & -> & Hc2 & H & ->).
    apply re_match_one in H as (c3 & nl & gs5 & -> & Hc3 & H & ->).
    apply re_match_nil in H as [Hnl ->].
    unfold atom_ok in Hc1, Hc2, Hc3.
    apply Ascii.eqb_eq in Hc1 as <-. apply Ascii.eqb_eq in Hc2 as <-.
    apply Ascii.eqb_eq in Hc3 as <-.
    exists g, v, nl. auto 10.
  - intros (g & v & nl & -> & Hg & Hdg & Hv & Hdv & Hnl & ->).
    exists g, (v ++ ".jpg" ++ nl), [v; "."; "j"; "p"; "g"]%list.
    repeat split; auto.
    apply re_match_digits_then_lit; [reflexivity|].
    exists v, ("jpg" ++ nl), ["j"; "p"; "g"]%list.
    repeat split; auto.
    apply re_match_one. exists "j"%char, ("pg" ++ nl), ["p"; "g"]%list.
    repeat split; auto.
    apply re_match_one. exists "p"%char, ("g" ++ nl), ["g"]%list.
    repeat split; auto.
    apply re_match_one. exists "g"%char, nl, (@nil string).
    repeat split; auto.
    now apply re_match_nil.
Qed.

Lemma all_digits_not_pubmed g : all_digits g = true -> g <> "pubmed".
Proof. intros H ->. discriminate. Qed.

Lemma get_match_set_spec s g :
  get_match_set s = g /\ g <> "pubmed" <->
  exists v nl,
    s = g ++ "_" ++ v ++ ".jpg" ++ nl
    /\ g <> "" /\ all_digits g = true
    /\ v <> "" /\ all_digits v = true
    /\ line_end nl.
Proof.
  unfold get_match_set. split.
  - intros [H Hg].
    destruct (re_match pat_match_set s) as [[|g1 gs]|] eqn:Hm;
      try (subst g; congruence).
    subst g1.
    apply pat_match_set_spec in Hm
        as (g0 & v & nl & -> & ? & ? & ? & ? & ? & Hgs).
    inversion Hgs; subst. now exists v, nl.
  - intros (v & nl & -> & Hg & Hdg & Hv & Hdv & Hnl).
    replace (re_match pat_match_set (g ++ "_" ++ v ++ ".jpg" ++ nl))
      with (Some [g; "_"; v; "."; "j"; "p"; "g"]).
    + split; [reflexivity | now apply all_digits_not_pubmed].
    + symmetry. apply pat_match_set_spec. exists g, v, nl. auto 10.
Qed.

Lemma get_match_set_pubmed s :
  get_match_set s = "pubmed" <-> re_match pat_match_set s = None.
Proof.
  unfold get_match_set. split.
  - destruct (re_match pat_match_set s) as [[|g1 gs]|] eqn:Hm; auto.
    + apply pat_match_set_spec in Hm as (? & ? & ? & _ & _ & _ & _ & _ & _ & H).
      discriminate.
    + intros ->.
      apply pat_match_set_spec in Hm
          as (g & ? & ? & _ & _ & Hd & _ & _ & _ & H).
      inversion H; subst g. discriminate.
  - now intros ->.
Qed.

End FileNames.

(** C5, as stated, fails on [get_match_set]: a five-digit group-id with a
    one-digit variant-id is classified into a match set, although it does
    not have the shape of three or four digits, an underscore and two
    digits.  And [determine_source] accepts no extension but "jpg": a name
    of that shape ending in ".png" is unlabeled. *)
Lemma get_match_set_accepts_other_widths :
  get_match_set "12345_1.jpg" = "12345"
  /\ get_match_set "12345_1.jpg" <> "pubmed"
  /\ ~ match_set_name "12345_1.jpg"
  /\ determine_source "004_03.png" = "pubmed"
  /\ match_set_name "004_03.png".
Proof.
  split; [reflexivity|]. split; [discriminate|]. split.
  - intros (g & v & ext & Hs & _ & Hlen & _).
    destruct g as [|a [|b [|c [|d [|e g]]]]]; simpl in Hlen;
      try (destruct Hlen; discriminate); simpl in Hs; discriminate.
  - split; [reflexivity|]. exists "004", "03", "png". auto 10.
Qed.

(** C5 (amended): [determine_source] answers "matches" exactly for three or
    four digits, an underscore, two digits and ".jpg" (a final newline is
    let through by [$]) and "pubmed" otherwise; [get_match_set] returns the
    group-id for any non-empty run of digits, an underscore, any non-empty
    run of digits and ".jpg", and "pubmed" otherwise.  "004_03.jpg" is in
    match set "004", "1234_03.jpg" in "1234", "a1b2c3.jpg" is unlabeled. *)
Theorem classification_rule :
  (forall s,
      determine_source s = "matches" <->
      exists g v nl,
        s = g ++ "_" ++ v ++ ".jpg" ++ nl
        /\ all_digits g = true /\ (String.length g = 3 \/ String.length g = 4)%nat
        /\ all_digits v = true /\ String.length v = 2%nat
        /\ line_end nl)
  /\ (forall s, determine_source s = "matches" \/ determine_source s = "pubmed")
  /\ (forall s g,
         get_match_set s = g /\ g <> "pubmed" <->
         exists v nl,
           s = g ++ "_" ++ v ++ ".jpg" ++ nl
           /\ g <> "" /\ all_digits g = true
           /\ v <> "" /\ all_digits v = true
           /\ line_end nl)
  /\ determine_source "004_03.jpg" = "matches"
  /\ get_match_set "004_03.jpg" = "004"
  /\ determine_source "1234_03.jpg" = "matches"
  /\ get_match_set "1234_03.jpg" = "1234"
  /\ determine_source "a1b2c3.jpg" = "pubmed"
  /\ get_match_set "a1b2c3.jpg" = "pubmed".
Proof.
  split; [exact determine_source_spec|].
  split; [exact determine_source_cases|].
  split; [exact get_match_set_spec|].
  repeat split.
Qed.

(** ** Number of clusters *)

Section Clusters.
Import Cluster.

Lemma num_clusters_le_10 n : (num_clusters n <= 10)%nat.
Proof. unfold num_clusters. apply Nat.le_min_l. Qed.

Lemma num_clusters_below_100 n : (n < 100)%nat -> num_clusters n = 0%nat.
Proof.
  intros H. unfold num_clusters. rewrite Nat.div_small by assumption.
  reflexivity.
Qed.

Lemma num_clusters_from_100 n :
  (100 <= n)%nat -> num_clusters n = num_clusters_spec n.
Proof.
  intros H. unfold num_clusters, num_clusters_spec.
  assert (1 <= n / 100)%nat.
  { change 1%nat with (100 / 100)%nat. now apply Nat.Div0.div_le_mono. }
  lia.
Qed.

Lemma num_clusters_spec_bounds n :
  (1 <= num_clusters_spec n <= 10)%nat.
Proof. unfold num_clusters_spec. lia. Qed.

End Clusters.

(** C2: the notebook computes [min(10, N // 100)] without the floor of one
    cluster.  On 50 embeddings it asks for 0 clusters where the rule of the
    claim gives 1; the branch taken afterwards is the one that reports "a
    single cluster". *)
Theorem num_clusters_misses_floor :
  Cluster.num_clusters 50 = 0%nat
  /\ Cluster.num_clusters_spec 50 = 1%nat
  /\ Cluster.silhouette_computed (Cluster.num_clusters 50) = false.
Proof. repeat split. Qed.

(** ** [np.argmax] *)

Section Argmax.

Lemma argmax_from_spec l : forall bi b i,
  (argmax_from bi b i l = bi /\ Forall (fun x => x <= b) l)
  \/ (exists pre m post,
         l = (pre ++ m :: post)%list
         /\ argmax_from bi b i l = (i + List.length pre)%nat
         /\ b < m
         /\ Forall (fun x => x < m) pre
         /\ Forall (fun x => x <= m) post).
Proof.
  induction l as [|x t IH]; intros bi b i; simpl.
  - left. split; [reflexivity | constructor].
  - destruct (Qle_bool x b) eqn:Hxb.
    + apply Qle_bool_iff in Hxb.
      destruct (IH bi b (S i)) as [[Hj Hall] | (pre & m & post & -> & Hj & Hb & Hpre & Hpost)].
      * left. split; [assumption | now constructor].
      * right. exists (x :: pre)%list, m, post. repeat split; auto.
        -- rewrite Hj. simpl. lia.
        -- constructor; [|assumption]. eapply Qle_lt_trans; eassumption.
    + assert (Hbx : b < x).
      { apply Qnot_le_lt. intros H. apply Qle_bool_iff in H. congruence. }
      destruct (IH i x (S i)) as [[Hj Hall] | (pre & m & post & -> & Hj & Hx & Hpre & Hpost)].
      * right. exists [], x, t. repeat split; auto.
        rewrite Hj. simpl. lia.
      * right. exists (x :: pre)%list, m, post. repeat split; auto.
        -- rewrite Hj. simpl. lia.
        -- eapply Qlt_trans; eassumption.
Qed.

(** The first position of the maximum. *)
Lemma argmax_spec l j :
  argmax l = Some j ->
  exists pre m post,
    l = (pre ++ m :: post)%list /\ j = List.length pre
    /\ Forall (fun x => x < m) pre /\ Forall (fun x => x <= m) post.
Proof.
  destruct l as [|x t]; simpl; [discriminate|]. intros [= <-].
  destruct (argmax_from_spec t 0 x 1)
    as [[Hj Hall] | (pre & m & post & -> & Hj & Hx & Hpre & Hpost)].
  - exists [], x, t. auto.
  - exists (x :: pre)%list, m, post. repeat split; auto.
Qed.

Lemma argmax_total l : l <> [] -> exists j, argmax l = Some j.
Proof. destruct l; [congruence | simpl; eauto]. Qed.

(** When no entry exceeds the first, the maximum is first met at
    position 0. *)
Lemma argmax_first_is_max x t :
  Forall (fun y => y <= x) t -> argmax (x :: t) = Some 0%nat.
Proof.
  intros H. simpl. f_equal.
  assert (G : forall i, argmax_from 0 x i t = 0%nat).
  { induction H as [|y t Hy _ IH]; intros i; simpl; [reflexivity|].
    replace (Qle_bool y x) with true; [apply IH|].
    symmetry. now apply Qle_bool_iff. }
  apply G.
Qed.

End Argmax.

(** ** Grouping *)

Section Grouping.
Import Selector.

Lemma mapM_Forall2 {A B} (f : A -> option B) l ys :
  mapM f l = Some ys <-> Forall2 (fun x y => f x = Some y) l ys.
Proof.
  revert ys. induction l as [|x t IH]; intros ys; simpl.
  - split; [intros [= <-]; constructor | intros H; now inversion H].
  - destruct (f x) as [y|] eqn:Hf.
    + destruct (mapM f t) as [ys'|] eqn:Hm; simpl.
      * split.
        -- intros [= <-]. constructor; [assumption | now apply IH].
        -- intros H. inversion H as [|? y' ? ys'' Hy Ht]; subst.
           apply IH in Ht. congruence.
      * split; [discriminate|].
        intros H. inversion H as [|? y' ? ys'' Hy Ht]; subst.
        apply IH in Ht. discriminate.
    + split; [discriminate|].
      intros H. inversion H; subst. congruence.
Qed.

Lemma mapM_total {A B} (f : A -> option B) l :
  (forall x, In x l -> exists y, f x = Some y) ->
  exists ys, mapM f l = Some ys.
Proof.
  induction l as [|x t IH]; intros H; simpl; [eauto|].
  destruct (H x (or_introl eq_refl)) as [y ->].
  destruct IH as [ys ->]; [intros; apply H; now right|].
  simpl. eauto.
Qed.

Lemma positions_of_spec key col : forall i j,
  In j (positions_of key col i) <->
  exists n, j = (i + n)%nat /\ nth_error col n = Some key.
Proof.
  induction col as [|x t IH]; intros i j; simpl.
  - split; [tauto | intros (n & _ & H); destruct n; discriminate].
  - assert (Ht : In j (positions_of key t (S i)) <->
                 exists n, j = (i + S n)%nat /\ nth_error t n = Some key).
    { rewrite IH. split; intros (n & -> & H); exists n; split; auto; lia. }
    destruct (String.eqb x key) eqn:Hx.
    + apply String.eqb_eq in Hx. subst x. simpl. rewrite Ht. split.
      * intros [<- | (n & -> & H)].
        -- exists 0%nat. split; [lia | reflexivity].
        -- exists (S n). auto.
      * intros ([|n] & -> & H).
        -- left. lia.
        -- right. exists n. auto.
    + apply String.eqb_neq in Hx. rewrite Ht. split.
      * intros (n & -> & H). exists (S n). auto.
      * intros ([|n] & -> & H).
        -- simpl in H. congruence.
        -- exists n. auto.
Qed.

Lemma positions_of_nonempty key col i :
  In key col -> positions_of key col i <> [].
Proof.
  intros H. apply In_nth_error in H as [n Hn].
  assert (G : In (i + n)%nat (positions_of key col i)).
  { apply positions_of_spec. eauto. }
  intros E. rewrite E in G. inversion G.
Qed.

Lemma insert_key_In k k' ks : In k (insert_key k' ks) <-> k = k' \/ In k ks.
Proof.
  induction ks as [|x t IH]; simpl.
  - intuition.
  - destruct (String.compare k' x) eqn:Hc; simpl.
    + apply String.compare_eq_iff in Hc. subst x. intuition.
    + intuition.
    + rewrite IH. intuition.
Qed.

Lemma sorted_keys_In k col : In k (sorted_keys col) <-> In k col.
Proof.
  unfold sorted_keys. induction col as [|x t IH]; simpl; [tauto|].
  rewrite insert_key_In, IH. intuition.
Qed.

(** The groups are the distinct keys, each with the rows that carry it. *)
Lemma groupby_keys col k : In k (map fst (groupby col)) <-> In k col.
Proof.
  unfold groupby. rewrite map_map. simpl. rewrite map_id.
  apply sorted_keys_In.
Qed.

Lemma groupby_members col k idxs :
  In (k, idxs) (groupby col) ->
  In k col /\ forall i, In i idxs <-> nth_error col i = Some k.
Proof.
  unfold groupby. intros H. apply in_map_iff in H as (k' & [= -> <-] & Hk).
  split; [now apply sorted_keys_In|].
  intros i. rewrite positions_of_spec. split.
  - now intros (n & -> & H).
  - intros H. now exists i.
Qed.

Lemma groupby_group_ok col g :
  In g (groupby col) ->
  snd g <> [] /\ forall i, In i (snd g) -> (i < List.length col)%nat.
Proof.
  destruct g as [k idxs]. intros H. simpl.
  destruct (groupby_members _ _ _ H) as [Hk Hi]. split.
  - unfold groupby in H. apply in_map_iff in H as (k' & [= -> <-] & _).
    now apply positions_of_nonempty.
  - intros i Hin. apply Hi in Hin. apply nth_error_Some. congruence.
Qed.

(** The keys come out in strictly ascending order, hence without
    repetition. *)
Lemma insert_key_sorted k ks :
  StronglySorted String_as_OT.lt ks ->
  StronglySorted String_as_OT.lt (insert_key k ks).
Proof.
  induction 1 as [|x t Ht IH Hx]; simpl.
  - repeat constructor.
  - destruct (String.compare k x) eqn:Hc.
    + now constructor.
    + apply String_as_OT.cmp_lt in Hc.
      constructor; [now constructor|]. constructor; [assumption|].
      eapply Forall_impl; [|exact Hx]. intros y Hy.
      eapply String_as_OT.lt_trans; eassumption.
    + assert (Hxk : String_as_OT.lt x k).
      { apply String_as_OT.cmp_lt. unfold String_as_OT.cmp.
        rewrite String.compare_antisym, Hc. reflexivity. }
      constructor; [assumption|].
      apply Forall_forall. intros y Hy. apply insert_key_In in Hy as [-> | Hy];
        [assumption|].
      rewrite Forall_forall in Hx. now apply Hx.
Qed.

Lemma sorted_keys_sorted col : StronglySorted String_as_OT.lt (sorted_keys col).
Proof.
  unfold sorted_keys. induction col as [|x t IH]; simpl; [constructor|].
  now apply insert_key_sorted.
Qed.

Lemma groupby_keys_NoDup col : NoDup (map fst (groupby col)).
Proof.
  unfold groupby. rewrite map_map. simpl. rewrite map_id.
  pose proof (sorted_keys_sorted col) as H.
  induction H as [|x t Ht IH Hx]; constructor; [|assumption].
  intros Hin. rewrite Forall_forall in Hx.
  apply (String_as_OT.lt_not_eq _ _ (Hx x Hin)). reflexivity.
Qed.

End Grouping.

(** ** Representative embeddings *)

Section Selection.
Import Selector.
Variable norm : vec -> Q.

Lemma Forall2_In_l {A B} (R : A -> B -> Prop) l l' x :
  Forall2 R l l' -> In x l -> exists y, In y l' /\ R x y.
Proof.
  induction 1 as [|a b l l' Hab _ IH]; intros Hin; [inversion Hin|].
  destruct Hin as [<- | Hin].
  - exists b. split; [now left | assumption].
  - destruct (IH Hin) as (y & Hy & Hr). exists y. split; [now right | assumption].
Qed.

(** One group: the loop body finds the first member of largest norm. *)
Lemma select_group_spec embeddings indices :
  indices <> [] ->
  (forall i, In i indices -> (i < List.length embeddings)%nat) ->
  exists e, select_group norm embeddings indices = Some e
            /\ first_max_of norm embeddings indices e.
Proof.
  intros Hne Hvalid. unfold select_group.
  destruct (mapM_total (nth_error embeddings) indices) as [ge Hge].
  { intros i Hi. destruct (nth_error embeddings i) eqn:E; [eauto|].
    apply nth_error_None in E. specialize (Hvalid i Hi). lia. }
  rewrite Hge. apply mapM_Forall2 in Hge.
  destruct (argmax_total (map norm ge)) as [j Hj].
  { destruct ge; [|discriminate]. inversion Hge. congruence. }
  cbv zeta. rewrite Hj.
  apply argmax_spec in Hj as (pre & m & post & Hnorms & -> & Hpre & Hpost).
  apply map_eq_app in Hnorms as (ge1 & ge2' & -> & Hpre_eq & Hrest).
  apply map_eq_cons in Hrest as (e & ge2 & -> & Hm & Hpost_eq).
  apply Forall2_app_inv_r in Hge as (i1 & i2' & H1 & H2 & ->).
  destruct i2' as [|j i2]; [inversion H2|].
  apply Forall2_cons_iff in H2 as [Hj H2'].
  assert (Hlen : List.length pre = List.length i1).
  { subst pre. rewrite length_map. symmetry.
    eapply Forall2_length; eassumption. }
  rewrite nth_error_app2 by lia. rewrite Hlen, Nat.sub_diag. simpl.
  exists e. split; [assumption|].
  exists i1, j, i2. subst pre post m. repeat split; auto.
  - intros i x Hi Hx.
    destruct (Forall2_In_l _ _ _ _ H1 Hi) as (y & Hy & Hiy).
    rewrite Hx in Hiy. injection Hiy as <-.
    rewrite Forall_forall in Hpre. apply Hpre. now apply in_map.
  - intros i x Hi Hx.
    destruct (Forall2_In_l _ _ _ _ H2' Hi) as (y & Hy & Hiy).
    rewrite Hx in Hiy. injection Hiy as <-.
    rewrite Forall_forall in Hpost. apply Hpost. now apply in_map.
Qed.

Lemma select_loop_spec embeddings groups : forall acc_e acc_f,
  (forall g, In g groups ->
     snd g <> [] /\ forall i, In i (snd g) -> (i < List.length embeddings)%nat) ->
  exists sel,
    select_loop norm embeddings groups acc_e acc_f
    = Some ((acc_e ++ sel)%list, (acc_f ++ map fst groups)%list)
    /\ Forall2 (fun g e => first_max_of norm embeddings (snd g) e) groups sel.
Proof.
  induction groups as [|[k idxs] rest IH]; intros acc_e acc_f Hok; simpl.
  - exists []. rewrite !app_nil_r. split; [reflexivity | constructor].
  - destruct (Hok (k, idxs) (or_introl eq_refl)) as [Hne Hvalid].
    destruct (select_group_spec embeddings idxs Hne Hvalid) as (e & -> & He).
    destruct (IH (acc_e ++ [e])%list (acc_f ++ [k])%list) as (sel & -> & Hsel).
    { intros g Hg. apply Hok. now right. }
    exists (e :: sel). rewrite <- !app_assoc. simpl.
    split; [reflexivity | now constructor].
Qed.

(** When no member of the group has a larger norm than its first member,
    the loop body returns the first-seen member of the group. *)
Lemma select_group_first_is_max embeddings indices :
  (forall i0 rest, indices = i0 :: rest ->
     forall j x y, In j rest ->
       nth_error embeddings i0 = Some x -> nth_error embeddings j = Some y ->
       norm y <= norm x) ->
  (forall i, In i indices -> (i < List.length embeddings)%nat) ->
  select_group norm embeddings indices = first_seen embeddings indices.
Proof.
  intros Hmax Hvalid. unfold select_group, first_seen.
  destruct (mapM_total (nth_error embeddings) indices) as [ge Hge].
  { intros i Hi. destruct (nth_error embeddings i) eqn:E; [eauto|].
    apply nth_error_None in E. specialize (Hvalid i Hi). lia. }
  rewrite Hge. apply mapM_Forall2 in Hge.
  destruct Hge as [|i e idxs ge' Hi Hrest]; [reflexivity|].
  cbv zeta. simpl map. rewrite argmax_first_is_max; [reflexivity|].
  apply Forall_forall. intros n Hn.
  apply in_map_iff in Hn as (y & <- & Hy).
  apply Forall2_flip in Hrest.
  destruct (Forall2_In_l _ _ _ _ Hrest Hy) as (j & Hj & Hjy).
  apply (Hmax i idxs eq_refl j e y Hj Hi Hjy).
Qed.

Lemma select_loop_first_is_max embeddings groups : forall acc_e acc_f,
  (forall k i0 rest, In (k, i0 :: rest) groups ->
     forall j x y, In j rest ->
       nth_error embeddings i0 = Some x -> nth_error embeddings j = Some y ->
       norm y <= norm x) ->
  (forall g, In g groups ->
     forall i, In i (snd g) -> (i < List.length embeddings)%nat) ->
  select_loop norm embeddings groups acc_e acc_f
  = option_map (fun sel => ((acc_e ++ sel)%list, (acc_f ++ map fst groups)%list))
      (mapM (fun g => first_seen embeddings (snd g)) groups).
Proof.
  induction groups as [|[k idxs] rest IH]; intros acc_e acc_f Hmax Hok; simpl.
  - now rewrite !app_nil_r.
  - rewrite select_group_first_is_max.
    2: { intros i0 more -> . apply (Hmax k). now left. }
    2: { intros i Hi. apply (Hok (k, idxs)); [now left | assumption]. }
    destruct (first_seen embeddings idxs) as [e|]; [|reflexivity].
    rewrite IH.
    2: { intros k' i0 more Hin. apply (Hmax k'). now right. }
    2: { intros g Hg. apply Hok. now right. }
    destruct (mapM _ rest) as [sel|]; simpl; [|reflexivity].
    now rewrite <- !app_assoc.
Qed.

End Selection.

(** C3: for every table of original-image identifiers with as many rows as
    there are embeddings, the selector returns one embedding per distinct
    identifier (a group is the rows that carry one identifier), in key
    order; the embedding returned for a group is a
    member of the group whose norm is at least that of every member and
    strictly greater than that of every member seen before it (so ties go
    to the first-seen member); a group of one member returns that member.
    This holds whatever value [norm] computes for a vector. *)
Theorem selector_picks_first_maximum (norm : vec -> Q)
    (original_image : list string) (embeddings : list vec) :
  List.length original_image = List.length embeddings ->
  exists sel,
    Selector.select_representatives norm original_image embeddings
    = Some (sel, map fst (Selector.groupby original_image))
    /\ NoDup (map fst (Selector.groupby original_image))
    /\ (forall k, In k (map fst (Selector.groupby original_image))
                  <-> In k original_image)
    /\ (forall k idxs, In (k, idxs) (Selector.groupby original_image) ->
          forall i, In i idxs <-> nth_error original_image i = Some k)
    /\ Forall2 (fun g e => Selector.first_max_of norm embeddings (snd g) e)
               (Selector.groupby original_image) sel
    /\ Forall2 (fun g e => forall j, snd g = [j] -> nth_error embeddings j = Some e)
               (Selector.groupby original_image) sel.
Proof.
  intros Hlen. unfold Selector.select_representatives.
  rewrite Hlen, Nat.eqb_refl.
  destruct (select_loop_spec norm embeddings (Selector.groupby original_image) [] [])
    as (sel & Hsel & Hmax).
  { intros g Hg. rewrite <- Hlen. now apply groupby_group_ok. }
  exists sel. split; [exact Hsel|].
  split; [apply groupby_keys_NoDup|].
  split; [intros k; apply groupby_keys|].
  split; [intros k idxs H; now apply groupby_members|].
  split; [exact Hmax|].
  clear Hsel. induction Hmax as [|g e gs es Hge _ IH]; constructor; auto.
  intros j Hj. destruct Hge as (pre & j' & post & Hidx & He & _).
  rewrite Hj in Hidx.
  destruct pre as [|a pre]; simpl in Hidx.
  - now injection Hidx as ->.
  - injection Hidx as _ Hidx. destruct pre; discriminate.
Qed.

Lemma selector_picks_first_maximum_witness :
  exists sel,
    Selector.select_representatives norm_rat Sample.originals Sample.views
    = Some (sel, map fst (Selector.groupby Sample.originals))
    /\ NoDup (map fst (Selector.groupby Sample.originals))
    /\ (forall k, In k (map fst (Selector.groupby Sample.originals))
                  <-> In k Sample.originals)
    /\ (forall k idxs, In (k, idxs) (Selector.groupby Sample.originals) ->
          forall i, In i idxs <-> nth_error Sample.originals i = Some k)
    /\ Forall2 (fun g e => Selector.first_max_of norm_rat Sample.views (snd g) e)
               (Selector.groupby Sample.originals) sel
    /\ Forall2 (fun g e => forall j, snd g = [j] -> nth_error Sample.views j = Some e)
               (Selector.groupby Sample.originals) sel.
Proof.
  apply (selector_picks_first_maximum norm_rat Sample.originals Sample.views).
  reflexivity.
Defined.

(** ** Unit-length embeddings *)

Section UnitLength.

Lemma Qsqrt_one q : q == 1 -> Qsqrt q == 1.
Proof.
  destruct q as [n d]. unfold Qeq, Qsqrt. simpl. intros H.
  assert (Hn : n = Zpos d) by lia. subst n.
  rewrite Z.sqrt_square by lia. lia.
Qed.

(** [Qsqrt] is exact on the square of a non-negative rational. *)
Lemma Qsqrt_square r : 0 <= r -> Qsqrt (r * r) == r.
Proof.
  destruct r as [a b]. unfold Qle, Qeq, Qsqrt. simpl. intros H.
  replace (a * a * Zpos (b * b))%Z with ((a * Zpos b) * (a * Zpos b))%Z
    by (rewrite Pos2Z.inj_mul; ring).
  rewrite Z.sqrt_square by nia.
  rewrite Pos2Z.inj_mul. ring.
Qed.

Lemma norm_rat_unit v : unit_length v -> norm_rat v == 1.
Proof. unfold unit_length, norm_rat. apply Qsqrt_one. Qed.

Lemma dot_scale n u : forall v,
  ~ n == 0 ->
  dot (map (fun x => x / n) u) (map (fun x => x / n) v) == dot u v / (n * n).
Proof.
  induction u as [|x u IH]; intros [|y v] Hn; simpl;
    try (field; assumption).
  rewrite IH by assumption. field. assumption.
Qed.

(** Step 5 of the embedding notebooks, in exact arithmetic: a row
    divided by its Euclidean norm has unit length. *)
Lemma normalize_unit (norm : vec -> Q) v :
  norm v * norm v == dot v v -> ~ norm v == 0 ->
  unit_length (Selector.normalize norm v).
Proof.
  intros Hsq Hnz. unfold unit_length, Selector.normalize.
  rewrite dot_scale by assumption. rewrite <- Hsq. field. assumption.
Qed.

End UnitLength.

(** C9, as stated, fails on the arrays of the notebooks.  Rows divided by
    their norm in single precision do not all have the same computed
    norm: the rows [1, 1] and [3, 4], normalised as step 5 does, have
    the computed norms 0.99999994 and 1.  Put in one group, the
    selector returns the second row, not the first-seen one. *)
Lemma normalized_rows_differ_in_norm :
  map Float32.normalize [[1; 1]; [3; 4]]
  = [[11863283 # 16777216; 11863283 # 16777216];
     [5033165 # 8388608; 13421773 # 16777216]]
  /\ map Float32.norm (map Float32.normalize [[1; 1]; [3; 4]])
     = [16777215 # 16777216; 1]
  /\ Selector.select_representatives Float32.norm ["a"; "a"]
       (map Float32.normalize [[1; 1]; [3; 4]])
     = Some ([[5033165 # 8388608; 13421773 # 16777216]], ["a"])
  /\ Selector.select_first_seen ["a"; "a"]
       (map Float32.normalize [[1; 1]; [3; 4]])
     = Some ([[11863283 # 16777216; 11863283 # 16777216]], ["a"])
  /\ Selector.select_representatives Float32.norm ["a"; "a"]
       (map Float32.normalize [[1; 1]; [3; 4]])
     <> Selector.select_first_seen ["a"; "a"]
          (map Float32.normalize [[1; 1]; [3; 4]]).
Proof.
  repeat split; try (vm_compute; reflexivity).
  vm_compute. discriminate.
Qed.

(** C9 (amended): whatever floats the norm returns, the highest-norm
    selector and the selector that returns the first-seen embedding of
    each group give the same result whenever, in every group, no row has
    a larger computed norm than the first row of the group; in
    particular when the computed norms within each group are all equal.
    Normalisation does not ensure this on floats. *)
Theorem first_maximal_selector_is_first_seen (norm : vec -> Q)
    (original_image : list string) (embeddings : list vec) :
  (forall k i0 rest,
      In (k, i0 :: rest) (Selector.groupby original_image) ->
      forall j x y,
        In j rest ->
        nth_error embeddings i0 = Some x ->
        nth_error embeddings j = Some y ->
        norm y <= norm x) ->
  Selector.select_representatives norm original_image embeddings
  = Selector.select_first_seen original_image embeddings.
Proof.
  intros Hmax.
  unfold Selector.select_representatives, Selector.select_first_seen.
  destruct (List.length original_image =? List.length embeddings)%nat eqn:Hlen;
    [|reflexivity].
  apply Nat.eqb_eq in Hlen.
  rewrite select_loop_first_is_max.
  - reflexivity.
  - exact Hmax.
  - intros g Hg i Hi. rewrite <- Hlen.
    now apply (proj2 (groupby_group_ok _ _ Hg)).
Qed.

Lemma first_maximal_selector_is_first_seen_witness :
  Selector.select_representatives Float32.norm ["a"; "a"; "b"]
    (map Float32.normalize [[3; 4]; [1; 1]; [4; 3]])
  = Selector.select_first_seen ["a"; "a"; "b"]
      (map Float32.normalize [[3; 4]; [1; 1]; [4; 3]]).
Proof.
  apply (first_maximal_selector_is_first_seen Float32.norm ["a"; "a"; "b"]
           (map Float32.normalize [[3; 4]; [1; 1]; [4; 3]])).
  intros k i0 rest Hin j x y Hj Hx Hy. simpl in Hin.
  destruct Hin as [E | [E | []]]; injection E as <- <- <-;
    simpl in Hj; try contradiction; destruct Hj as [<- | []];
    vm_compute in Hx; vm_compute in Hy;
    injection Hx as <-; injection Hy as <-; vm_compute; discriminate.
Defined.

(** ** Sorting *)

Section Sorting.
Import Faiss.
Context {A : Type}.

Lemma insert_sorted_perm (le : A -> A -> bool) x l :
  Permutation (insert_sorted le x l) (x :: l).
Proof.
  induction l as [|y t IH]; simpl; [reflexivity|].
  destruct (le x y); [reflexivity|].
  rewrite IH. apply perm_swap.
Qed.

Lemma sort_by_perm (le : A -> A -> bool) l : Permutation (sort_by le l) l.
Proof.
  unfold sort_by. induction l as [|x t IH]; simpl; [reflexivity|].
  rewrite insert_sorted_perm. now constructor.
Qed.

Lemma sort_by_In (le : A -> A -> bool) l x : In x (sort_by le l) <-> In x l.
Proof.
  split; apply Permutation_in;
    [apply sort_by_perm | apply Permutation_sym, sort_by_perm].
Qed.

Lemma sort_by_length (le : A -> A -> bool) l :
  List.length (sort_by le l) = List.length l.
Proof. apply Permutation_length, sort_by_perm. Qed.

(** Two orders that agree on the elements of a list sort it alike. *)
Lemma insert_sorted_ext (le le' : A -> A -> bool) x l :
  (forall b, In b l -> le x b = le' x b) ->
  insert_sorted le x l = insert_sorted le' x l.
Proof.
  induction l as [|y t IH]; intros H; simpl; [reflexivity|].
  rewrite <- (H y) by now left.
  destruct (le x y); [reflexivity|].
  f_equal. apply IH. intros b Hb. apply H. now right.
Qed.

Lemma sort_by_ext (le le' : A -> A -> bool) l :
  (forall a b, In a l -> In b l -> le a b = le' a b) ->
  sort_by le l = sort_by le' l.
Proof.
  unfold sort_by. induction l as [|x t IH]; intros H; simpl; [reflexivity|].
  rewrite <- IH by (intros a b Ha Hb; apply H; now right).
  apply insert_sorted_ext. intros b Hb. apply H; [now left|].
  right. now apply (sort_by_In le t b).
Qed.

Section Ordered.
Variable key : A -> Q.
Let le (a b : A) : bool := Qle_bool (key a) (key b).

Lemma insert_sorted_sorted x l :
  StronglySorted (fun a b => key a <= key b) l ->
  StronglySorted (fun a b => key a <= key b) (insert_sorted le x l).
Proof.
  induction 1 as [|y t Ht IH Hy]; simpl.
  - repeat constructor.
  - unfold le at 1. destruct (Qle_bool (key x) (key y)) eqn:Hxy.
    + apply Qle_bool_iff in Hxy. constructor; [now constructor|].
      constructor; [assumption|].
      eapply Forall_impl; [|exact Hy]. intros a Ha.
      eapply Qle_trans; eassumption.
    + assert (Hyx : key y <= key x).
      { apply Qlt_le_weak, Qnot_le_lt. intros H.
        apply Qle_bool_iff in H. congruence. }
      constructor; [assumption|].
      apply Forall_forall. intros a Ha.
      apply (Permutation_in _ (insert_sorted_perm le x t)) in Ha.
      destruct Ha as [<- | Ha]; [assumption|].
      rewrite Forall_forall in Hy. now apply Hy.
Qed.

Lemma sort_by_sorted l :
  StronglySorted (fun a b => key a <= key b) (sort_by le l).
Proof.
  unfold sort_by. induction l as [|x t IH]; simpl; [constructor|].
  now apply insert_sorted_sorted.
Qed.
End Ordered.

Lemma StronglySorted_app_inv (R : A -> A -> Prop) l1 l2 :
  StronglySorted R (l1 ++ l2) ->
  StronglySorted R l1 /\ StronglySorted R l2
  /\ forall a b, In a l1 -> In b l2 -> R a b.
Proof.
  induction l1 as [|x t IH]; simpl; intros H.
  - repeat split; [constructor | assumption | intros a b []].
  - inversion H as [|? ? Ht Hx]; subst.
    destruct (IH Ht) as (H1 & H2 & H12).
    rewrite Forall_forall in Hx. repeat split; auto.
    + constructor; [assumption|]. apply Forall_forall. intros a Ha.
      apply Hx. apply in_or_app. now left.
    + intros a b [<- | Ha] Hb; [|now apply H12].
      apply Hx. apply in_or_app. now right.
Qed.

Lemma StronglySorted_map {B} (f : A -> B) (R : B -> B -> Prop) l :
  StronglySorted (fun a b => R (f a) (f b)) l -> StronglySorted R (map f l).
Proof.
  induction 1 as [|x t Ht IH Hx]; simpl; constructor; auto.
  apply Forall_forall. intros b Hb. apply in_map_iff in Hb as (a & <- & Ha).
  rewrite Forall_forall in Hx. now apply Hx.
Qed.

Lemma pad_length k (filler : A) l : List.length (pad k filler l) = k.
Proof.
  unfold pad. rewrite length_app, length_firstn, repeat_length. lia.
Qed.

Lemma pad_map {B} k (f : A -> B) filler l :
  pad k filler (map f l)
  = (map f (firstn k l) ++ repeat filler (k - List.length l))%list.
Proof. unfold pad. now rewrite firstn_map, length_map. Qed.

End Sorting.

(** ** The index *)

Section Index.
Import Faiss.

Lemma combine_seq_In (xb : list vec) : forall s p v,
  In (p, v) (combine (seq s (List.length xb)) xb) <->
  (s <= p)%nat /\ nth_error xb (p - s) = Some v.
Proof.
  induction xb as [|x t IH]; intros s p v; simpl.
  - split; [tauto | intros [_ H]; destruct (p - s)%nat; discriminate].
  - rewrite IH. split.
    + intros [[= <- <-] | [Hs H]].
      * rewrite Nat.sub_diag. auto.
      * split; [lia|]. replace (p - s)%nat with (S (p - S s)) by lia.
        assumption.
    + intros [Hs H]. destruct (p - s)%nat as [|n] eqn:E.
      * left. simpl in H. injection H as <-. f_equal. lia.
      * right. split; [lia|]. simpl in H.
        replace (p - S s)%nat with n by lia. assumption.
Qed.

Lemma enumerate_In xb p v :
  In (p, v) (enumerate xb) <-> nth_error xb p = Some v.
Proof.
  unfold enumerate. rewrite combine_seq_In, Nat.sub_0_r.
  intuition. lia.
Qed.

Lemma enumerate_length xb : List.length (enumerate xb) = List.length xb.
Proof. unfold enumerate. rewrite length_combine, length_seq. lia. Qed.

Lemma enumerate_fst xb : map fst (enumerate xb) = seq 0 (List.length xb).
Proof.
  unfold enumerate. generalize 0%nat.
  induction xb as [|x t IH]; intros s; simpl; [reflexivity|].
  now rewrite IH.
Qed.

Lemma rank_by_perm score xb : Permutation (rank_by score xb) (enumerate xb).
Proof. apply sort_by_perm. Qed.

Lemma rank_by_length score xb :
  List.length (rank_by score xb) = List.length xb.
Proof. unfold rank_by. now rewrite sort_by_length, enumerate_length. Qed.

Lemma rank_by_NoDup score xb : NoDup (map fst (rank_by score xb)).
Proof.
  eapply Permutation_NoDup.
  - apply Permutation_sym, Permutation_map, rank_by_perm.
  - rewrite enumerate_fst. apply seq_NoDup.
Qed.

Lemma rank_by_sorted score xb :
  StronglySorted (fun a b => score (snd a) <= score (snd b)) (rank_by score xb).
Proof. apply (sort_by_sorted (fun a => score (snd a))). Qed.

(** Equal scores keep the order of insertion. *)
Lemma insert_sorted_stable (score : vec -> Q) (x : nat * vec) l :
  StronglySorted
    (fun a b => score (snd a) < score (snd b)
                \/ (score (snd a) == score (snd b) /\ (fst a < fst b)%nat)) l ->
  Forall (fun y => (fst x < fst y)%nat) l ->
  StronglySorted
    (fun a b => score (snd a) < score (snd b)
                \/ (score (snd a) == score (snd b) /\ (fst a < fst b)%nat))
    (insert_sorted (fun a b => Qle_bool (score (snd a)) (score (snd b))) x l).
Proof.
  induction 1 as [|y t Ht IH Hy]; intros Hpos; simpl.
  - repeat constructor.
  - inversion Hpos as [|? ? Hxy Hxt]; subst.
    destruct (Qle_bool (score (snd x)) (score (snd y))) eqn:Hle.
    + apply Qle_bool_iff in Hle. constructor; [now constructor|].
      assert (Hfirst : score (snd x) < score (snd y)
                       \/ (score (snd x) == score (snd y) /\ (fst x < fst y)%nat)).
      { apply Qle_lteq in Hle as [H|H]; [now left | right; auto]. }
      constructor; [assumption|].
      rewrite Forall_forall in Hy, Hxt. apply Forall_forall. intros z Hz.
      specialize (Hy z Hz). specialize (Hxt z Hz).
      destruct Hy as [Hlt | [Heq _]].
      * left. eapply Qle_lt_trans; eassumption.
      * rewrite <- Heq. apply Qle_lteq in Hle as [H|H]; [now left | right; auto].
    + assert (Hyx : score (snd y) < score (snd x)).
      { apply Qnot_le_lt. intros H. apply Qle_bool_iff in H. congruence. }
      constructor; [now apply IH|].
      apply Forall_forall. intros z Hz.
      apply (Permutation_in _ (insert_sorted_perm _ x t)) in Hz.
      destruct Hz as [<- | Hz]; [now left|].
      rewrite Forall_forall in Hy. now apply Hy.
Qed.

Lemma rank_by_stable score xb :
  StronglySorted
    (fun a b => score (snd a) < score (snd b)
                \/ (score (snd a) == score (snd b) /\ (fst a < fst b)%nat))
    (rank_by score xb).
Proof.
  unfold rank_by, enumerate, sort_by. generalize 0%nat.
  induction xb as [|x t IH]; intros s; simpl; [constructor|].
  apply insert_sorted_stable; [apply IH|].
  apply Forall_forall. intros [p v] Hp.
  apply (sort_by_In _ (combine (seq (S s) (List.length t)) t)) in Hp.
  apply combine_seq_In in Hp. simpl. lia.
Qed.

Lemma index_search_positive xb q k :
  (0 < k)%nat -> index_search xb q k = Some (search xb q k).
Proof.
  intros Hk. unfold index_search.
  destruct (Nat.eqb_spec k 0); [lia | reflexivity].
Qed.

Lemma NoDup_app_l {A} (l1 l2 : list A) : NoDup (l1 ++ l2) -> NoDup l1.
Proof.
  induction l1 as [|x t IH]; simpl; intros H; [constructor|].
  inversion H; subst. constructor; [|now apply IH].
  intros Hin. apply H2. apply in_or_app. now left.
Qed.

(** What a search returns, whatever [k] is. *)
Lemma search_spec xb q k :
  exists ps vs,
    List.length ps = Nat.min k (List.length xb)
    /\ Forall2 (fun p v => nth_error xb p = Some v) ps vs
    /\ NoDup ps
    /\ snd (search xb q k)
       = (map Z.of_nat ps ++ repeat (-1)%Z (k - List.length xb))%list
    /\ fst (search xb q k)
       = (map (l2_sq q) vs ++ repeat FLT_MAX (k - List.length xb))%list
    /\ StronglySorted Qle (map (l2_sq q) vs)
    /\ (forall p v, nth_error xb p = Some v -> ~ In p ps ->
          Forall (fun d => d <= l2_sq q v) (map (l2_sq q) vs))
    /\ (forall p v, nth_error ps 0 = Some p -> nth_error vs 0 = Some v ->
          forall w, In w xb -> l2_sq q v <= l2_sq q w).
Proof.
  set (ranked := rank_by (l2_sq q) xb).
  exists (map fst (firstn k ranked)), (map snd (firstn k ranked)).
  assert (Hsplit : ranked = (firstn k ranked ++ skipn k ranked)%list)
    by (symmetry; apply firstn_skipn).
  assert (Hsorted := rank_by_sorted (l2_sq q) xb). fold ranked in Hsorted.
  assert (HIn : forall p v, In (p, v) ranked <-> nth_error xb p = Some v).
  { intros p v. unfold ranked, rank_by. rewrite sort_by_In. apply enumerate_In. }
  rewrite Hsplit in Hsorted.
  apply StronglySorted_app_inv in Hsorted as (Htop & _ & Hcross).
  split; [|split; [|split; [|split; [|split; [|split; [|split]]]]]].
  - rewrite length_map, length_firstn. unfold ranked.
    now rewrite rank_by_length.
  - assert (G : forall l, (forall e, In e l -> In e ranked) ->
                Forall2 (fun p v => nth_error xb p = Some v)
                        (map fst l) (map snd l)).
    { induction l as [|[p v] t IH]; intros H; simpl; constructor.
      - apply HIn, H. now left.
      - apply IH. intros e He. apply H. now right. }
    apply G. intros e He. rewrite Hsplit. apply in_or_app. now left.
  - apply (NoDup_app_l _ (map fst (skipn k ranked))).
    rewrite <- map_app, <- Hsplit. apply rank_by_NoDup.
  - unfold search. fold ranked. cbn [snd]. rewrite pad_map.
    unfold ranked at 2. rewrite rank_by_length. now rewrite map_map.
  - unfold search. fold ranked. cbn [fst]. rewrite pad_map.
    unfold ranked at 2. rewrite rank_by_length. now rewrite map_map.
  - rewrite map_map. now apply StronglySorted_map.
  - intros p v Hp Hnot. apply Forall_forall. intros d Hd.
    rewrite map_map in Hd. apply in_map_iff in Hd as (e & <- & He).
    apply HIn in Hp. rewrite Hsplit in Hp. apply in_app_or in Hp as [Hp|Hp].
    + exfalso. apply Hnot. apply in_map_iff. now exists (p, v).
    + apply (Hcross e (p, v) He Hp).
  - intros p v Hp Hv w Hw.
    destruct (firstn k ranked) as [|[p0 v0] top] eqn:Etop; [discriminate|].
    simpl in Hp, Hv. injection Hp as <-. injection Hv as <-.
    apply In_nth_error in Hw as [pw Hw]. apply HIn in Hw.
    rewrite Hsplit in Hw. simpl in Hw. destruct Hw as [[= <- <-] | Hw].
    + apply Qle_refl.
    + inversion Htop as [|? ? _ Hall]; subst. rewrite Forall_forall in Hall.
      apply in_app_or in Hw as [Hw|Hw].
      * apply (Hall _ Hw).
      * apply (Hcross (p0, v0) (pw, w)); [now left | assumption].
Qed.

End Index.

(** ** Distances *)

Section Distances.

Lemma Qsquare_nonneg (a : Q) : 0 <= a * a.
Proof. destruct a as [n d]. unfold Qle. simpl. nia. Qed.

Lemma Qsquare_zero (a : Q) : a * a == 0 -> a == 0.
Proof. destruct a as [n d]. unfold Qeq. simpl. nia. Qed.

Lemma l2_sq_nonneg u : forall v, 0 <= l2_sq u v.
Proof.
  induction u as [|x u IH]; intros [|y v]; cbn [l2_sq]; try apply Qle_refl.
  specialize (IH v). pose proof (Qsquare_nonneg (x - y)). lra.
Qed.

Lemma l2_sq_self u : l2_sq u u == 0.
Proof.
  induction u as [|x u IH]; cbn [l2_sq]; [reflexivity|]. rewrite IH. ring.
Qed.

Lemma l2_sq_zero u : forall v,
  List.length u = List.length v -> l2_sq u v == 0 -> Forall2 Qeq u v.
Proof.
  induction u as [|x u IH]; intros [|y v] Hlen H; cbn [l2_sq] in *;
    try discriminate; constructor.
  - pose proof (l2_sq_nonneg u v). pose proof (Qsquare_nonneg (x - y)).
    assert (E : (x - y) * (x - y) == 0) by lra.
    apply Qsquare_zero in E. lra.
  - apply IH; [simpl in Hlen; lia|]. pose proof (l2_sq_nonneg u v).
    pose proof (Qsquare_nonneg (x - y)). lra.
Qed.

(** ‖u − v‖² = ‖u‖² + ‖v‖² − 2 u·v *)
Lemma l2_sq_expand u : forall v,
  List.length u = List.length v ->
  l2_sq u v == dot u u + dot v v - 2 * dot u v.
Proof.
  induction u as [|x u IH]; intros [|y v] Hlen; cbn [l2_sq dot];
    try discriminate; [ring|].
  rewrite IH by (simpl in Hlen; lia). ring.
Qed.

End Distances.

(** ** The search on computed distances *)

Section ComputedSearch.
Import Faiss.

Variable dist : vec -> vec -> Q.
Variable xb : list vec.
Variable q : vec.

Let ranked : list (nat * vec) :=
  sort_by (fun a b => Qle_bool (dist q (snd a)) (dist q (snd b)))
          (filter (within_reach dist q) (enumerate xb)).

Lemma within_reach_spec e :
  within_reach dist q e = true <-> dist q (snd e) < FLT_MAX.
Proof.
  unfold within_reach. rewrite Bool.negb_true_iff.
  destruct (Qle_bool FLT_MAX (dist q (snd e))) eqn:E.
  - apply Qle_bool_iff in E. split; [discriminate|].
    intros H. exfalso. apply (Qlt_not_le _ _ H E).
  - split; [intros _ | reflexivity].
    apply Qnot_le_lt. intros H. apply Qle_bool_iff in H. congruence.
Qed.

Lemma ranked_In p v :
  In (p, v) ranked <-> nth_error xb p = Some v /\ dist q v < FLT_MAX.
Proof.
  unfold ranked. rewrite sort_by_In, filter_In, enumerate_In, within_reach_spec.
  reflexivity.
Qed.

Lemma NoDup_map_filter {A B} (f : A -> B) (g : A -> bool) l :
  NoDup (map f l) -> NoDup (map f (filter g l)).
Proof.
  induction l as [|x t IH]; simpl; intros H; [constructor|].
  apply NoDup_cons_iff in H as [Hx Ht].
  destruct (g x); simpl; [|auto].
  constructor; [|auto]. intros Hin. apply Hx.
  apply in_map_iff in Hin as (y & <- & Hy). apply in_map.
  apply filter_In in Hy. tauto.
Qed.

Lemma ranked_NoDup : NoDup (map fst ranked).
Proof.
  unfold ranked.
  apply (Permutation_NoDup
           (l := map fst (filter (within_reach dist q) (enumerate xb)))).
  - apply Permutation_map, Permutation_sym, sort_by_perm.
  - apply NoDup_map_filter. rewrite enumerate_fst. apply seq_NoDup.
Qed.

Lemma filter_combine_snd (f : vec -> bool) (l : list vec) : forall s,
  List.length
    (filter (fun e : nat * vec => f (snd e)) (combine (seq s (List.length l)) l))
  = List.length (filter f l).
Proof.
  induction l as [|x t IH]; intros s; simpl; [reflexivity|].
  destruct (f x); simpl; now rewrite IH.
Qed.

Lemma ranked_length :
  List.length ranked = List.length (stored_within_reach dist xb q).
Proof.
  unfold ranked. rewrite sort_by_length.
  apply (filter_combine_snd (fun v => negb (Qle_bool FLT_MAX (dist q v)))).
Qed.

(** What a search for a positive number of neighbours returns. *)
Lemma search_computed_spec k :
  (1 <= k)%nat ->
  exists ps vs,
    search_computed dist xb q k
    = Some ((map (dist q) vs ++ repeat FLT_MAX (k - List.length ps))%list,
            (map Z.of_nat ps ++ repeat (-1)%Z (k - List.length ps))%list)
    /\ List.length ps
       = Nat.min k (List.length (stored_within_reach dist xb q))
    /\ Forall2 (fun p v => nth_error xb p = Some v) ps vs
    /\ NoDup ps
    /\ Forall (fun v => dist q v < FLT_MAX) vs
    /\ StronglySorted Qle (map (dist q) vs)
    /\ (forall p v, nth_error xb p = Some v -> dist q v < FLT_MAX ->
          ~ In p ps -> Forall (fun d => d <= dist q v) (map (dist q) vs))
    /\ (forall w, In w xb -> dist q w < FLT_MAX ->
          exists p v, nth_error ps 0 = Some p /\ nth_error vs 0 = Some v
                      /\ dist q v <= dist q w).
Proof.
  intros Hk.
  exists (map fst (firstn k ranked)), (map snd (firstn k ranked)).
  assert (Hsplit : ranked = (firstn k ranked ++ skipn k ranked)%list)
    by (symmetry; apply firstn_skipn).
  assert (Hsorted :
            StronglySorted (fun a b => dist q (snd a) <= dist q (snd b)) ranked)
    by (apply (sort_by_sorted (fun e : nat * vec => dist q (snd e)))).
  rewrite Hsplit in Hsorted.
  apply StronglySorted_app_inv in Hsorted as (Htop & _ & Hcross).
  assert (Hlen : List.length (map fst (firstn k ranked))
                 = Nat.min k (List.length (stored_within_reach dist xb q)))
    by (now rewrite length_map, length_firstn, ranked_length).
  assert (Hrest : (k - List.length (map fst (firstn k ranked))
                   = k - List.length ranked)%nat)
    by (rewrite Hlen, ranked_length; lia).
  split; [|split; [exact Hlen|split; [|split; [|split; [|split; [|split]]]]]].
  - unfold search_computed. destruct (Nat.eqb_spec k 0) as [|_]; [lia|].
    cbv zeta. fold ranked. rewrite !pad_map, Hrest, !map_map. reflexivity.
  - assert (G : forall l, (forall e, In e l -> In e ranked) ->
                Forall2 (fun p v => nth_error xb p = Some v)
                        (map fst l) (map snd l)).
    { induction l as [|[p v] t IH]; intros H; simpl; constructor.
      - apply ranked_In, H. now left.
      - apply IH. intros e He. apply H. now right. }
    apply G. intros e He. rewrite Hsplit. apply in_or_app. now left.
  - apply (NoDup_app_l _ (map fst (skipn k ranked))).
    rewrite <- map_app, <- Hsplit. apply ranked_NoDup.
  - apply Forall_forall. intros v Hv.
    apply in_map_iff in Hv as ([p v'] & <- & He).
    apply (ranked_In p v'). rewrite Hsplit. apply in_or_app. now left.
  - rewrite map_map. now apply StronglySorted_map.
  - intros p v Hp Hfin Hnot. apply Forall_forall. intros d Hd.
    rewrite map_map in Hd. apply in_map_iff in Hd as (e & <- & He).
    assert (Hin : In (p, v) ranked) by (apply ranked_In; auto).
    rewrite Hsplit in Hin. apply in_app_or in Hin as [Hin|Hin].
    + exfalso. apply Hnot. apply in_map_iff. now exists (p, v).
    + apply (Hcross e (p, v) He Hin).
  - intros w Hw Hfin. apply In_nth_error in Hw as [pw Hw].
    assert (Hin : In (pw, w) ranked) by (apply ranked_In; auto).
    destruct (firstn k ranked) as [|[p0 v0] top] eqn:Etop.
    + exfalso. destruct ranked as [|e t]; [inversion Hin|].
      destruct k; [lia | discriminate].
    + exists p0, v0. split; [reflexivity|]. split; [reflexivity|].
      rewrite Hsplit in Hin. simpl in Hin. destruct Hin as [[= <- <-] | Hin].
      * apply Qle_refl.
      * inversion Htop as [|? ? _ Hall]; subst. rewrite Forall_forall in Hall.
        apply in_app_or in Hin as [Hin|Hin].
        -- apply (Hall _ Hin).
        -- apply (Hcross (p0, v0) (pw, w)); [now left | assumption].
Qed.

End ComputedSearch.

Section ExactSearch.
Import Faiss.

(** With exact distances that all stay below the largest float, the
    search on computed distances is the search of the other sections. *)
Lemma search_computed_exact xb q k :
  Forall (fun v => l2_sq q v < FLT_MAX) xb ->
  search_computed l2_sq xb q k = index_search xb q k.
Proof.
  intros Hfin. unfold search_computed, index_search.
  destruct (k =? 0)%nat; [reflexivity|].
  assert (E : filter (within_reach l2_sq q) (enumerate xb) = enumerate xb).
  { apply forallb_filter_id. apply forallb_forall. intros [p v] Hp.
    apply within_reach_spec. simpl. apply enumerate_In in Hp.
    rewrite Forall_forall in Hfin. apply Hfin.
    eapply nth_error_In; eassumption. }
  cbv zeta. rewrite E. reflexivity.
Qed.

End ExactSearch.

(** C6, as stated, fails when [k] exceeds the number of stored vectors: a
    search for 3 neighbours in an index of 2 vectors returns 3 entries,
    not min(3, 2) = 2; the third is the filler label -1.  It also fails
    for [k] = 0, where the search raises instead of returning no
    result. *)
Lemma search_returns_more_than_stored :
  snd (Faiss.search Sample.two_embeddings [1; 0] 3) = [0; 1; -1]%Z
  /\ List.length (snd (Faiss.search Sample.two_embeddings [1; 0] 3))
     <> Nat.min 3 (List.length Sample.two_embeddings)
  /\ option_map snd (Faiss.search_computed l2_sq Sample.two_embeddings [1; 0] 3)
     = Some [0; 1; -1]%Z
  /\ Faiss.search_computed l2_sq Sample.two_embeddings [1; 0] 0 = None
  /\ Faiss.index_search Sample.two_embeddings [1; 0] 0 = None.
Proof. repeat split; try reflexivity. discriminate. Qed.

(** C6 (amended): a search for 0 neighbours raises.  A search for k >= 1
    neighbours in an index of N vectors fills exactly k slots, whatever
    floats the library computes as distances.  With M the number of
    stored vectors whose computed distance is below the largest float
    (all N of them unless a distance overflows), the first min(k, M)
    slots hold distinct stored positions in non-decreasing order of
    computed distance, and no stored vector within reach that is left out
    is nearer than one returned; the remaining slots hold the label -1
    and the largest float.  When the query is a stored vector, its
    computed distance to itself is 0 and no computed distance is
    negative, the top result is at distance 0; it is the query's own
    position when no other stored vector is at computed distance 0.  On
    exact distances below the largest float this is the search the
    notebooks are modelled with. *)
Theorem search_fills_k_slots (dist : vec -> vec -> Q)
    (xb : list vec) (q : vec) (k : nat) :
  Faiss.search_computed dist xb q 0 = None
  /\ ((1 <= k)%nat ->
      exists D I ps vs,
        Faiss.search_computed dist xb q k = Some (D, I)
        /\ List.length I = k
        /\ List.length D = k
        /\ List.length ps
           = Nat.min k (List.length (Faiss.stored_within_reach dist xb q))
        /\ Forall2 (fun p v => nth_error xb p = Some v) ps vs
        /\ NoDup ps
        /\ Forall (fun v => dist q v < Faiss.FLT_MAX) vs
        /\ I = (map Z.of_nat ps ++ repeat (-1)%Z (k - List.length ps))%list
        /\ D = (map (dist q) vs
                ++ repeat Faiss.FLT_MAX (k - List.length ps))%list
        /\ StronglySorted Qle (map (dist q) vs)
        /\ (forall p v, nth_error xb p = Some v -> dist q v < Faiss.FLT_MAX ->
              ~ In p ps -> Forall (fun d => d <= dist q v) (map (dist q) vs))
        /\ (forall i,
              nth_error xb i = Some q ->
              dist q q == 0 ->
              (forall v, In v xb -> 0 <= dist q v) ->
              exists j v,
                nth_error I 0 = Some (Z.of_nat j)
                /\ nth_error D 0 = Some (dist q v)
                /\ nth_error xb j = Some v
                /\ dist q v == 0
                /\ ((forall p w, nth_error xb p = Some w ->
                                 dist q w == 0 -> p = i)
                    -> j = i)))
  /\ (Forall (fun v => l2_sq q v < Faiss.FLT_MAX) xb ->
      Faiss.search_computed l2_sq xb q k = Faiss.index_search xb q k
      /\ ((1 <= k)%nat ->
          Faiss.index_search xb q k = Some (Faiss.search xb q k))).
Proof.
  split; [reflexivity|]. split.
  - intros Hk.
    destruct (search_computed_spec dist xb q k Hk)
      as (ps & vs & Hrun & Hlen & Hpv & Hnd & Hfin & Hsorted & Hout & Htop).
    eexists _, _, ps, vs. split; [exact Hrun|].
    assert (Hvs : List.length vs = List.length ps)
      by (symmetry; eapply Forall2_length; eassumption).
    split; [rewrite length_app, length_map, repeat_length; lia|].
    split; [rewrite length_app, length_map, repeat_length; lia|].
    do 4 (split; [assumption|]). do 2 (split; [reflexivity|]).
    do 2 (split; [assumption|]).
    intros i Hi Hself Hpos.
    assert (Hreach : dist q q < Faiss.FLT_MAX).
    { rewrite Hself. reflexivity. }
    destruct (Htop q (nth_error_In _ _ Hi) Hreach)
      as (p0 & v0 & Hp0 & Hv0 & Hle).
    destruct Hpv as [|j v ps' vs' Hj _]; [discriminate|].
    simpl in Hp0, Hv0. injection Hp0 as <-. injection Hv0 as <-.
    assert (Hzero : dist q v == 0).
    { apply Qle_antisym; [now rewrite <- Hself|].
      apply Hpos. eapply nth_error_In; eassumption. }
    exists j, v. repeat split; auto.
    intros Huniq. now apply (Huniq j v).
  - intros Hfin. split; [now apply search_computed_exact|].
    intros Hk. apply index_search_positive. lia.
Qed.

Lemma search_fills_k_slots_witness :
  (exists D I j v,
      Faiss.search_computed l2_sq Sample.unit_views [0; 1] 3 = Some (D, I)
      /\ List.length I = 3%nat
      /\ nth_error I 0 = Some (Z.of_nat j)
      /\ nth_error Sample.unit_views j = Some v
      /\ l2_sq [0; 1] v == 0
      /\ j = 1%nat)
  /\ Faiss.search_computed l2_sq Sample.unit_views [0; 1] 3
     = Faiss.index_search Sample.unit_views [0; 1] 3.
Proof.
  destruct (search_fills_k_slots l2_sq Sample.unit_views [0; 1] 3)
    as (_ & Hrun & Hexact).
  split.
  - destruct Hrun as (D & I & ps & vs & Hrun & HI & _ & _ & _ & _ & _ & _ & _
                      & _ & _ & Hself); [lia|].
    destruct (Hself 1%nat eq_refl (l2_sq_self [0; 1])
                (fun v _ => l2_sq_nonneg [0; 1] v))
      as (j & v & Hj & _ & Hv & Hzero & Hown).
    exists D, I, j, v. repeat split; auto.
    apply Hown. intros p w Hp Hw.
    do 4 (destruct p as [|p];
          [injection Hp as <-; try reflexivity; vm_compute in Hw; discriminate|]).
    destruct p; discriminate.
  - refine (proj1 (Hexact _)). repeat constructor.
Defined.

(** ** Cosine similarity *)

Section CosineRanking.
Variable norm : vec -> Q.
Hypothesis norm_unit : forall v, unit_length v -> norm v == 1.

Lemma cos_theta_unit u v :
  unit_length u -> unit_length v -> Faiss.cos_theta norm u v == dot u v.
Proof.
  intros Hu Hv. unfold Faiss.cos_theta.
  rewrite (norm_unit u Hu), (norm_unit v Hv). field.
Qed.

Lemma l2_sq_unit u v :
  List.length u = List.length v -> unit_length u -> unit_length v ->
  l2_sq u v == 2 - 2 * Faiss.cos_theta norm u v.
Proof.
  intros Hlen Hu Hv. rewrite cos_theta_unit by assumption.
  rewrite l2_sq_expand by assumption.
  unfold unit_length in Hu, Hv. rewrite Hu, Hv. ring.
Qed.

(** Nearer in squared distance is the same as larger in cosine. *)
Lemma l2_order_is_cosine_order q a b :
  unit_length q -> unit_length a -> unit_length b ->
  List.length a = List.length q -> List.length b = List.length q ->
  Qle_bool (l2_sq q a) (l2_sq q b)
  = Qle_bool (Faiss.cos_theta norm q b) (Faiss.cos_theta norm q a).
Proof.
  intros Hq Ha Hb La Lb. apply eq_true_iff_eq. rewrite !Qle_bool_iff.
  rewrite (l2_sq_unit q a), (l2_sq_unit q b) by auto.
  split; intros H; lra.
Qed.

Lemma search_is_search_cosine xb q k :
  unit_length q -> Forall unit_length xb ->
  Forall (fun v => List.length v = List.length q) xb ->
  snd (Faiss.search xb q k) = Faiss.search_cosine norm xb q k.
Proof.
  intros Hq Hunit Hdim. unfold Faiss.search, Faiss.search_cosine, Faiss.rank_by.
  cbn [snd]. do 2 f_equal. apply sort_by_ext.
  rewrite Forall_forall in Hunit, Hdim.
  intros [pa a] [pb b] Ha Hb. cbn [snd].
  apply enumerate_In in Ha, Hb.
  apply nth_error_In in Ha, Hb.
  apply l2_order_is_cosine_order; auto.
Qed.

End CosineRanking.

(** C7: for unit vectors [u] and [v] of one dimension the squared Euclidean
    distance is 2 - 2 cos θ; hence a stored vector is at most as far from
    the query as another exactly when its cosine is at least as large, and
    over an index of unit vectors a search by ascending squared Euclidean
    distance returns, for every unit query and every k, the same labels in
    the same order as the search by descending cosine similarity.
    Arithmetic is exact: [norm] returns 1 on a unit vector. *)
Theorem l2_ranking_is_cosine_ranking (norm : vec -> Q) :
  (forall v, unit_length v -> norm v == 1) ->
  (forall u v,
      List.length u = List.length v -> unit_length u -> unit_length v ->
      l2_sq u v == 2 - 2 * Faiss.cos_theta norm u v)
  /\ (forall q a b,
         unit_length q -> unit_length a -> unit_length b ->
         List.length a = List.length q -> List.length b = List.length q ->
         (l2_sq q a <= l2_sq q b
          <-> Faiss.cos_theta norm q b <= Faiss.cos_theta norm q a))
  /\ (forall xb q k,
         unit_length q -> Forall unit_length xb ->
         Forall (fun v => List.length v = List.length q) xb ->
         snd (Faiss.search xb q k) = Faiss.search_cosine norm xb q k).
Proof.
  intros Hnorm. split; [|split].
  - intros u v. now apply l2_sq_unit.
  - intros q a b Hq Ha Hb La Lb.
    rewrite <- !Qle_bool_iff.
    now rewrite (l2_order_is_cosine_order norm Hnorm q a b).
  - intros xb q k. now apply search_is_search_cosine.
Qed.

Lemma l2_ranking_is_cosine_ranking_witness :
  l2_sq [3#5; 4#5] [0; 1] == 2 - 2 * Faiss.cos_theta norm_rat [3#5; 4#5] [0; 1]
  /\ (l2_sq [3#5; 4#5] [0; 1] <= l2_sq [3#5; 4#5] [1; 0]
      <-> Faiss.cos_theta norm_rat [3#5; 4#5] [1; 0]
          <= Faiss.cos_theta norm_rat [3#5; 4#5] [0; 1])
  /\ snd (Faiss.search Sample.unit_views [3#5; 4#5] 3)
     = Faiss.search_cosine norm_rat Sample.unit_views [3#5; 4#5] 3.
Proof.
  destruct (l2_ranking_is_cosine_ranking norm_rat norm_rat_unit)
    as (Hd & Ho & Hs).
  split; [|split].
  - apply Hd; reflexivity.
  - apply Ho; reflexivity.
  - apply Hs; repeat constructor.
Defined.

(** ** Positional access *)

Section Positional.
Context {A : Type}.

Lemma getitem_nat (l : list A) p : getitem l (Z.of_nat p) = nth_error l p.
Proof.
  unfold getitem.
  destruct (0 <=? Z.of_nat p)%Z eqn:E; [now rewrite Nat2Z.id|].
  apply Z.leb_gt in E. lia.
Qed.

(** Position -1 is the last row. *)
Lemma getitem_minus_one (l : list A) x :
  getitem (l ++ [x]) (-1) = Some x.
Proof.
  unfold getitem. rewrite length_app. simpl.
  destruct (- Z.of_nat (List.length l + 1) <=? -1)%Z eqn:E;
    [|apply Z.leb_gt in E; lia].
  replace (Z.to_nat (Z.of_nat (List.length l + 1) + -1)) with (List.length l) by lia.
  rewrite nth_error_app2 by lia. now rewrite Nat.sub_diag.
Qed.

Lemma getitem_minus_one_empty : getitem (@nil A) (-1) = None.
Proof. reflexivity. Qed.

Lemma mapM_app {B} (f : A -> option B) l1 l2 ys1 ys2 :
  mapM f l1 = Some ys1 -> mapM f l2 = Some ys2 ->
  mapM f (l1 ++ l2) = Some (ys1 ++ ys2)%list.
Proof.
  rewrite !mapM_Forall2. apply Forall2_app.
Qed.

Lemma take_positions (l : list A) ps rows :
  Forall2 (fun p r => nth_error l p = Some r) ps rows ->
  take l (map Z.of_nat ps) = Some rows.
Proof.
  intros H. unfold take. apply mapM_Forall2.
  induction H as [|p r ps' rows' Hp _ IH]; simpl; constructor; auto.
  now rewrite getitem_nat.
Qed.

Lemma take_fillers (l : list A) x n :
  take (l ++ [x]) (repeat (-1)%Z n) = Some (repeat x n).
Proof.
  unfold take. apply mapM_Forall2.
  induction n as [|n IH]; simpl; constructor; auto.
  apply getitem_minus_one.
Qed.

Lemma Forall2_tl {B} (R : A -> B -> Prop) l l' :
  Forall2 R l l' -> Forall2 R (tl l) (tl l').
Proof. destruct 1; simpl; [constructor | assumption]. Qed.

Lemma map_nth_seq (l : list A) d : forall s,
  map (fun p => nth (p - s) l d) (seq s (List.length l)) = l.
Proof.
  induction l as [|x t IH]; intros s; simpl; [reflexivity|].
  rewrite Nat.sub_diag. f_equal.
  rewrite <- (IH (S s)) at 2. apply map_ext_in.
  intros p Hp. apply in_seq in Hp.
  replace (p - s)%nat with (S (p - S s)) by lia. reflexivity.
Qed.

(** Rows fetched at a rearrangement of all positions are a rearrangement
    of the table. *)
Lemma rows_of_all_positions (l : list A) ps rows :
  Forall2 (fun p r => nth_error l p = Some r) ps rows ->
  Permutation ps (seq 0 (List.length l)) ->
  Permutation rows l.
Proof.
  intros H Hperm. destruct l as [|d t].
  - simpl in Hperm. apply Permutation_sym, Permutation_nil in Hperm. subst ps.
    inversion H. constructor.
  - assert (E : rows = map (fun p => nth (p - 0) (d :: t) d) ps).
    { clear Hperm. induction H as [|p r ps' rows' Hp _ IH]; cbn [map];
        [reflexivity|].
      rewrite <- IH. f_equal. rewrite Nat.sub_0_r. symmetry.
      now apply nth_error_nth. }
    rewrite E.
    eapply Permutation_trans; [apply Permutation_map, Hperm|].
    rewrite (map_nth_seq (d :: t) d 0). reflexivity.
Qed.

End Positional.

(** ** Searching for more neighbours than are stored *)

Section Padding.
Import Faiss.

(** With [k] above the number of stored vectors a search returns every
    position once, then fillers. *)
Lemma search_beyond_size xb q k :
  (List.length xb <= k)%nat ->
  exists ps,
    snd (search xb q k)
    = (map Z.of_nat ps ++ repeat (-1)%Z (k - List.length xb))%list
    /\ Permutation ps (seq 0 (List.length xb)).
Proof.
  intros Hk.
  destruct (search_spec xb q k)
    as (ps & vs & Hlen & Hpv & Hnd & HI & _).
  exists ps. split; [assumption|].
  apply NoDup_Permutation_bis; [assumption | rewrite length_seq; lia|].
  intros p Hp. apply in_seq. split; [lia|]. simpl.
  destruct (Forall2_In_l _ _ _ _ Hpv Hp) as (v & _ & Hv).
  apply nth_error_Some. congruence.
Qed.

(** The shared pattern [table.iloc[I[0]]] after such a search: no error,
    the whole table once, then the last row repeated. *)
Lemma take_search_beyond_size {A} (init : list A) (last_row : A) xb q k :
  List.length (init ++ [last_row]) = List.length xb ->
  (List.length xb <= k)%nat ->
  exists ps rows,
    snd (search xb q k)
    = (map Z.of_nat ps ++ repeat (-1)%Z (k - List.length xb))%list
    /\ Permutation ps (seq 0 (List.length xb))
    /\ Forall2 (fun p r => nth_error (init ++ [last_row]) p = Some r) ps rows
    /\ Permutation rows (init ++ [last_row])
    /\ take (init ++ [last_row]) (snd (search xb q k))
       = Some (rows ++ repeat last_row (k - List.length xb))%list.
Proof.
  intros Hlen Hk.
  destruct (search_beyond_size xb q k Hk) as (ps & HI & Hperm).
  assert (Hrows : exists rows,
             Forall2 (fun p r => nth_error (init ++ [last_row]) p = Some r) ps rows).
  { destruct (mapM_total (nth_error (init ++ [last_row])) ps) as [rows Hr].
    - intros p Hp. apply (Permutation_in _ Hperm) in Hp. apply in_seq in Hp.
      destruct (nth_error (init ++ [last_row]) p) eqn:E; [eauto|].
      apply nth_error_None in E. lia.
    - exists rows. now apply mapM_Forall2. }
  destruct Hrows as [rows Hrows].
  exists ps, rows. repeat split; auto.
  - eapply rows_of_all_positions; [eassumption|]. now rewrite Hlen.
  - rewrite HI. apply mapM_app.
    + now apply take_positions.
    + apply take_fillers.
Qed.

End Padding.

(** ** Tables *)

Section Tables.

Lemma non_empty_last {A} (l : list A) :
  l <> [] -> exists init x, l = (init ++ [x])%list.
Proof.
  intros H. destruct (exists_last H) as (init & x & E). eauto.
Qed.

Lemma evaluation_build_rows_index aug files : forall i,
  map Evaluation.embedding_index (Evaluation.build_rows aug files i)
  = seq i (List.length files).
Proof.
  induction files as [|f t IH]; intros i; simpl; [reflexivity|].
  now rewrite IH.
Qed.

Lemma evaluation_build_df_length aug files :
  List.length (Evaluation.build_df aug files) = List.length files.
Proof.
  unfold Evaluation.build_df.
  rewrite <- (length_map Evaluation.embedding_index).
  now rewrite evaluation_build_rows_index, length_seq.
Qed.

Lemma evaluation_build_df_indexed aug files :
  Evaluation.well_indexed (Evaluation.build_df aug files).
Proof.
  unfold Evaluation.well_indexed. rewrite evaluation_build_df_length.
  apply evaluation_build_rows_index.
Qed.

Lemma comparison_build_rows_index files : forall i,
  map Comparison.embedding_index (Comparison.build_rows files i)
  = seq i (List.length files).
Proof.
  induction files as [|f t IH]; intros i; simpl; [reflexivity|].
  now rewrite IH.
Qed.

Lemma comparison_build_rows_files files : forall i,
  map Comparison.image_file (Comparison.build_rows files i) = files.
Proof.
  induction files as [|f t IH]; intros i; simpl; [reflexivity|].
  now rewrite IH.
Qed.

Lemma comparison_build_rows_sets files : forall i,
  map Comparison.match_set (Comparison.build_rows files i)
  = map get_match_set files.
Proof.
  induction files as [|f t IH]; intros i; simpl; [reflexivity|].
  now rewrite IH.
Qed.

Lemma comparison_build_df_length files :
  List.length (Comparison.build_df files) = List.length files.
Proof.
  unfold Comparison.build_df.
  rewrite <- (length_map Comparison.embedding_index).
  now rewrite comparison_build_rows_index, length_seq.
Qed.

Lemma comparison_build_df_indexed files :
  Comparison.well_indexed (Comparison.build_df files).
Proof.
  unfold Comparison.well_indexed. rewrite comparison_build_df_length.
  apply comparison_build_rows_index.
Qed.

(** The first row that passes a filter, in a table whose rows carry their
    positions. *)
Lemma first_hit_position {R} (index : R -> nat) (test : R -> bool) df idx rest :
  map index df = seq 0 (List.length df) ->
  map index (filter test df) = idx :: rest ->
  exists r, nth_error df idx = Some r /\ test r = true /\ index r = idx.
Proof.
  intros Hwi Hq.
  assert (Hin : In idx (map index (filter test df))) by (rewrite Hq; now left).
  apply in_map_iff in Hin as (r & Hr & Hf). apply filter_In in Hf as [Hin Ht].
  apply In_nth_error in Hin as [p Hp].
  assert (Hidx : nth_error (map index df) p = Some (index r))
    by (rewrite nth_error_map, Hp; reflexivity).
  rewrite Hwi in Hidx.
  assert (Hlt : (p < List.length df)%nat) by (apply nth_error_Some; congruence).
  rewrite (nth_error_nth' _ 0%nat) in Hidx by (rewrite length_seq; assumption).
  rewrite seq_nth in Hidx by assumption. simpl in Hidx.
  injection Hidx as Hidx. exists r. subst. auto.
Qed.

Lemma has_embedding_false df q :
  Evaluation.has_embedding df q = false <-> Evaluation.query_indices df q = [].
Proof.
  unfold Evaluation.has_embedding, Evaluation.query_indices.
  induction df as [|r t IH]; simpl; [tauto|].
  destruct (String.eqb (Evaluation.original_image r) q); simpl.
  - split; discriminate.
  - exact IH.
Qed.

Lemma has_embedding_true df q :
  Evaluation.has_embedding df q = true <->
  exists idx rest, Evaluation.query_indices df q = idx :: rest.
Proof.
  destruct (Evaluation.has_embedding df q) eqn:E.
  - split; [intros _ | reflexivity].
    destruct (Evaluation.query_indices df q) as [|idx rest] eqn:Hq; [|eauto].
    apply has_embedding_false in Hq. congruence.
  - apply has_embedding_false in E. rewrite E.
    split; [discriminate | intros (? & ? & ?); discriminate].
Qed.

End Tables.

(** ** Retrieval in the evaluation notebook *)

Section EvaluationRetrieval.
Import Evaluation.

(** [table.iloc[I[0]]] never raises on a non-empty table that is
    co-indexed with the index. *)
Lemma take_search {A} (init : list A) (last_row : A) xb q k :
  List.length (init ++ [last_row]) = List.length xb ->
  exists ps rows,
    List.length ps = Nat.min k (List.length xb)
    /\ NoDup ps
    /\ Forall2 (fun p r => nth_error (init ++ [last_row]) p = Some r) ps rows
    /\ snd (Faiss.search xb q k)
       = (map Z.of_nat ps ++ repeat (-1)%Z (k - List.length xb))%list
    /\ take (init ++ [last_row]) (snd (Faiss.search xb q k))
       = Some (rows ++ repeat last_row (k - List.length xb))%list.
Proof.
  intros Hlen.
  destruct (search_spec xb q k) as (ps & vs & Hps & Hpv & Hnd & HI & _).
  destruct (mapM_total (nth_error (init ++ [last_row])) ps) as [rows Hr].
  { intros p Hp. destruct (Forall2_In_l _ _ _ _ Hpv Hp) as (v & _ & Hv).
    destruct (nth_error (init ++ [last_row]) p) eqn:E; [eauto|].
    apply nth_error_None in E.
    assert (p < List.length xb)%nat by (apply nth_error_Some; congruence).
    lia. }
  apply mapM_Forall2 in Hr.
  exists ps, rows. repeat split; auto.
  rewrite HI. apply mapM_app; [now apply take_positions | apply take_fillers].
Qed.

Variable augmented_df : list (string * string).
Variable image_files : list string.
Variable embeddings : list vec.
Hypothesis co_indexed : List.length image_files = List.length embeddings.

Let df := build_df augmented_df image_files.

Lemma df_length : List.length df = List.length embeddings.
Proof. unfold df. now rewrite evaluation_build_df_length. Qed.

Lemma query_row q idx rest :
  query_indices df q = idx :: rest ->
  exists r qe, nth_error df idx = Some r
               /\ original_image r = q
               /\ nth_error embeddings idx = Some qe.
Proof.
  intros Hq. unfold query_indices in Hq.
  destruct (first_hit_position embedding_index _ df idx rest
              (evaluation_build_df_indexed _ _) Hq) as (r & Hr & Ht & _).
  apply String.eqb_eq in Ht.
  assert (Hlt : (idx < List.length embeddings)%nat).
  { rewrite <- df_length. apply nth_error_Some. congruence. }
  destruct (nth_error embeddings idx) as [qe|] eqn:E.
  - now exists r, qe.
  - apply nth_error_None in E. lia.
Qed.

(** One iteration of the loop: a query without embedding prints and adds
    no row; any other query adds exactly one row, which does not depend
    on the rows collected before. *)
Lemma evaluate_query_spec q :
  (has_embedding df q = false /\
   forall st, evaluate_query df embeddings st q
              = Some (mkState (stdout st ++ [no_embeddings_msg q])
                              (evaluation_results st)))
  \/ (has_embedding df q = true /\
      exists row, queried_image row = q /\
        forall st, evaluate_query df embeddings st q
                   = Some (mkState (stdout st) (evaluation_results st ++ [row]))).
Proof.
  destruct (has_embedding df q) eqn:Hhas; [right | left]; split; auto.
  - apply has_embedding_true in Hhas as (idx & rest & Hq).
    destruct (query_row q idx rest Hq) as (r & qe & Hr & _ & Hqe).
    assert (Hne : df <> []) by (intros E; rewrite E in Hr; destruct idx; discriminate).
    destruct (non_empty_last df Hne) as (init & last_row & Edf).
    destruct (take_search init last_row embeddings qe 10)
      as (ps & rows & _ & _ & _ & _ & Htake).
    { rewrite <- Edf. apply df_length. }
    rewrite <- Edf in Htake.
    destruct (evaluate_retrieval df q
                (rows ++ repeat last_row (10 - List.length embeddings)))
      as [[found total] acc] eqn:Hev.
    exists (mkResult q found total acc). split; [reflexivity|].
    intros st. unfold evaluate_query. rewrite Hq, Hqe, Htake, Hev. reflexivity.
  - intros st. unfold evaluate_query.
    apply has_embedding_false in Hhas. now rewrite Hhas.
Qed.

(** The loop never aborts. *)
Lemma evaluation_loop_spec queries : forall st,
  exists rows,
    evaluation_loop df embeddings queries st
    = Some (mkState
              (stdout st ++ map no_embeddings_msg
                 (filter (fun q => negb (has_embedding df q)) queries))
              (evaluation_results st ++ rows))
    /\ Forall2 (fun q row =>
                  queried_image row = q
                  /\ evaluate_query df embeddings (mkState [] []) q
                     = Some (mkState [] [row]))
               (filter (has_embedding df) queries) rows.
Proof.
  induction queries as [|q rest IH]; intros st; simpl.
  - exists []. rewrite !app_nil_r. destruct st. split; [reflexivity | constructor].
  - destruct (evaluate_query_spec q) as [[Hhas Hev] | [Hhas (row & Hrow & Hev)]];
      rewrite Hhas, Hev; simpl.
    + destruct (IH (mkState (stdout st ++ [no_embeddings_msg q])
                            (evaluation_results st))) as (rows & -> & Hrows).
      exists rows. simpl. rewrite <- app_assoc. simpl. auto.
    + destruct (IH (mkState (stdout st) (evaluation_results st ++ [row])))
        as (rows & -> & Hrows).
      exists (row :: rows). simpl. rewrite <- app_assoc. simpl.
      split; [reflexivity|]. constructor; [|assumption].
      split; [assumption|]. apply (Hev (mkState [] [])).
Qed.

End EvaluationRetrieval.

(** C8: whatever the list of query identifiers, the loop of step 11 runs to
    its end.  A query with no embedding leaves one line on the output and
    no row; every other query, before or after it, is evaluated and
    contributes exactly one row, in order, the row a run on that query
    alone produces. *)
Theorem evaluation_loop_skips_missing
    (augmented_df : list (string * string)) (image_files : list string)
    (embeddings : list vec) (queries : list string) :
  List.length image_files = List.length embeddings ->
  exists rows,
    Evaluation.evaluation_loop (Evaluation.build_df augmented_df image_files)
      embeddings queries (Evaluation.mkState [] [])
    = Some (Evaluation.mkState
              (map Evaluation.no_embeddings_msg
                 (filter (fun q =>
                            negb (Evaluation.has_embedding
                                    (Evaluation.build_df augmented_df image_files) q))
                         queries))
              rows)
    /\ map Evaluation.queried_image rows
       = filter (Evaluation.has_embedding
                   (Evaluation.build_df augmented_df image_files)) queries
    /\ Forall2 (fun q row =>
                  Evaluation.evaluate_query
                    (Evaluation.build_df augmented_df image_files) embeddings
                    (Evaluation.mkState [] []) q
                  = Some (Evaluation.mkState [] [row]))
               (filter (Evaluation.has_embedding
                          (Evaluation.build_df augmented_df image_files))
                       queries) rows.
Proof.
  intros Hlen.
  destruct (evaluation_loop_spec augmented_df image_files embeddings Hlen
              queries (Evaluation.mkState [] [])) as (rows & Hrun & Hrows).
  exists rows. split; [exact Hrun|]. split.
  - clear Hrun.
    remember (filter (Evaluation.has_embedding
                        (Evaluation.build_df augmented_df image_files))
                     queries) as qs.
    clear Heqqs. induction Hrows as [|q row qs' rows' [Hq _] _ IH]; simpl;
      [reflexivity | now rewrite Hq, IH].
  - eapply Forall2_impl; [|exact Hrows]. now intros q row [_ H].
Qed.

Lemma evaluation_loop_skips_missing_witness :
  exists rows,
    Evaluation.evaluation_loop (Evaluation.build_df [] Sample.two_files)
      Sample.two_embeddings ["100_01.jpg"; "999_99.jpg"; "100_02.jpg"]
      (Evaluation.mkState [] [])
    = Some (Evaluation.mkState
              (map Evaluation.no_embeddings_msg
                 (filter (fun q =>
                            negb (Evaluation.has_embedding
                                    (Evaluation.build_df [] Sample.two_files) q))
                         ["100_01.jpg"; "999_99.jpg"; "100_02.jpg"]))
              rows)
    /\ map Evaluation.queried_image rows
       = filter (Evaluation.has_embedding
                   (Evaluation.build_df [] Sample.two_files))
           ["100_01.jpg"; "999_99.jpg"; "100_02.jpg"]
    /\ Forall2 (fun q row =>
                  Evaluation.evaluate_query
                    (Evaluation.build_df [] Sample.two_files)
                    Sample.two_embeddings (Evaluation.mkState [] []) q
                  = Some (Evaluation.mkState [] [row]))
               (filter (Evaluation.has_embedding
                          (Evaluation.build_df [] Sample.two_files))
                       ["100_01.jpg"; "999_99.jpg"; "100_02.jpg"]) rows.
Proof.
  apply (evaluation_loop_skips_missing [] Sample.two_files Sample.two_embeddings
           ["100_01.jpg"; "999_99.jpg"; "100_02.jpg"]).
  reflexivity.
Defined.

(** ** Counting *)

Section CountingFacts.
Import Counting.
Context {A : Type}.

Lemma count_positions_one (Q : nat -> bool) idx s :
  NoDup s -> In idx s -> Q idx = true ->
  List.length (filter Q s)
  = S (List.length (filter (fun p => negb (p =? idx)%nat && Q p) s)).
Proof.
  induction s as [|x t IH]; intros Hnd Hin HQ; [inversion Hin|].
  inversion Hnd as [|? ? Hx Ht]; subst. simpl.
  destruct Hin as [-> | Hin].
  - rewrite HQ, Nat.eqb_refl. simpl. f_equal. f_equal.
    apply filter_ext_in. intros p Hp.
    destruct (Nat.eqb_spec p idx) as [-> | _]; [contradiction | reflexivity].
  - destruct (Nat.eqb_spec x idx) as [-> | _]; [contradiction|]. simpl.
    destruct (Q x); simpl; rewrite IH; auto.
Qed.

Lemma filter_positions (P : A -> bool) (l : list A) : forall s,
  List.length (filter P l)
  = List.length
      (filter (fun p => match nth_error l (p - s) with
                        | Some x => P x
                        | None => false
                        end)
              (seq s (List.length l))).
Proof.
  induction l as [|x t IH]; intros s; simpl; [reflexivity|].
  rewrite Nat.sub_diag. simpl.
  assert (E : filter (fun p => match nth_error (x :: t) (p - s) with
                               | Some y => P y
                               | None => false
                               end) (seq (S s) (List.length t))
              = filter (fun p => match nth_error t (p - S s) with
                                 | Some y => P y
                                 | None => false
                                 end) (seq (S s) (List.length t))).
  { apply filter_ext_in. intros p Hp. apply in_seq in Hp.
    replace (p - s)%nat with (S (p - S s)) by lia. reflexivity. }
  rewrite E. destruct (P x); simpl; now rewrite (IH (S s)).
Qed.

(** Counting all entries counts the entry at [idx] once and the others. *)
Lemma count_is_one_plus_others (P : A -> bool) l idx x :
  nth_error l idx = Some x -> P x = true ->
  count P l = S (count_others P l idx).
Proof.
  intros Hidx HP. unfold count, count_others.
  rewrite (filter_positions P l 0).
  rewrite (count_positions_one
             (fun p => match nth_error l (p - 0) with
                       | Some y => P y
                       | None => false
                       end) idx).
  - f_equal. f_equal. apply filter_ext. intros p.
    now rewrite Nat.sub_0_r.
  - apply seq_NoDup.
  - apply in_seq. split; [lia|]. simpl. apply nth_error_Some. congruence.
  - now rewrite Nat.sub_0_r, Hidx.
Qed.

Lemma count_map {B} (f : A -> B) (P : B -> bool) l :
  count P (map f l) = count (fun x => P (f x)) l.
Proof.
  unfold count. induction l as [|x t IH]; simpl; [reflexivity|].
  destruct (P (f x)); simpl; now rewrite IH.
Qed.

End CountingFacts.

(** ** Retrieval in the comparison notebook *)

Section ComparisonRetrieval.
Import Comparison Counting.

Lemma getitem_map {A B} (f : A -> B) l i :
  getitem (map f l) i = option_map f (getitem l i).
Proof.
  unfold getitem. rewrite length_map.
  destruct (0 <=? i)%Z; [apply nth_error_map|].
  destruct (- Z.of_nat (List.length l) <=? i)%Z;
    [apply nth_error_map | reflexivity].
Qed.

Lemma take_map {A B} (f : A -> B) l idxs :
  take (map f l) idxs = option_map (map f) (take l idxs).
Proof.
  unfold take. induction idxs as [|i t IH]; simpl; [reflexivity|].
  rewrite getitem_map. destruct (getitem l i) as [x|]; simpl; [|reflexivity].
  rewrite IH. now destruct (mapM (getitem l) t).
Qed.

Lemma getitem_In {A} (l : list A) i x : getitem l i = Some x -> In x l.
Proof.
  unfold getitem.
  destruct (0 <=? i)%Z; [apply nth_error_In|].
  destruct (- Z.of_nat (List.length l) <=? i)%Z;
    [apply nth_error_In | discriminate].
Qed.

Lemma take_In {A} (l : list A) idxs rows :
  take l idxs = Some rows -> forall x, In x rows -> In x l.
Proof.
  unfold take. rewrite mapM_Forall2. intros H x Hx.
  induction H as [|i r idxs' rows' Hi _ IH]; [inversion Hx|].
  destruct Hx as [<- | Hx]; [eapply getitem_In; eassumption | now apply IH].
Qed.

Lemma take_tl {A} (l : list A) idxs rows :
  take l idxs = Some rows -> take l (tl idxs) = Some (tl rows).
Proof.
  unfold take. rewrite !mapM_Forall2. apply Forall2_tl.
Qed.

Lemma build_rows_match_set files : forall i r,
  In r (build_rows files i) -> match_set r = get_match_set (image_file r).
Proof.
  induction files as [|f t IH]; intros i r; simpl; [tauto|].
  intros [<- | H]; [reflexivity | eapply IH; eassumption].
Qed.

Lemma same_set_count q rows :
  (forall r, In r rows -> match_set r = get_match_set (image_file r)) ->
  List.length (filter (same_set (get_match_set q)) rows)
  = count (shares_match_set q) (map image_file rows).
Proof.
  intros H. rewrite count_map. unfold count. f_equal.
  apply filter_ext_in. intros r Hr.
  unfold same_set, shares_match_set. now rewrite (H r Hr).
Qed.

Variable model : string.
Variable embeddings : list vec.
Variable image_files : list string.
Hypothesis co_indexed : List.length image_files = List.length embeddings.

Let df := build_df image_files.

Lemma df_files : map image_file df = image_files.
Proof. apply comparison_build_rows_files. Qed.

(** What [retrieve_images_for_model] computes for a query that is in the
    table. *)
Lemma retrieve_images_for_model_spec q top_k :
  In q image_files ->
  exists idx qe r,
    nth_error image_files idx = Some q
    /\ nth_error embeddings idx = Some qe
    /\ retrieve_images_for_model model embeddings image_files q top_k
       = Some (inr r)
    /\ take image_files
         (drop_first (snd (Faiss.search embeddings qe (top_k + 1))))
       = Some (retrieved_images r)
    /\ num_matches_found r
       = count (shares_match_set q) (retrieved_images r)
    /\ total_available_matches r
       = Z.of_nat (count_others (shares_match_set q) image_files idx)
    /\ match_accuracy r
       = (if (0 <? total_available_matches r)%Z
          then inject_Z (Z.of_nat (num_matches_found r))
               / inject_Z (total_available_matches r)
          else 0).
Proof.
  intros Hq.
  (* the query has a row *)
  destruct (map embedding_index
              (filter (fun r => String.eqb (image_file r) q) df))
    as [|idx rest] eqn:Hidx.
  { exfalso. rewrite <- df_files in Hq.
    apply in_map_iff in Hq as (r & Hr & Hin).
    assert (Hf : In r (filter (fun r => String.eqb (image_file r) q) df)).
    { apply filter_In. split; [assumption|]. now apply String.eqb_eq. }
    apply (in_map embedding_index) in Hf. rewrite Hidx in Hf. inversion Hf. }
  destruct (first_hit_position embedding_index _ df idx rest
              (comparison_build_df_indexed _) Hidx) as (r0 & Hr0 & Ht & _).
  apply String.eqb_eq in Ht.
  assert (Hfile : nth_error image_files idx = Some q).
  { rewrite <- df_files, nth_error_map, Hr0. simpl. now rewrite Ht. }
  assert (Hlt : (idx < List.length embeddings)%nat).
  { rewrite <- co_indexed. apply nth_error_Some. congruence. }
  destruct (nth_error embeddings idx) as [qe|] eqn:Hqe;
    [|apply nth_error_None in Hqe; lia].
  (* the rows of the search *)
  assert (Hne : df <> []) by (intros E; rewrite E in Hr0; destruct idx; discriminate).
  destruct (non_empty_last df Hne) as (init & last_row & Edf).
  destruct (take_search init last_row embeddings qe (top_k + 1))
    as (ps & rows & _ & _ & _ & _ & Htake).
  { rewrite <- Edf. unfold df. rewrite comparison_build_df_length.
    exact co_indexed. }
  rewrite <- Edf in Htake. apply take_tl in Htake.
  set (retrieved_df := tl (rows ++ repeat last_row (top_k + 1 - List.length embeddings))) in *.
  assert (Hnames : take image_files
                     (drop_first (snd (Faiss.search embeddings qe (top_k + 1))))
                   = Some (map image_file retrieved_df)).
  { rewrite <- df_files, take_map. unfold drop_first. now rewrite Htake. }
  assert (Hsets : forall r, In r retrieved_df ->
                            match_set r = get_match_set (image_file r)).
  { intros r Hr. apply (build_rows_match_set image_files 0).
    eapply take_In; eassumption. }
  assert (Hqset : match_set r0 = get_match_set q).
  { rewrite <- Ht. apply (build_rows_match_set image_files 0).
    eapply nth_error_In; eassumption. }
  eexists idx, qe, _. split; [exact Hfile|]. split; [exact Hqe|].
  split.
  { unfold retrieve_images_for_model. fold df. rewrite Hidx, Hqe, Hnames.
    unfold drop_first in *. rewrite Htake, Hr0. reflexivity. }
  cbn [retrieved_images num_matches_found total_available_matches match_accuracy].
  split; [exact Hnames|]. rewrite Hqset.
  split; [now apply same_set_count|].
  split; [|reflexivity].
  rewrite same_set_count by (apply (build_rows_match_set image_files 0)).
  rewrite df_files.
  rewrite (count_is_one_plus_others (shares_match_set q) image_files idx q Hfile).
  - lia.
  - unfold shares_match_set. apply String.eqb_refl.
Qed.

End ComparisonRetrieval.

(** ** Match counts in the evaluation notebook *)

Section EvaluationCounts.
Import Evaluation Counting.

Lemma startswith_split_first c s : startswith s (split_first c s) = true.
Proof.
  unfold startswith. induction s as [|a s IH]; simpl; [reflexivity|].
  destruct (Ascii.eqb a c); simpl; [reflexivity|].
  destruct (ascii_dec a a); [assumption | congruence].
Qed.

Lemma filter_filter {A} (f g : A -> bool) l :
  filter f (filter g l) = filter (fun x => g x && f x) l.
Proof.
  induction l as [|x t IH]; simpl; [reflexivity|].
  destruct (g x); simpl; [destruct (f x)|]; now rewrite IH.
Qed.

(** Without prefix collisions the row filter of [evaluate_retrieval] is
    equality of group-ids. *)
Lemma counts_as_match_shares q rows :
  prefix_free q rows ->
  forall r, In r rows -> counts_as_match q r = shares_group q r.
Proof.
  intros Hfree r Hr. unfold counts_as_match, shares_group.
  fold (group_id q). f_equal.
  destruct (startswith (original_image r) (group_id q)) eqn:Hs.
  - symmetry. apply String.eqb_eq. now apply Hfree.
  - symmetry. apply String.eqb_neq. intros E.
    rewrite <- E in Hs. unfold group_id in Hs.
    now rewrite startswith_split_first in Hs.
Qed.

Lemma evaluate_retrieval_counts df q retrieved :
  evaluate_retrieval df q retrieved
  = (count (counts_as_match q) retrieved,
     count (counts_as_match q) df,
     if (0 <? count (counts_as_match q) df)%nat
     then inject_Z (Z.of_nat (count (counts_as_match q) retrieved))
          / inject_Z (Z.of_nat (count (counts_as_match q) df))
     else 0).
Proof.
  unfold evaluate_retrieval, count. cbv zeta.
  now rewrite filter_filter.
Qed.

Lemma evaluate_retrieval_shares df q retrieved :
  prefix_free q df -> prefix_free q retrieved ->
  fst (fst (evaluate_retrieval df q retrieved)) = count (shares_group q) retrieved
  /\ snd (fst (evaluate_retrieval df q retrieved)) = count (shares_group q) df.
Proof.
  intros Hdf Hret. rewrite evaluate_retrieval_counts. simpl. unfold count.
  split; f_equal; apply filter_ext_in; now apply counts_as_match_shares.
Qed.

(** A quotient of counts lies in [0, 1] when the numerator does not
    exceed the denominator. *)
Lemma ratio_in_unit_interval (found total : nat) :
  (found <= total)%nat -> (0 < total)%nat ->
  0 <= inject_Z (Z.of_nat found) / inject_Z (Z.of_nat total) <= 1.
Proof.
  intros Hle Hpos.
  assert (Ht : 0 < inject_Z (Z.of_nat total)).
  { change 0 with (inject_Z 0). rewrite <- Zlt_Qlt. lia. }
  split.
  - apply Qle_shift_div_l; [assumption|]. rewrite Qmult_0_l.
    change 0 with (inject_Z 0). rewrite <- Zle_Qle. lia.
  - apply Qle_shift_div_r; [assumption|]. rewrite Qmult_1_l.
    rewrite <- Zle_Qle. lia.
Qed.

(** Rows fetched at distinct positions of a table cannot satisfy a test
    more often than the table does. *)
Lemma count_distinct_rows {A} (P : A -> bool) (l : list A) ps rows :
  NoDup ps ->
  Forall2 (fun p r => nth_error l p = Some r) ps rows ->
  (count P rows <= count P l)%nat.
Proof.
  intros Hnd Hrows. unfold count.
  set (Q := fun p => match nth_error l (p - 0) with
                     | Some x => P x
                     | None => false
                     end).
  assert (E : List.length (filter P rows) = List.length (filter Q ps)).
  { clear Hnd. induction Hrows as [|p r ps' rows' Hp _ IH]; simpl; [reflexivity|].
    unfold Q at 1. rewrite Nat.sub_0_r, Hp.
    destruct (P r); simpl; now rewrite IH. }
  rewrite E, (filter_positions P l 0). fold Q.
  apply NoDup_incl_length; [now apply NoDup_filter|].
  intros p Hp. apply filter_In in Hp as [Hp HQ]. apply filter_In. split; [|assumption].
  apply in_seq. split; [lia|]. simpl.
  destruct (Forall2_In_l _ _ _ _ Hrows Hp) as (r & _ & Hr).
  apply nth_error_Some. congruence.
Qed.

(** With no more neighbours requested than are stored, the accuracy of
    [evaluate_retrieval] on the rows of a search lies in [0, 1]. *)
Lemma accuracy_within_size (df : list row) embeddings qe k q retrieved :
  List.length df = List.length embeddings ->
  (k <= List.length embeddings)%nat ->
  take df (snd (Faiss.search embeddings qe k)) = Some retrieved ->
  (fst (fst (evaluate_retrieval df q retrieved))
   <= snd (fst (evaluate_retrieval df q retrieved)))%nat
  /\ 0 <= snd (evaluate_retrieval df q retrieved) <= 1.
Proof.
  intros Hlen Hk Htake. rewrite evaluate_retrieval_counts. cbn [fst snd].
  destruct (search_spec embeddings qe k) as (ps & vs & _ & Hpv & Hnd & HI & _).
  replace (k - List.length embeddings)%nat with 0%nat in HI by lia.
  cbn [repeat] in HI. rewrite app_nil_r in HI. rewrite HI in Htake.
  assert (Hrows : Forall2 (fun p r => nth_error df p = Some r) ps retrieved).
  { unfold take in Htake. apply mapM_Forall2 in Htake.
    clear - Htake. remember (map Z.of_nat ps) as zs eqn:Ez. revert ps Ez.
    induction Htake as [|z r zs' rows' Hz _ IH]; intros [|p ps'] Ez;
      try discriminate; constructor.
    - injection Ez as -> _. now rewrite getitem_nat in Hz.
    - apply IH. now injection Ez. }
  assert (Hle := count_distinct_rows (counts_as_match q) df ps retrieved Hnd Hrows).
  split; [assumption|].
  destruct (0 <? count (counts_as_match q) df)%nat eqn:Hpos.
  - apply Nat.ltb_lt in Hpos. now apply ratio_in_unit_interval.
  - split; [apply Qle_refl | discriminate].
Qed.

End EvaluationCounts.

(** C1, as stated, fails for [evaluate_retrieval]: in a table of two images
    of group "100" the query "100_01.jpg" (row 0) has one other image
    sharing its group-id, but [total_available_matches] is 2: the query
    itself is counted. *)
Lemma evaluate_retrieval_includes_query :
  option_map Evaluation.original_image
    (nth_error (Evaluation.build_df [] Sample.two_files) 0) = Some "100_01.jpg"
  /\ Counting.count_others (Evaluation.shares_group "100_01.jpg")
       (Evaluation.build_df [] Sample.two_files) 0 = 1%nat
  /\ snd (fst (Evaluation.evaluate_retrieval
                 (Evaluation.build_df [] Sample.two_files) "100_01.jpg" []))
     = 2%nat.
Proof. repeat split. Qed.

(** C1 (amended): [retrieve_images_for_model] computes
    [total_available_matches] as the number of images other than the query
    whose match set equals the query's, and [num_matches_found] as the
    number of retrieved images whose match set equals the query's.
    [evaluate_retrieval] does not leave the query out: when no name merely
    begins with the query's group-id, its [total_available_matches] is one
    more than the number of other match-set images with the query's
    group-id, and its [num_matches_found] is the number of retrieved
    match-set images with that group-id. *)
Theorem match_counts :
  (forall model embeddings image_files q top_k,
      List.length image_files = List.length embeddings ->
      In q image_files ->
      exists idx qe r,
        nth_error image_files idx = Some q
        /\ nth_error embeddings idx = Some qe
        /\ Comparison.retrieve_images_for_model model embeddings image_files
             q top_k = Some (inr r)
        /\ take image_files
             (Comparison.drop_first
                (snd (Faiss.search embeddings qe (top_k + 1))))
           = Some (Comparison.retrieved_images r)
        /\ Comparison.total_available_matches r
           = Z.of_nat (Counting.count_others
                         (Comparison.shares_match_set q) image_files idx)
        /\ Comparison.num_matches_found r
           = Counting.count (Comparison.shares_match_set q)
               (Comparison.retrieved_images r))
  /\ (forall df q retrieved idx r0,
         Evaluation.prefix_free q df ->
         Evaluation.prefix_free q retrieved ->
         nth_error df idx = Some r0 ->
         Evaluation.original_image r0 = q ->
         Evaluation.source r0 = "matches" ->
         snd (fst (Evaluation.evaluate_retrieval df q retrieved))
         = S (Counting.count_others (Evaluation.shares_group q) df idx)
         /\ fst (fst (Evaluation.evaluate_retrieval df q retrieved))
            = Counting.count (Evaluation.shares_group q) retrieved).
Proof.
  split.
  - intros model embeddings image_files q top_k Hlen Hq.
    destruct (retrieve_images_for_model_spec model embeddings image_files
                Hlen q top_k Hq)
      as (idx & qe & r & H1 & H2 & H3 & H4 & H5 & H6 & _).
    exists idx, qe, r. auto 10.
  - intros df q retrieved idx r0 Hdf Hret Hr0 Hq Hsrc.
    destruct (evaluate_retrieval_shares df q retrieved Hdf Hret) as [Hfound Htotal].
    split; [|assumption].
    rewrite Htotal. apply (count_is_one_plus_others _ df idx r0 Hr0).
    unfold Evaluation.shares_group. rewrite Hq, Hsrc.
    now rewrite !String.eqb_refl.
Qed.

Lemma match_counts_witness :
  (exists idx qe r,
      nth_error Sample.two_files idx = Some "100_01.jpg"
      /\ nth_error Sample.two_embeddings idx = Some qe
      /\ Comparison.retrieve_images_for_model "DINO" Sample.two_embeddings
           Sample.two_files "100_01.jpg" 1 = Some (inr r)
      /\ take Sample.two_files
           (Comparison.drop_first
              (snd (Faiss.search Sample.two_embeddings qe (1 + 1))))
         = Some (Comparison.retrieved_images r)
      /\ Comparison.total_available_matches r
         = Z.of_nat (Counting.count_others
                       (Comparison.shares_match_set "100_01.jpg")
                       Sample.two_files idx)
      /\ Comparison.num_matches_found r
         = Counting.count (Comparison.shares_match_set "100_01.jpg")
             (Comparison.retrieved_images r))
  /\ snd (fst (Evaluation.evaluate_retrieval
                 (Evaluation.build_df [] Sample.two_files) "100_01.jpg"
                 (Evaluation.build_df [] Sample.two_files)))
     = S (Counting.count_others (Evaluation.shares_group "100_01.jpg")
            (Evaluation.build_df [] Sample.two_files) 0)
  /\ fst (fst (Evaluation.evaluate_retrieval
                 (Evaluation.build_df [] Sample.two_files) "100_01.jpg"
                 (Evaluation.build_df [] Sample.two_files)))
     = Counting.count (Evaluation.shares_group "100_01.jpg")
         (Evaluation.build_df [] Sample.two_files).
Proof.
  destruct match_counts as [HA HB]. split.
  - apply (HA "DINO" Sample.two_embeddings Sample.two_files "100_01.jpg" 1%nat).
    + reflexivity.
    + simpl. auto.
  - apply (HB (Evaluation.build_df [] Sample.two_files) "100_01.jpg"
              (Evaluation.build_df [] Sample.two_files) 0%nat
              (Evaluation.mkRow "100_01.jpg" 0 "100_01.jpg" "matches")).
    + intros r [<- | [<- | []]] _; reflexivity.
    + intros r [<- | [<- | []]] _; reflexivity.
    + reflexivity.
    + reflexivity.
    + reflexivity.
Defined.

(** C4: on a table of two images of one match set the loop of step 11
    searches for 10 neighbours; the eight filler labels repeat the last
    row, so both queries report 10 matches found out of 2 available and a
    match accuracy of 5.  The comparison notebook, asked for 5 neighbours
    of the same query, reports 5 matches out of 1 and an accuracy of 5. *)
Theorem match_accuracy_exceeds_one :
  Evaluation.evaluation_df (Evaluation.build_df [] Sample.two_files)
    Sample.two_embeddings
  = Some (Evaluation.mkState []
            [Evaluation.mkResult "100_01.jpg" 10 2 (10 # 2);
             Evaluation.mkResult "100_02.jpg" 10 2 (10 # 2)])
  /\ ~ (10 # 2 <= 1)
  /\ option_map (fun out =>
                   match out with
                   | inl _ => None
                   | inr r => Some (Comparison.num_matches_found r,
                                    Comparison.total_available_matches r,
                                    Comparison.match_accuracy r)
                   end)
       (Comparison.retrieve_images_for_model "DINO" Sample.two_embeddings
          Sample.two_files "100_01.jpg" 5)
     = Some (Some (5%nat, 1%Z, 5 # 1))
  /\ ~ (5 # 1 <= 1).
Proof.
  split; [reflexivity|]. split; [unfold Qle; simpl; lia|].
  split; [reflexivity | unfold Qle; simpl; lia].
Qed.

(** ** The three places that search and then fetch rows *)

Section PaddingSites.

Variable augmented_df : list (string * string).
Variable image_files : list string.
Variable embeddings : list vec.
Hypothesis co_indexed : List.length image_files = List.length embeddings.

Let df := Evaluation.build_df augmented_df image_files.

Lemma position_among_labels idx ps fillers :
  Permutation ps (seq 0 (List.length embeddings)) ->
  (idx < List.length embeddings)%nat ->
  existsb (Z.eqb (Z.of_nat idx)) (map Z.of_nat ps ++ fillers) = true.
Proof.
  intros Hperm Hidx. apply existsb_exists. exists (Z.of_nat idx). split.
  - apply in_or_app. left. apply in_map.
    apply (Permutation_in _ (Permutation_sym Hperm)).
    apply in_seq. lia.
  - apply Z.eqb_refl.
Qed.

Lemma retrieve_and_display_beyond_size q top_k :
  (List.length embeddings <= top_k)%nat ->
  Evaluation.has_embedding df q = true ->
  exists rows init last_row,
    df = (init ++ [last_row])%list
    /\ Permutation rows df
    /\ Evaluation.retrieve_and_display df embeddings q top_k
       = Some (inr (rows ++ repeat last_row (top_k - List.length embeddings))%list).
Proof.
  intros Hk Hhas.
  apply has_embedding_true in Hhas as (idx & rest & Hq).
  destruct (query_row augmented_df image_files embeddings co_indexed q idx rest Hq)
    as (r & qe & Hr & _ & Hqe).
  fold df in Hr.
  assert (Hne : df <> []) by (intros E; rewrite E in Hr; destruct idx; discriminate).
  destruct (non_empty_last df Hne) as (init & last_row & Edf).
  destruct (take_search_beyond_size init last_row embeddings qe top_k)
    as (ps & rows & HI & Hperm & _ & Hrows & Htake); [|assumption|].
  { rewrite <- Edf. now apply df_length. }
  rewrite <- Edf in Htake, Hrows.
  exists rows, init, last_row. repeat split; auto.
  assert (Hidx : (idx < List.length embeddings)%nat)
    by (apply nth_error_Some; congruence).
  unfold Evaluation.retrieve_and_display. rewrite Hq, Hqe.
  rewrite index_search_positive by lia. cbv beta iota zeta.
  rewrite Htake, HI, position_among_labels; auto.
Qed.

Lemma evaluate_query_beyond_size q :
  (List.length embeddings <= 10)%nat ->
  Evaluation.has_embedding df q = true ->
  exists rows init last_row,
    df = (init ++ [last_row])%list
    /\ Permutation rows df
    /\ forall st,
         Evaluation.evaluate_query df embeddings st q
         = Some (Evaluation.mkState (Evaluation.stdout st)
                   (Evaluation.evaluation_results st
                    ++ [let e := Evaluation.evaluate_retrieval df q
                                   (rows ++ repeat last_row
                                              (10 - List.length embeddings)) in
                        Evaluation.mkResult q (fst (fst e)) (snd (fst e)) (snd e)])).
Proof.
  intros Hk Hhas.
  apply has_embedding_true in Hhas as (idx & rest & Hq).
  destruct (query_row augmented_df image_files embeddings co_indexed q idx rest Hq)
    as (r & qe & Hr & _ & Hqe).
  fold df in Hr.
  assert (Hne : df <> []) by (intros E; rewrite E in Hr; destruct idx; discriminate).
  destruct (non_empty_last df Hne) as (init & last_row & Edf).
  destruct (take_search_beyond_size init last_row embeddings qe 10)
    as (ps & rows & HI & Hperm & _ & Hrows & Htake); [|assumption|].
  { rewrite <- Edf. now apply df_length. }
  rewrite <- Edf in Htake, Hrows.
  exists rows, init, last_row. repeat split; auto.
  intros st. unfold Evaluation.evaluate_query. rewrite Hq, Hqe, Htake.
  cbv zeta.
  now destruct (Evaluation.evaluate_retrieval df q
                  (rows ++ repeat last_row (10 - List.length embeddings)))
    as [[found total] acc].
Qed.

Lemma retrieve_images_for_model_beyond_size model q top_k :
  (List.length embeddings <= top_k)%nat ->
  In q image_files ->
  exists r names init last_file,
    image_files = (init ++ [last_file])%list
    /\ Permutation names image_files
    /\ Comparison.retrieve_images_for_model model embeddings image_files q top_k
       = Some (inr r)
    /\ Comparison.retrieved_images r
       = (tl names ++ repeat last_file (top_k + 1 - List.length embeddings))%list.
Proof.
  intros Hk Hq.
  destruct (retrieve_images_for_model_spec model embeddings image_files
              co_indexed q top_k Hq)
    as (idx & qe & r & _ & _ & Hrun & Htake & _).
  assert (Hne : image_files <> []) by (intros E; rewrite E in Hq; inversion Hq).
  destruct (non_empty_last image_files Hne) as (init & last_file & Efiles).
  destruct (take_search_beyond_size init last_file embeddings qe (top_k + 1))
    as (ps & names & HI & Hperm & _ & Hnames & Hall); [| lia |].
  { now rewrite <- Efiles. }
  rewrite <- Efiles in Hall, Hnames.
  apply take_tl in Hall. unfold Comparison.drop_first in Htake.
  rewrite Hall in Htake. injection Htake as Htake.
  exists r, names, init, last_file. repeat split; auto.
  rewrite <- Htake. destruct names as [|n names']; [|reflexivity].
  apply Permutation_nil in Hnames. congruence.
Qed.

End PaddingSites.

(** C10: when a search asks for more neighbours than the N >= 1 vectors
    stored, the labels are every stored position once followed by k - N
    times -1, and fetching the rows of a table at these labels raises no
    error: it yields the whole table once, then k - N copies of its last
    row.  This is what [retrieve_and_display] returns, what the loop of
    step 11 evaluates, and (after the first result is dropped) what
    [retrieve_images_for_model] returns. *)
Theorem padded_search_repeats_last_row :
  (forall (A : Type) (init : list A) (last_row : A) xb q k,
      List.length (init ++ [last_row]) = List.length xb ->
      (List.length xb < k)%nat ->
      exists ps rows,
        snd (Faiss.search xb q k)
        = (map Z.of_nat ps ++ repeat (-1)%Z (k - List.length xb))%list
        /\ Permutation ps (seq 0 (List.length xb))
        /\ Permutation rows (init ++ [last_row])
        /\ take (init ++ [last_row]) (snd (Faiss.search xb q k))
           = Some (rows ++ repeat last_row (k - List.length xb))%list
        /\ (0 < k - List.length xb)%nat)
  /\ (forall augmented_df image_files embeddings q top_k,
         List.length image_files = List.length embeddings ->
         (List.length embeddings < top_k)%nat ->
         Evaluation.has_embedding
           (Evaluation.build_df augmented_df image_files) q = true ->
         exists rows init last_row,
           Evaluation.build_df augmented_df image_files = (init ++ [last_row])%list
           /\ Permutation rows (Evaluation.build_df augmented_df image_files)
           /\ Evaluation.retrieve_and_display
                (Evaluation.build_df augmented_df image_files) embeddings q top_k
              = Some (inr (rows ++ repeat last_row
                                     (top_k - List.length embeddings))%list))
  /\ (forall augmented_df image_files embeddings q,
         List.length image_files = List.length embeddings ->
         (List.length embeddings < 10)%nat ->
         Evaluation.has_embedding
           (Evaluation.build_df augmented_df image_files) q = true ->
         exists rows init last_row,
           Evaluation.build_df augmented_df image_files = (init ++ [last_row])%list
           /\ Permutation rows (Evaluation.build_df augmented_df image_files)
           /\ forall st,
                Evaluation.evaluate_query
                  (Evaluation.build_df augmented_df image_files) embeddings st q
                = Some (Evaluation.mkState (Evaluation.stdout st)
                          (Evaluation.evaluation_results st
                           ++ [let e :=
                                 Evaluation.evaluate_retrieval
                                   (Evaluation.build_df augmented_df image_files) q
                                   (rows ++ repeat last_row
                                              (10 - List.length embeddings)) in
                               Evaluation.mkResult q
                                 (fst (fst e)) (snd (fst e)) (snd e)])))
  /\ (forall model embeddings image_files q top_k,
         List.length image_files = List.length embeddings ->
         (List.length embeddings < top_k + 1)%nat ->
         In q image_files ->
         exists r names init last_file,
           image_files = (init ++ [last_file])%list
           /\ Permutation names image_files
           /\ Comparison.retrieve_images_for_model model embeddings image_files
                q top_k = Some (inr r)
           /\ Comparison.retrieved_images r
              = (tl names
                 ++ repeat last_file (top_k + 1 - List.length embeddings))%list).
Proof.
  split; [|split; [|split]].
  - intros A init last_row xb q k Hlen Hk.
    destruct (take_search_beyond_size init last_row xb q k Hlen)
      as (ps & rows & HI & Hperm & _ & Hrows & Htake); [lia|].
    exists ps, rows. repeat split; auto. lia.
  - intros augmented_df image_files embeddings q top_k Hlen Hk Hhas.
    apply retrieve_and_display_beyond_size; auto. lia.
  - intros augmented_df image_files embeddings q Hlen Hk Hhas.
    apply evaluate_query_beyond_size; auto. lia.
  - intros model embeddings image_files q top_k Hlen Hk Hq.
    apply retrieve_images_for_model_beyond_size; auto. lia.
Qed.

Lemma padded_search_repeats_last_row_witness :
  (exists ps rows,
      snd (Faiss.search Sample.two_embeddings [1; 0] 4)
      = (map Z.of_nat ps
         ++ repeat (-1)%Z (4 - List.length Sample.two_embeddings))%list
      /\ Permutation ps (seq 0 (List.length Sample.two_embeddings))
      /\ Permutation rows (["100_01.jpg"] ++ ["100_02.jpg"])
      /\ take (["100_01.jpg"] ++ ["100_02.jpg"])
           (snd (Faiss.search Sample.two_embeddings [1; 0] 4))
         = Some (rows ++ repeat "100_02.jpg"
                           (4 - List.length Sample.two_embeddings))%list
      /\ (0 < 4 - List.length Sample.two_embeddings)%nat)
  /\ (exists r names init last_file,
         Sample.two_files = (init ++ [last_file])%list
         /\ Permutation names Sample.two_files
         /\ Comparison.retrieve_images_for_model "DINO" Sample.two_embeddings
              Sample.two_files "100_01.jpg" 5 = Some (inr r)
         /\ Comparison.retrieved_images r
            = (tl names
               ++ repeat last_file
                    (5 + 1 - List.length Sample.two_embeddings))%list).
Proof.
  destruct padded_search_repeats_last_row as (Hgen & _ & _ & Hcmp). split.
  - apply (Hgen string ["100_01.jpg"] "100_02.jpg" Sample.two_embeddings
                [1; 0] 4%nat).
    + reflexivity.
    + simpl. lia.
  - apply (Hcmp "DINO" Sample.two_embeddings Sample.two_files "100_01.jpg" 5%nat).
    + reflexivity.
    + simpl. lia.
    + simpl. auto.
Defined.

(* ================================================================== *)
(** * Part III.  Further properties of the notebooks *)
(* ================================================================== *)

(** ** Batches *)

Section Batches.
Import Generation.

Lemma firstn_then_firstn {A} (l : list A) : forall a c,
  (firstn a l ++ firstn c (skipn a l))%list = firstn (a + c) l.
Proof.
  induction l as [|x t IH]; intros a c.
  - now rewrite skipn_nil, !firstn_nil.
  - destruct a as [|a]; [reflexivity|]. simpl. now rewrite IH.
Qed.

(** A slice that stops at the end of the list or after [b] entries. *)
Lemma slice_batch {A} (l : list A) s b :
  slice l s (Nat.min (s + b) (List.length l)) = firstn b (skipn s l).
Proof.
  unfold slice.
  destruct (Nat.le_gt_cases s (List.length l)) as [Hs | Hs].
  - replace (Nat.min (s + b) (List.length l) - s)%nat
      with (Nat.min b (List.length (skipn s l))) by (rewrite length_skipn; lia).
    destruct (Nat.le_gt_cases b (List.length (skipn s l))) as [Hb | Hb].
    + now rewrite Nat.min_l.
    + rewrite Nat.min_r by lia. rewrite firstn_all.
      symmetry. apply firstn_all2. lia.
  - rewrite skipn_all2 by lia. now rewrite !firstn_nil.
Qed.

Lemma ceil_div_covers n b : (0 < b)%nat -> (n <= (n + b - 1) / b * b)%nat.
Proof.
  intros Hb.
  pose proof (Nat.div_mod_eq (n + b - 1) b) as E.
  pose proof (Nat.mod_upper_bound (n + b - 1) b ltac:(lia)) as Hm.
  nia.
Qed.

Lemma ceil_div_starts n b j :
  (0 < b)%nat -> (j < (n + b - 1) / b)%nat -> (j * b < n)%nat.
Proof.
  intros Hb Hj.
  pose proof (Nat.div_mod_eq (n + b - 1) b) as E.
  assert (S j <= (n + b - 1) / b)%nat by lia.
  assert (S j * b <= (n + b - 1) / b * b)%nat by now apply Nat.mul_le_mono_r.
  nia.
Qed.

(** The slices taken at the multiples of [b], put end to end, are the
    first [j * b] entries. *)
Lemma batches_prefix {A} (l : list A) b j :
  List.concat
    (map (fun s => slice l s (Nat.min (s + b) (List.length l)))
         (map (fun i => i * b)%nat (seq 0 j)))
  = firstn (j * b) l.
Proof.
  induction j as [|j IH]; [reflexivity|].
  rewrite seq_S, !map_app, concat_app, IH. simpl.
  rewrite app_nil_r, slice_batch, firstn_then_firstn.
  f_equal. lia.
Qed.

Lemma batches_cover {A} (l : list A) b starts :
  range_step (List.length l) b = Some starts ->
  List.concat (map (fun s => slice l s (Nat.min (s + b) (List.length l))) starts)
  = l.
Proof.
  unfold range_step. destruct (Nat.eqb_spec b 0) as [|Hb]; [discriminate|].
  intros [= <-]. rewrite batches_prefix. apply firstn_all2.
  apply ceil_div_covers. lia.
Qed.

Lemma batches_sizes {A} (l : list A) b starts :
  range_step (List.length l) b = Some starts ->
  Forall (fun batch => (0 < List.length batch <= b)%nat)
         (map (fun s => slice l s (Nat.min (s + b) (List.length l))) starts).
Proof.
  unfold range_step. destruct (Nat.eqb_spec b 0) as [|Hb]; [discriminate|].
  intros [= <-]. apply Forall_forall. intros batch Hin.
  apply in_map_iff in Hin as (s & <- & Hs).
  apply in_map_iff in Hs as (j & <- & Hj). apply in_seq in Hj.
  rewrite slice_batch, length_firstn, length_skipn.
  pose proof (ceil_div_starts (List.length l) b j ltac:(lia) ltac:(lia)). lia.
Qed.

Variable norm : vec -> Q.
Variable model : list string -> list vec.

Lemma fold_batch_step paths originals augmented b n starts : forall st,
  fold_left (batch_step norm model paths originals augmented b n) starts st
  = mkGen
      (embeddings st
       ++ List.concat
            (map (fun s => map (Selector.normalize norm)
                             (model (slice paths s (Nat.min (s + b) n))))
                 starts))
      (original_image_files st
       ++ List.concat (map (fun s => slice originals s (Nat.min (s + b) n)) starts))
      (augmented_image_files st
       ++ List.concat (map (fun s => slice augmented s (Nat.min (s + b) n)) starts)).
Proof.
  induction starts as [|s t IH]; intros st; simpl.
  - rewrite !app_nil_r. now destruct st.
  - rewrite IH. unfold batch_step. simpl. now rewrite <- !app_assoc.
Qed.

End Batches.

(** ** Embedding generation *)

Section GenerationFacts.
Import Generation.

Variable norm : vec -> Q.

Lemma vstack_some rows : rows <> [] -> vstack rows = Some rows.
Proof. destruct rows; [congruence | reflexivity]. Qed.

Lemma concat_model_length (f : vec -> vec) (model : list string -> list vec)
    batches :
  (forall ps, List.length (model ps) = List.length ps) ->
  List.length (List.concat (map (fun b => map f (model b)) batches))
  = List.length (List.concat batches).
Proof.
  intros Hm. induction batches as [|b t IH]; simpl; [reflexivity|].
  now rewrite !length_app, length_map, Hm, IH.
Qed.

Lemma generate_batched_eq model augmented_df batch_size starts :
  range_step (List.length augmented_df) batch_size = Some starts ->
  generate_batched norm model augmented_df batch_size
  = let batches :=
      map (fun s =>
             slice (map (fun r => path_join augmented_dir (fst r)) augmented_df)
                   s (Nat.min (s + batch_size) (List.length augmented_df)))
          starts in
    let? stacked :=
      vstack (List.concat
                (map (fun b => map (Selector.normalize norm) (model b)) batches)) in
    Some (mkGen stacked (map snd augmented_df) (map fst augmented_df)).
Proof.
  intros Hr. unfold generate_batched. cbv zeta.
  rewrite length_map, Hr, fold_batch_step. cbn [embeddings original_image_files
    augmented_image_files app]. rewrite map_map.
  pose proof (batches_cover (map snd augmented_df) batch_size starts) as Ho.
  pose proof (batches_cover (map fst augmented_df) batch_size starts) as Ha.
  rewrite length_map in Ho, Ha. now rewrite Ho, Ha.
Qed.

Lemma fold_image_step model_one rows : forall st,
  fold_left (image_step norm model_one) rows st
  = mkGen
      (embeddings st
       ++ map (fun r => Selector.normalize norm
                          (model_one (path_join augmented_dir (fst r)))) rows)
      (original_image_files st ++ map snd rows)
      (augmented_image_files st ++ map fst rows).
Proof.
  induction rows as [|r t IH]; intros st; simpl.
  - rewrite !app_nil_r. now destruct st.
  - rewrite IH. unfold image_step. simpl. now rewrite <- !app_assoc.
Qed.

Lemma generate_per_image_eq model_one augmented_df :
  generate_per_image norm model_one augmented_df
  = let? stacked :=
      vstack (map (fun r => Selector.normalize norm
                              (model_one (path_join augmented_dir (fst r))))
                  augmented_df) in
    Some (mkGen stacked (map snd augmented_df) (map fst augmented_df)).
Proof.
  unfold generate_per_image. cbv zeta. now rewrite fold_image_step.
Qed.

Lemma concat_map_map {A B} (f : A -> B) (ls : list (list A)) :
  List.concat (map (map f) ls) = map f (List.concat ls).
Proof. symmetry. apply concat_map. Qed.

(** A network that works image by image gives, over the batches, what it
    gives over the whole list. *)
Lemma batched_rowwise (f : vec -> vec) (model : list string -> list vec)
    (model_one : string -> vec) (paths : list string) b starts :
  Generation.range_step (List.length paths) b = Some starts ->
  (forall ps, model ps = map model_one ps) ->
  List.concat
    (map (fun batch => map f (model batch))
         (map (fun s => Generation.slice paths s
                          (Nat.min (s + b) (List.length paths))) starts))
  = map (fun p => f (model_one p)) paths.
Proof.
  intros Hr Hrow.
  pose proof (batches_cover paths b starts Hr) as Hcover.
  apply (f_equal (map (fun p => f (model_one p)))) in Hcover.
  rewrite <- Hcover, <- concat_map_map. f_equal. rewrite !map_map.
  apply map_ext. intros s. now rewrite Hrow, map_map.
Qed.

End GenerationFacts.

Lemma generate_batched_structure (norm : vec -> Q)
    (model : list string -> list vec)
    (augmented_df : list (string * string)) (batch_size : nat) :
  (0 < batch_size)%nat ->
  augmented_df <> [] ->
  (forall ps, List.length (model ps) = List.length ps) ->
  exists batches,
    List.concat batches
    = map (fun r => Generation.path_join Generation.augmented_dir (fst r))
          augmented_df
    /\ Forall (fun b => (0 < List.length b <= batch_size)%nat) batches
    /\ Generation.generate_batched norm model augmented_df batch_size
       = Some (Generation.mkGen
                 (List.concat
                    (map (fun b => map (Selector.normalize norm) (model b))
                         batches))
                 (map snd augmented_df) (map fst augmented_df))
    /\ List.length
         (List.concat
            (map (fun b => map (Selector.normalize norm) (model b)) batches))
       = List.length augmented_df.
Proof.
  intros Hb Hne Hmodel.
  destruct (Generation.range_step (List.length augmented_df) batch_size)
    as [starts|] eqn:Hr.
  2: { unfold Generation.range_step in Hr.
       destruct (Nat.eqb_spec batch_size 0); [lia | discriminate]. }
  set (paths := map (fun r => Generation.path_join Generation.augmented_dir (fst r))
                    augmented_df).
  assert (Hlen : List.length paths = List.length augmented_df)
    by (unfold paths; apply length_map).
  rewrite <- Hlen in Hr.
  exists (map (fun s => Generation.slice paths s
                          (Nat.min (s + batch_size) (List.length paths))) starts).
  assert (Hcover := batches_cover paths batch_size starts Hr).
  assert (Hcount :
    List.length
      (List.concat
         (map (fun b => map (Selector.normalize norm) (model b))
              (map (fun s => Generation.slice paths s
                                (Nat.min (s + batch_size) (List.length paths)))
                   starts)))
    = List.length augmented_df).
  { rewrite concat_model_length by assumption. now rewrite Hcover. }
  split; [exact Hcover|]. split; [now apply batches_sizes|]. split; [|exact Hcount].
  rewrite Hlen in Hr. rewrite (generate_batched_eq norm model _ _ starts Hr).
  cbv zeta. fold paths. rewrite <- Hlen. rewrite vstack_some; [reflexivity|].
  intros E. rewrite E in Hcount. simpl in Hcount.
  destruct augmented_df; [congruence | discriminate].
Qed.

(** X1: for a positive batch size, a non-empty mapping table and a network
    that returns one row per image, the batched loop of step 5 passes the
    image paths to the network in batches that are never empty, never
    longer than the batch size and that, put end to end, are all the paths
    in order; it finishes with the two name lists equal to the columns of
    the mapping table and with one embedding per row. *)
Theorem batched_generation_covers (norm : vec -> Q)
    (model : list string -> list vec)
    (augmented_df : list (string * string)) (batch_size : nat) :
  (0 < batch_size)%nat ->
  augmented_df <> [] ->
  (forall ps, List.length (model ps) = List.length ps) ->
  exists batches,
    List.concat batches
    = map (fun r => Generation.path_join Generation.augmented_dir (fst r))
          augmented_df
    /\ Forall (fun b => (0 < List.length b <= batch_size)%nat) batches
    /\ Generation.generate_batched norm model augmented_df batch_size
       = Some (Generation.mkGen
                 (List.concat
                    (map (fun b => map (Selector.normalize norm) (model b))
                         batches))
                 (map snd augmented_df) (map fst augmented_df))
    /\ List.length
         (List.concat
            (map (fun b => map (Selector.normalize norm) (model b)) batches))
       = List.length augmented_df.
Proof. apply generate_batched_structure. Qed.

Lemma batched_generation_covers_witness :
  exists batches,
    List.concat batches
    = map (fun r => Generation.path_join Generation.augmented_dir (fst r))
          Sample.mapping
    /\ Forall (fun b => (0 < List.length b <= 2)%nat) batches
    /\ Generation.generate_batched norm_rat Sample.network Sample.mapping 2
       = Some (Generation.mkGen
                 (List.concat
                    (map (fun b => map (Selector.normalize norm_rat)
                                     (Sample.network b))
                         batches))
                 (map snd Sample.mapping) (map fst Sample.mapping))
    /\ List.length
         (List.concat
            (map (fun b => map (Selector.normalize norm_rat) (Sample.network b))
                 batches))
       = List.length Sample.mapping.
Proof.
  apply (batched_generation_covers norm_rat Sample.network Sample.mapping 2).
  - lia.
  - discriminate.
  - intros ps. apply length_map.
Defined.

(** X2: when the network returns one row per image, the batched loop
    ends in an exception exactly when the batch size is 0 (the range
    cannot be built) or the mapping table is empty (nothing to stack). *)
Theorem batched_generation_fails_iff (norm : vec -> Q)
    (model : list string -> list vec)
    (augmented_df : list (string * string)) (batch_size : nat) :
  (forall ps, List.length (model ps) = List.length ps) ->
  Generation.generate_batched norm model augmented_df batch_size = None
  <-> batch_size = 0%nat \/ augmented_df = [].
Proof.
  intros Hmodel. split.
  - intros Hnone.
    destruct (Nat.eq_dec batch_size 0) as [|Hb]; [now left|]. right.
    destruct augmented_df as [|r t]; [reflexivity|]. exfalso.
    destruct (generate_batched_structure norm model (r :: t) batch_size)
      as (batches & _ & _ & Hrun & _); [lia | discriminate | assumption|].
    congruence.
  - intros [-> | ->].
    + reflexivity.
    + unfold Generation.generate_batched. cbv zeta. simpl List.length.
      unfold Generation.range_step.
      destruct (Nat.eqb_spec batch_size 0) as [|Hb]; [reflexivity|].
      replace ((0 + batch_size - 1) / batch_size)%nat with 0%nat.
      * reflexivity.
      * symmetry. apply Nat.div_small. lia.
Qed.

Lemma batched_generation_fails_iff_witness :
  Generation.generate_batched norm_rat Sample.network Sample.mapping 0 = None
  <-> 0%nat = 0%nat \/ Sample.mapping = [].
Proof.
  apply (batched_generation_fails_iff norm_rat Sample.network Sample.mapping 0).
  intros ps. apply length_map.
Defined.

(** X3: the UNI and DINO notebooks save the same representatives
    whatever the network returns and whatever the batch size is.  When
    the network treats the images of a batch one by one, the batched
    loop (UNI, DINO) and the loop over single images (CLIP, PLIP) build
    the same lists for every positive batch size, and the CLIP and PLIP
    notebooks save the same representatives as the other two. *)
Theorem notebooks_agree (norm : vec -> Q)
    (model : list string -> list vec) (model_one : string -> vec)
    (augmented_df : list (string * string)) (batch_size : nat) :
  Generation.uni_notebook norm model augmented_df batch_size
  = Generation.dino_notebook norm model augmented_df batch_size
  /\ ((0 < batch_size)%nat ->
      (forall ps, model ps = map model_one ps) ->
      Generation.generate_batched norm model augmented_df batch_size
      = Generation.generate_per_image norm model_one augmented_df
      /\ Generation.dino_notebook norm model augmented_df batch_size
         = Generation.clip_notebook norm model_one augmented_df).
Proof.
  split.
  - unfold Generation.uni_notebook, Generation.dino_notebook.
    destruct (Generation.range_step (List.length augmented_df) batch_size)
      as [starts|] eqn:Hr.
    + rewrite (generate_batched_eq norm model _ _ starts Hr). cbv zeta.
      now destruct (Generation.vstack _).
    + assert (Hnone : Generation.generate_batched norm model augmented_df
                        batch_size = None).
      { unfold Generation.generate_batched. cbv zeta.
        now rewrite length_map, Hr. }
      now rewrite Hnone.
  - intros Hb Hrow.
    destruct (Generation.range_step (List.length augmented_df) batch_size)
      as [starts|] eqn:Hr.
    2: { unfold Generation.range_step in Hr.
         destruct (Nat.eqb_spec batch_size 0); [lia | discriminate]. }
    assert (Hgen : Generation.generate_batched norm model augmented_df batch_size
                   = Generation.generate_per_image norm model_one augmented_df).
    { rewrite (generate_batched_eq norm model _ _ starts Hr),
        generate_per_image_eq.
      cbv zeta.
      set (paths := map (fun r => Generation.path_join
                                    Generation.augmented_dir (fst r))
                        augmented_df).
      assert (Hlen : List.length augmented_df = List.length paths)
        by (unfold paths; now rewrite length_map).
      rewrite Hlen in Hr |- *.
      rewrite (batched_rowwise (Selector.normalize norm) model model_one
                 paths batch_size starts Hr Hrow).
      unfold paths. now rewrite map_map. }
    split; [exact Hgen|].
    unfold Generation.dino_notebook, Generation.clip_notebook. now rewrite Hgen.
Qed.

Lemma notebooks_agree_witness :
  Generation.uni_notebook norm_rat (fun ps => Sample.network (rev ps))
    Sample.mapping 0
  = Generation.dino_notebook norm_rat (fun ps => Sample.network (rev ps))
      Sample.mapping 0
  /\ Generation.generate_batched norm_rat Sample.network Sample.mapping 2
     = Generation.generate_per_image norm_rat Sample.network_one Sample.mapping
  /\ Generation.dino_notebook norm_rat Sample.network Sample.mapping 2
     = Generation.clip_notebook norm_rat Sample.network_one Sample.mapping.
Proof.
  split.
  - apply (notebooks_agree norm_rat (fun ps => Sample.network (rev ps))
             Sample.network_one Sample.mapping 0).
  - apply (notebooks_agree norm_rat Sample.network Sample.network_one
             Sample.mapping 2).
    + lia.
    + reflexivity.
Defined.

(** ** What the selector returns *)

Section SelectorShape.
Import Selector.

Lemma first_max_of_member norm embeddings indices e :
  first_max_of norm embeddings indices e -> In e embeddings.
Proof.
  intros (pre & j & post & _ & Hj & _). eapply nth_error_In; eassumption.
Qed.

Lemma select_representatives_some norm col embeddings :
  List.length col = List.length embeddings ->
  exists sel,
    select_representatives norm col embeddings
    = Some (sel, map fst (groupby col))
    /\ List.length sel = List.length (groupby col)
    /\ Forall (fun e => In e embeddings) sel.
Proof.
  intros Hlen. unfold select_representatives. rewrite Hlen, Nat.eqb_refl.
  destruct (select_loop_spec norm embeddings (groupby col) [] [])
    as (sel & Hsel & Hmax).
  { intros g Hg. rewrite <- Hlen. now apply groupby_group_ok. }
  exists sel. split; [exact Hsel|]. split.
  - symmetry. eapply Forall2_length; eassumption.
  - clear Hsel. induction Hmax as [|g e gs es Hge _ IH]; constructor; auto.
    eapply first_max_of_member; eassumption.
Qed.

Lemma select_representatives_members norm col embeddings sel files :
  select_representatives norm col embeddings = Some (sel, files) ->
  List.length col = List.length embeddings
  /\ files = map fst (groupby col)
  /\ List.length sel = List.length files
  /\ Forall (fun e => In e embeddings) sel.
Proof.
  intros H.
  destruct (Nat.eq_dec (List.length col) (List.length embeddings)) as [Hlen|Hlen].
  - destruct (select_representatives_some norm col embeddings Hlen)
      as (sel0 & Hrun & Hcount & Hmem).
    rewrite Hrun in H. injection H as <- <-. rewrite length_map. auto.
  - unfold select_representatives in H.
    destruct (Nat.eqb_spec (List.length col) (List.length embeddings));
      [contradiction | discriminate].
Qed.

Lemma groupby_nonempty col : col <> [] -> groupby col <> [].
Proof.
  intros Hne E. destruct col as [|k t]; [congruence|].
  assert (Hin : In k (map fst (groupby (k :: t))))
    by (apply groupby_keys; now left).
  rewrite E in Hin. inversion Hin.
Qed.

End SelectorShape.

(** X4: the selector raises exactly when the identifier column and the
    embedding array differ in length.  When it returns, the list of
    identifiers is that of the groups, there is one embedding per
    identifier, every embedding returned is one of the embeddings given,
    and the result is not empty unless the input is (so the final
    [np.vstack] has something to stack). *)
Theorem selector_result_shape (norm : vec -> Q)
    (original_image : list string) (embeddings : list vec) :
  (Selector.select_representatives norm original_image embeddings = None
   <-> List.length original_image <> List.length embeddings)
  /\ (forall sel files,
         Selector.select_representatives norm original_image embeddings
         = Some (sel, files) ->
         files = map fst (Selector.groupby original_image)
         /\ List.length sel = List.length files
         /\ Forall (fun e => In e embeddings) sel
         /\ (original_image <> [] -> sel <> [])).
Proof.
  destruct (Nat.eq_dec (List.length original_image) (List.length embeddings))
    as [Hlen | Hlen].
  - destruct (select_representatives_some norm original_image embeddings Hlen)
      as (sel0 & Hrun & Hcount & Hmem).
    split.
    + rewrite Hrun. split; [discriminate | contradiction].
    + intros sel files H. rewrite Hrun in H. injection H as <- <-.
      rewrite length_map. repeat split; auto.
      intros Hne E. subst sel0. simpl in Hcount.
      apply (groupby_nonempty original_image Hne).
      destruct (Selector.groupby original_image); [reflexivity | discriminate].
  - assert (Hrun : Selector.select_representatives norm original_image embeddings
                   = None).
    { unfold Selector.select_representatives.
      destruct (Nat.eqb_spec (List.length original_image) (List.length embeddings));
        [contradiction | reflexivity]. }
    split.
    + rewrite Hrun. tauto.
    + intros sel files H. congruence.
Qed.

(** ** From the network to the saved arrays *)

Section ThroughNotebook.

Lemma Forall_concat_map {A B} (P : B -> Prop) (f : A -> list B) l :
  (forall x, In x l -> Forall P (f x)) -> Forall P (List.concat (map f l)).
Proof.
  intros H. apply Forall_concat. apply Forall_forall. intros ys Hys.
  apply in_map_iff in Hys as (x & <- & Hx). now apply H.
Qed.

Lemma firstn_incl {A} (l : list A) : forall n x, In x (firstn n l) -> In x l.
Proof.
  induction l as [|y t IH]; intros [|n] x; simpl; try tauto.
  intros [E | H]; [now left | right; eauto].
Qed.

Lemma skipn_incl {A} (l : list A) : forall n x, In x (skipn n l) -> In x l.
Proof.
  induction l as [|y t IH]; intros [|n] x; simpl; try tauto.
  intros H. right. eauto.
Qed.

End ThroughNotebook.

(** X5: every vector the DINO notebook saves is a row the network
    returned for one of the batches, divided by its norm: step 6 picks
    among the rows of step 5 and changes none.  The saved names are the
    distinct original images of the mapping table in ascending order,
    there is one vector per name and at least one vector. *)
Theorem saved_embeddings_are_normalized_outputs (norm : vec -> Q)
    (model : list string -> list vec)
    (augmented_df : list (string * string)) (batch_size : nat)
    (saved : list vec) (files : list string) :
  Generation.dino_notebook norm model augmented_df batch_size
  = Some (saved, files) ->
  Forall (fun e =>
            exists batch r,
              incl batch
                   (map (fun row => Generation.path_join
                                      Generation.augmented_dir (fst row))
                        augmented_df)
              /\ In r (model batch)
              /\ e = Selector.normalize norm r)
         saved
  /\ files = map fst (Selector.groupby (map snd augmented_df))
  /\ List.length saved = List.length files
  /\ saved <> [].
Proof.
  intros Hrun. unfold Generation.dino_notebook in Hrun.
  destruct (Generation.generate_batched norm model augmented_df batch_size)
    as [st|] eqn:Hgen; [|discriminate].
  set (paths := map (fun row => Generation.path_join
                                  Generation.augmented_dir (fst row))
                    augmented_df) in *.
  assert (Hst : Forall (fun e => exists batch r,
                          incl batch paths /\ In r (model batch)
                          /\ e = Selector.normalize norm r)
                       (Generation.embeddings st)
                /\ Generation.original_image_files st = map snd augmented_df).
  { destruct (Generation.range_step (List.length augmented_df) batch_size)
      as [starts|] eqn:Hr.
    - rewrite (generate_batched_eq norm model _ _ starts Hr) in Hgen.
      cbv zeta in Hgen. fold paths in Hgen.
      destruct (Generation.vstack _) as [stacked|] eqn:Hstack; [|discriminate].
      injection Hgen as <-.
      cbn [Generation.embeddings Generation.original_image_files].
      split; [|reflexivity].
      unfold Generation.vstack in Hstack.
      destruct (List.concat _) eqn:Hc in Hstack; [discriminate|].
      injection Hstack as <-. rewrite <- Hc.
      apply Forall_concat_map. intros b Hb.
      apply Forall_forall. intros e He.
      apply in_map_iff in He as (r & <- & Hr').
      exists b, r. split; [|split; [assumption | reflexivity]].
      apply in_map_iff in Hb as (s0 & <- & _).
      unfold Generation.slice. intros x Hx.
      apply firstn_incl in Hx. now apply skipn_incl in Hx.
    - unfold Generation.generate_batched in Hgen. cbv zeta in Hgen.
      rewrite length_map, Hr in Hgen. discriminate. }
  destruct Hst as [Hrows Horig].
  destruct (Selector.select_representatives norm
              (Generation.original_image_files st) (Generation.embeddings st))
    as [[sel fs]|] eqn:Hsel; [|discriminate].
  cbn [fst snd] in Hrun.
  destruct (Generation.vstack sel) as [stacked|] eqn:Hstack; [|discriminate].
  injection Hrun as <- <-.
  unfold Generation.vstack in Hstack. destruct sel as [|e sel']; [discriminate|].
  injection Hstack as <-.
  destruct (select_representatives_members norm _ _ _ _ Hsel)
    as (_ & Hfiles & Hcount & Hmem).
  rewrite Horig in Hfiles.
  split; [|split; [assumption | split; [assumption | discriminate]]].
  rewrite Forall_forall in Hrows, Hmem |- *. intros v Hv. auto.
Qed.

Lemma saved_embeddings_are_normalized_outputs_witness :
  Forall (fun e =>
            exists batch r,
              incl batch
                   (map (fun row => Generation.path_join
                                      Generation.augmented_dir (fst row))
                        Sample.mapping)
              /\ In r (Sample.network batch)
              /\ e = Selector.normalize norm_rat r)
         [[3 # 5; 4 # 5]; [5 # 13; 12 # 13]]
  /\ ["100_01.jpg"; "cell.jpg"]
     = map fst (Selector.groupby (map snd Sample.mapping))
  /\ List.length [[3 # 5; 4 # 5]; [5 # 13; 12 # 13]]
     = List.length ["100_01.jpg"; "cell.jpg"]
  /\ [[3 # 5; 4 # 5]; [5 # 13; 12 # 13]] <> (@nil vec).
Proof.
  apply (saved_embeddings_are_normalized_outputs norm_rat Sample.network
           Sample.mapping 2).
  reflexivity.
Defined.

(** ** The groups of [groupby] *)

Section GroupsPartition.
Import Selector.

Lemma positions_of_ascending key col : forall i,
  Forall (fun j => (i <= j)%nat) (positions_of key col i)
  /\ StronglySorted lt (positions_of key col i).
Proof.
  induction col as [|x t IH]; intros i; simpl.
  - split; constructor.
  - destruct (IH (S i)) as [Hge Hs].
    assert (Hge' : Forall (fun j => (i <= j)%nat) (positions_of key t (S i))).
    { eapply Forall_impl; [|exact Hge]. simpl. intros; lia. }
    destruct (String.eqb x key); [|split; assumption].
    split.
    + constructor; [lia | assumption].
    + constructor; [assumption|].
      eapply Forall_impl; [|exact Hge]. simpl. intros; lia.
Qed.

Lemma StronglySorted_lt_NoDup (l : list nat) : StronglySorted lt l -> NoDup l.
Proof.
  induction 1 as [|x t Ht IH Hx]; constructor; [|assumption].
  intros Hin. rewrite Forall_forall in Hx. specialize (Hx x Hin). lia.
Qed.

Lemma NoDup_concat_map {A B} (f : A -> list B) (l : list A) :
  NoDup l ->
  (forall x, In x l -> NoDup (f x)) ->
  (forall x y b, In x l -> In y l -> In b (f x) -> In b (f y) -> x = y) ->
  NoDup (List.concat (map f l)).
Proof.
  induction 1 as [|x t Hx Ht IH]; intros Hnd Hdisj; simpl; [constructor|].
  apply NoDup_app.
  - apply Hnd. now left.
  - apply IH.
    + intros; apply Hnd; now right.
    + intros x' y' b Hx' Hy'. apply Hdisj; now right.
  - intros b Hb Hb'. apply in_concat in Hb' as (ys & Hys & Hb').
    apply in_map_iff in Hys as (y & <- & Hy).
    apply Hx. rewrite (Hdisj x y b); auto; [now left | now right].
Qed.

Lemma groupby_rows_In col i :
  In i (List.concat (map snd (groupby col))) <-> (i < List.length col)%nat.
Proof.
  rewrite in_concat. split.
  - intros (idxs & Hg & Hi). apply in_map_iff in Hg as ([k idxs'] & <- & Hg).
    simpl in Hi. apply (groupby_group_ok col (k, idxs') Hg). exact Hi.
  - intros Hlt. destruct (nth_error col i) as [k|] eqn:Hk.
    + exists (positions_of k col 0). split.
      * apply in_map_iff. exists (k, positions_of k col 0). split; [reflexivity|].
        unfold groupby. apply in_map_iff. exists k. split; [reflexivity|].
        apply sorted_keys_In. eapply nth_error_In; eassumption.
      * apply positions_of_spec. exists i. auto.
    + apply nth_error_None in Hk. lia.
Qed.

Lemma groupby_rows_NoDup col : NoDup (List.concat (map snd (groupby col))).
Proof.
  unfold groupby. rewrite map_map. cbn [snd].
  apply NoDup_concat_map.
  - pose proof (groupby_keys_NoDup col) as H. unfold groupby in H.
    rewrite map_map in H. cbn [fst] in H. now rewrite map_id in H.
  - intros k _. apply StronglySorted_lt_NoDup, positions_of_ascending.
  - intros k k' i _ _ Hi Hi'.
    apply positions_of_spec in Hi as (n & -> & Hn).
    apply positions_of_spec in Hi' as (n' & E & Hn').
    simpl in E. subst n'. congruence.
Qed.

Lemma sorted_same_members (l l' : list string) :
  StronglySorted String_as_OT.lt l ->
  StronglySorted String_as_OT.lt l' ->
  (forall k, In k l <-> In k l') ->
  l = l'.
Proof.
  intros Hl. revert l'. induction Hl as [|x t Ht IH Hx]; intros l' Hl' Hsame.
  - destruct l' as [|y t']; [reflexivity|].
    destruct (proj2 (Hsame y) (or_introl eq_refl)).
  - destruct Hl' as [|y t' Ht' Hy].
    + destruct (proj1 (Hsame x) (or_introl eq_refl)).
    + rewrite Forall_forall in Hx, Hy.
      assert (E : x = y).
      { destruct (proj1 (Hsame x) (or_introl eq_refl)) as [E|Hin]; [auto|].
        destruct (proj2 (Hsame y) (or_introl eq_refl)) as [E|Hin']; [auto|].
        exfalso. pose proof (Hy x Hin) as H1. pose proof (Hx y Hin') as H2.
        apply (String_as_OT.lt_not_eq _ _ (String_as_OT.lt_trans _ _ _ H1 H2)).
        reflexivity. }
      subst y. f_equal. apply IH; [assumption|].
      intros k. split; intros Hk.
      * destruct (proj1 (Hsame k) (or_intror Hk)) as [E|Hin]; [|assumption].
        subst k. exfalso.
        apply (String_as_OT.lt_not_eq _ _ (Hx x Hk)). reflexivity.
      * destruct (proj2 (Hsame k) (or_intror Hk)) as [E|Hin]; [|assumption].
        subst k. exfalso.
        apply (String_as_OT.lt_not_eq _ _ (Hy x Hk)). reflexivity.
Qed.

Lemma groupby_keys_sorted col :
  StronglySorted String_as_OT.lt (map fst (groupby col)).
Proof.
  unfold groupby. rewrite map_map. cbn [fst]. rewrite map_id.
  apply sorted_keys_sorted.
Qed.

End GroupsPartition.

(** X6: the groups of [groupby('original_image')] partition the rows of
    the frame: every row position below the number of rows lies in exactly
    one group, no group is empty, and each group lists its rows in
    ascending row order, all of them carrying the group's key. *)
Theorem groupby_partitions_rows (original_image : list string) :
  Permutation (List.concat (map snd (Selector.groupby original_image)))
              (seq 0 (List.length original_image))
  /\ (forall k indices,
         In (k, indices) (Selector.groupby original_image) ->
         indices <> []
         /\ StronglySorted lt indices
         /\ forall i, In i indices <-> nth_error original_image i = Some k).
Proof.
  split.
  - apply NoDup_Permutation.
    + apply groupby_rows_NoDup.
    + apply seq_NoDup.
    + intros i. rewrite groupby_rows_In, in_seq. lia.
  - intros k indices Hg.
    destruct (groupby_group_ok _ _ Hg) as [Hne _].
    destruct (groupby_members _ _ _ Hg) as [_ Hmem].
    repeat split; try apply Hmem; auto.
    unfold Selector.groupby in Hg.
    apply in_map_iff in Hg as (k' & [= -> <-] & _).
    apply positions_of_ascending.
Qed.

(** X7: the identifiers the selector returns are in strictly ascending
    order, so without repetition, and they depend only on which
    identifiers occur in the column: two frames with the same set of
    identifiers, in any row order and with any multiplicities, give the
    same list. *)
Theorem selected_files_sorted_and_order_independent (norm norm' : vec -> Q)
    (col col' : list string) (embeddings embeddings' : list vec)
    (sel sel' : list vec) (files files' : list string) :
  (forall k, In k col <-> In k col') ->
  Selector.select_representatives norm col embeddings = Some (sel, files) ->
  Selector.select_representatives norm' col' embeddings' = Some (sel', files') ->
  files = files'
  /\ StronglySorted String_as_OT.lt files
  /\ NoDup files
  /\ (forall k, In k files <-> In k col).
Proof.
  intros Hsame H H'.
  apply select_representatives_members in H as (_ & -> & _ & _).
  apply select_representatives_members in H' as (_ & -> & _ & _).
  repeat split.
  - apply sorted_same_members; try apply groupby_keys_sorted.
    intros k. now rewrite !groupby_keys.
  - apply groupby_keys_sorted.
  - apply groupby_keys_NoDup.
  - apply groupby_keys.
  - apply groupby_keys.
Qed.

Lemma selected_files_sorted_and_order_independent_witness :
  ["a.jpg"; "b.jpg"] = ["a.jpg"; "b.jpg"]
  /\ StronglySorted String_as_OT.lt ["a.jpg"; "b.jpg"]
  /\ NoDup ["a.jpg"; "b.jpg"]
  /\ (forall k, In k ["a.jpg"; "b.jpg"] <-> In k ["b.jpg"; "a.jpg"; "b.jpg"]).
Proof.
  apply (selected_files_sorted_and_order_independent norm_rat norm_rat
           ["b.jpg"; "a.jpg"; "b.jpg"] ["a.jpg"; "b.jpg"]
           [[3; 4]; [1; 0]; [5; 12]] [[0; 1]; [3; 4]]
           [[1; 0]; [5; 12]] [[0; 1]; [3; 4]]).
  - intros k. simpl. tauto.
  - reflexivity.
  - reflexivity.
Defined.

(** ** The table of the evaluation notebook *)

Section EvaluationTable.
Import Evaluation.

Lemma mapping_get_app a b x d :
  mapping_get (a ++ b)%list x d = mapping_get b x (mapping_get a x d).
Proof.
  revert d. induction a as [|[aug orig] t IH]; intros d; simpl; [reflexivity|].
  apply IH.
Qed.

Lemma mapping_get_absent augmented_df x d :
  ~ In x (map fst augmented_df) -> mapping_get augmented_df x d = d.
Proof.
  revert d. induction augmented_df as [|[aug orig] t IH]; intros d Hx; simpl;
    [reflexivity|].
  simpl in Hx. destruct (String.eqb_spec aug x) as [E|_]; [tauto|].
  apply IH. tauto.
Qed.

Lemma build_rows_nth augmented_df files : forall i0 i f,
  nth_error files i = Some f ->
  nth_error (build_rows augmented_df files i0) i
  = Some (mkRow f (i0 + i) (mapping_get augmented_df f f) (determine_source f)).
Proof.
  induction files as [|g t IH]; intros i0 i f Hf; [destruct i; discriminate|].
  destruct i as [|i]; simpl in *.
  - injection Hf as ->. now rewrite Nat.add_0_r.
  - rewrite (IH (S i0) i f Hf).
    replace (i0 + S i)%nat with (S i0 + i)%nat by lia. reflexivity.
Qed.

Lemma unique_In x l : In x (unique l) <-> In x l.
Proof.
  induction l as [|y t IH]; simpl; [tauto|].
  rewrite filter_In, IH. destruct (String.eqb_spec x y) as [->|Hne]; simpl.
  - intuition.
  - intuition congruence.
Qed.

Lemma unique_NoDup l : NoDup (unique l).
Proof.
  induction l as [|y t IH]; simpl; constructor.
  - rewrite filter_In, String.eqb_refl. simpl. intros [_ H]. discriminate.
  - now apply NoDup_filter.
Qed.

Lemma matches_images_In df q :
  In q (matches_images df) <->
  exists r, In r df /\ source r = "matches" /\ original_image r = q.
Proof.
  unfold matches_images. rewrite unique_In, in_map_iff. split.
  - intros (r & <- & Hr). apply filter_In in Hr as [Hr Hs].
    apply String.eqb_eq in Hs. eauto.
  - intros (r & Hr & Hs & <-). exists r. split; [reflexivity|].
    apply filter_In. split; [assumption|]. now apply String.eqb_eq.
Qed.

Lemma matches_images_have_embedding df q :
  In q (matches_images df) -> has_embedding df q = true.
Proof.
  intros H. apply matches_images_In in H as (r & Hr & _ & <-).
  unfold has_embedding. apply existsb_exists. exists r.
  split; [assumption | apply String.eqb_refl].
Qed.

Lemma matches_images_counted df q :
  In q (matches_images df) ->
  (1 <= Counting.count (counts_as_match q) df)%nat.
Proof.
  intros H. apply matches_images_In in H as (r & Hr & Hs & <-).
  unfold Counting.count.
  assert (Hin : In r (filter (counts_as_match (original_image r)) df)).
  { apply filter_In. split; [assumption|]. unfold counts_as_match.
    rewrite startswith_split_first. simpl. now apply String.eqb_eq. }
  destruct (filter _ df); [inversion Hin | simpl; lia].
Qed.

End EvaluationTable.

(** X8: the table of step 4, before the captions are merged in, has one
    row per entry of [image_files], at the same position.  Row [i] carries
    the index [i], the source
    [determine_source] gives its file name, and as original image what the
    mapping dictionary holds for the file name: the file name itself when
    the mapping table has no row for it, and the original of the last
    such row when it has several. *)
Theorem build_df_rows (augmented_df : list (string * string))
    (image_files : list string) :
  List.length (Evaluation.build_df augmented_df image_files)
  = List.length image_files
  /\ forall i f,
       nth_error image_files i = Some f ->
       exists r,
         nth_error (Evaluation.build_df augmented_df image_files) i = Some r
         /\ Evaluation.image_file r = f
         /\ Evaluation.embedding_index r = i
         /\ Evaluation.source r = determine_source f
         /\ (~ In f (map fst augmented_df) -> Evaluation.original_image r = f)
         /\ (forall before orig after,
                augmented_df = (before ++ (f, orig) :: after)%list ->
                ~ In f (map fst after) ->
                Evaluation.original_image r = orig).
Proof.
  split; [apply evaluation_build_df_length|].
  intros i f Hf. unfold Evaluation.build_df.
  rewrite (build_rows_nth augmented_df image_files 0 i f Hf).
  eexists. split; [reflexivity|]. cbn. repeat split.
  - intros Hx. now apply mapping_get_absent.
  - intros before orig after -> Hx.
    rewrite mapping_get_app. cbn [Evaluation.mapping_get].
    rewrite String.eqb_refl. now apply mapping_get_absent.
Qed.

Section EvaluationRun.
Import Evaluation.

Variable augmented_df : list (string * string).
Variable image_files : list string.
Variable embeddings : list vec.
Hypothesis co_indexed : List.length image_files = List.length embeddings.

Let df := build_df augmented_df image_files.
Let row_of := EvaluationRows.row_of df embeddings.

Lemma evaluate_query_row q :
  has_embedding df q = true ->
  exists row,
    row_of q row
    /\ forall st, evaluate_query df embeddings st q
                  = Some (mkState (stdout st) (evaluation_results st ++ [row])).
Proof.
  intros Hhas. apply has_embedding_true in Hhas as (idx & rest & Hq).
  destruct (query_row augmented_df image_files embeddings co_indexed
              q idx rest Hq) as (r & qe & Hr & _ & Hqe).
  fold df in Hr.
  assert (Hne : df <> [])
    by (intros E; rewrite E in Hr; destruct idx; discriminate).
  destruct (non_empty_last df Hne) as (init & last_row & Edf).
  destruct (take_search init last_row embeddings qe 10)
    as (ps & rows & Hps & _ & Hrows & _ & Htake).
  { rewrite <- Edf. unfold df. rewrite evaluation_build_df_length.
    exact co_indexed. }
  rewrite <- Edf in Htake.
  set (retrieved := (rows ++ repeat last_row (10 - List.length embeddings))%list)
    in *.
  eexists. split.
  - exists retrieved. split; [|split; [|reflexivity]].
    + unfold retrieved. rewrite length_app, repeat_length.
      rewrite <- (Forall2_length Hrows), Hps. lia.
    + intros _. now exists qe.
  - intros st. unfold evaluate_query. fold df. rewrite Hq, Hqe, Htake.
    destruct (evaluate_retrieval df q retrieved) as [[found total] acc].
    reflexivity.
Qed.

Lemma evaluation_loop_rows queries :
  Forall (fun q => has_embedding df q = true) queries ->
  forall st,
  exists rows,
    evaluation_loop df embeddings queries st
    = Some (mkState (stdout st) (evaluation_results st ++ rows))
    /\ Forall2 row_of queries rows.
Proof.
  induction 1 as [|q rest Hq _ IH]; intros st; simpl.
  - exists []. rewrite app_nil_r. destruct st. split; [reflexivity | constructor].
  - destruct (evaluate_query_row q Hq) as (row & Hrow & Hev). rewrite Hev. simpl.
    destruct (IH (mkState (stdout st) (evaluation_results st ++ [row])))
      as (rows & -> & Hrows).
    exists (row :: rows). simpl. rewrite <- app_assoc. simpl.
    split; [reflexivity | now constructor].
Qed.

Lemma evaluation_df_rows :
  exists rows,
    evaluation_df df embeddings = Some (mkState [] rows)
    /\ Forall2 row_of (matches_images df) rows.
Proof.
  destruct (evaluation_loop_rows (matches_images df)) with (st := mkState [] [])
    as (rows & Hrun & Hrows).
  { apply Forall_forall. intros q. apply matches_images_have_embedding. }
  exists rows. split; assumption.
Qed.

Lemma row_of_queried q row : row_of q row -> queried_image row = q.
Proof. intros (retrieved & _ & _ & ->). reflexivity. Qed.

End EvaluationRun.

Section EvaluationRunFacts.
Import Evaluation.

Lemma Forall2_Forall_r {A B} (R : A -> B -> Prop) (Q : B -> Prop) l l' :
  Forall2 R l l' ->
  (forall x y, In x l -> R x y -> Q y) ->
  Forall Q l'.
Proof.
  induction 1 as [|a b l l' Hab _ IH]; intros H; constructor.
  - apply (H a b); [now left | assumption].
  - apply IH. intros x y Hx. apply H. now right.
Qed.

Lemma Forall2_map_r {A B} (R : A -> B -> Prop) (f : B -> A) l l' :
  Forall2 R l l' -> (forall x y, R x y -> f y = x) -> map f l' = l.
Proof.
  induction 1 as [|a b l l' Hab _ IH]; intros H; simpl; [reflexivity|].
  rewrite (H a b Hab), IH; auto.
Qed.

Lemma has_embedding_In df q :
  has_embedding df q = true <-> In q (map original_image df).
Proof.
  unfold has_embedding. rewrite existsb_exists, in_map_iff.
  split; intros (r & H1 & H2).
  - apply String.eqb_eq in H2. eauto.
  - exists r. split; [assumption|]. now apply String.eqb_eq.
Qed.

Lemma drop_duplicates_incl l x : In x (drop_duplicates l) -> In x l.
Proof.
  revert x. induction l as [|y t IH]; intros x; simpl; [tauto|].
  intros [E | H]; [now left|]. right. apply IH.
  apply filter_In in H. tauto.
Qed.

End EvaluationRunFacts.

(** X9: in step 11 the branch that reports a missing embedding and skips
    the query is never taken: the queries are read off the table itself.
    On a table that has as many rows as there are embeddings the loop
    prints nothing and returns one row per query, in the order of the
    queries; the queries are the original images of the rows whose source
    is 'matches', each once; and every row reports at least one available
    match, so no accuracy is the 0 of the guard against division by
    zero. *)
Theorem evaluation_run_never_skips
    (augmented_df : list (string * string)) (image_files : list string)
    (embeddings : list vec) :
  List.length image_files = List.length embeddings ->
  exists rows,
    Evaluation.evaluation_df (Evaluation.build_df augmented_df image_files)
      embeddings
    = Some (Evaluation.mkState [] rows)
    /\ map Evaluation.queried_image rows
       = Evaluation.matches_images (Evaluation.build_df augmented_df image_files)
    /\ NoDup (map Evaluation.queried_image rows)
    /\ (forall q,
           In q (map Evaluation.queried_image rows) <->
           exists r,
             In r (Evaluation.build_df augmented_df image_files)
             /\ Evaluation.source r = "matches"
             /\ Evaluation.original_image r = q)
    /\ Forall (fun row => (1 <= Evaluation.total_available_matches row)%nat) rows.
Proof.
  intros Hlen.
  destruct (evaluation_df_rows augmented_df image_files embeddings Hlen)
    as (rows & Hrun & Hrows).
  assert (Hq : map Evaluation.queried_image rows
               = Evaluation.matches_images
                   (Evaluation.build_df augmented_df image_files)).
  { eapply Forall2_map_r; [exact Hrows|].
    intros q row Hrow. eapply row_of_queried. exact Hrow. }
  exists rows. split; [exact Hrun|]. split; [exact Hq|]. rewrite Hq.
  split; [apply unique_NoDup|]. split; [apply matches_images_In|].
  eapply Forall2_Forall_r; [exact Hrows|].
  intros q row Hin (retrieved & _ & _ & ->). cbn [Evaluation.total_available_matches].
  rewrite evaluate_retrieval_counts. cbn [fst snd].
  now apply matches_images_counted.
Qed.

Lemma evaluation_run_never_skips_witness :
  exists rows,
    Evaluation.evaluation_df (Evaluation.build_df [] Sample.ten_files)
      Sample.ten_embeddings
    = Some (Evaluation.mkState [] rows)
    /\ map Evaluation.queried_image rows
       = Evaluation.matches_images (Evaluation.build_df [] Sample.ten_files)
    /\ NoDup (map Evaluation.queried_image rows)
    /\ (forall q,
           In q (map Evaluation.queried_image rows) <->
           exists r,
             In r (Evaluation.build_df [] Sample.ten_files)
             /\ Evaluation.source r = "matches"
             /\ Evaluation.original_image r = q)
    /\ Forall (fun row => (1 <= Evaluation.total_available_matches row)%nat) rows.
Proof.
  apply (evaluation_run_never_skips [] Sample.ten_files Sample.ten_embeddings).
  reflexivity.
Defined.

(** X10: when the index holds at least ten vectors, every row of the
    table of step 11 has found no more matches than it reports available,
    and its accuracy is their exact ratio, between 0 and 1. *)
Theorem evaluation_accuracy_is_a_ratio
    (augmented_df : list (string * string)) (image_files : list string)
    (embeddings : list vec) :
  List.length image_files = List.length embeddings ->
  (10 <= List.length embeddings)%nat ->
  exists rows,
    Evaluation.evaluation_df (Evaluation.build_df augmented_df image_files)
      embeddings
    = Some (Evaluation.mkState [] rows)
    /\ Forall (fun row =>
                 (Evaluation.number_of_matches_found row
                  <= Evaluation.total_available_matches row)%nat
                 /\ 0 <= Evaluation.match_accuracy row <= 1
                 /\ Evaluation.match_accuracy row
                    * inject_Z (Z.of_nat (Evaluation.total_available_matches row))
                    == inject_Z (Z.of_nat (Evaluation.number_of_matches_found row)))
              rows.
Proof.
  intros Hlen Hten.
  destruct (evaluation_df_rows augmented_df image_files embeddings Hlen)
    as (rows & Hrun & Hrows).
  exists rows. split; [exact Hrun|].
  eapply Forall2_Forall_r; [exact Hrows|].
  intros q row Hin (retrieved & _ & Htake & ->).
  destruct (Htake Hten) as (qe & Hqe).
  cbn [Evaluation.number_of_matches_found Evaluation.total_available_matches
       Evaluation.match_accuracy].
  destruct (accuracy_within_size _ embeddings qe 10 q retrieved
              (eq_trans (evaluation_build_df_length _ _) Hlen) Hten Hqe)
    as [Hle Hacc].
  split; [exact Hle|]. split; [exact Hacc|].
  pose proof (matches_images_counted _ _ Hin) as Hone.
  rewrite evaluate_retrieval_counts in *. cbn [fst snd] in *.
  destruct (Nat.ltb_spec 0
              (Counting.count (Evaluation.counts_as_match q)
                 (Evaluation.build_df augmented_df image_files))) as [Hpos|Hz];
    [|lia].
  field. intros E.
  assert (Hz : (0 < Z.of_nat (Counting.count (Evaluation.counts_as_match q)
                      (Evaluation.build_df augmented_df image_files)))%Z) by lia.
  unfold Qeq, inject_Z in E. simpl in E. lia.
Qed.

Lemma evaluation_accuracy_is_a_ratio_witness :
  exists rows,
    Evaluation.evaluation_df (Evaluation.build_df [] Sample.ten_files)
      Sample.ten_embeddings
    = Some (Evaluation.mkState [] rows)
    /\ Forall (fun row =>
                 (Evaluation.number_of_matches_found row
                  <= Evaluation.total_available_matches row)%nat
                 /\ 0 <= Evaluation.match_accuracy row <= 1
                 /\ Evaluation.match_accuracy row
                    * inject_Z (Z.of_nat (Evaluation.total_available_matches row))
                    == inject_Z (Z.of_nat (Evaluation.number_of_matches_found row)))
              rows.
Proof.
  apply (evaluation_accuracy_is_a_ratio [] Sample.ten_files Sample.ten_embeddings).
  - reflexivity.
  - simpl. lia.
Defined.

Section RetrieveAndDisplay.
Import Evaluation.

Variable augmented_df : list (string * string).
Variable image_files : list string.
Variable embeddings : list vec.
Hypothesis co_indexed : List.length image_files = List.length embeddings.

Let df := build_df augmented_df image_files.

Lemma retrieve_and_display_asserts q :
  has_embedding df q = true ->
  retrieve_and_display df embeddings q 0 = None.
Proof.
  intros Hhas. apply has_embedding_true in Hhas as (idx & rest & Hq).
  destruct (query_row augmented_df image_files embeddings co_indexed
              q idx rest Hq) as (r & qe & _ & _ & Hqe).
  unfold retrieve_and_display. fold df. now rewrite Hq, Hqe.
Qed.

Lemma retrieve_and_display_total q top_k :
  (1 <= top_k)%nat ->
  has_embedding df q = true ->
  exists idx rest query_row rows,
    query_indices df q = idx :: rest
    /\ nth_error df idx = Some query_row
    /\ original_image query_row = q
    /\ retrieve_and_display df embeddings q top_k = Some (inr rows)
    /\ (List.length rows <= top_k)%nat
    /\ (forall r, In r rows -> In r df)
    /\ In query_row rows.
Proof.
  intros Hk Hhas. apply has_embedding_true in Hhas as (idx & rest & Hq).
  destruct (query_row augmented_df image_files embeddings co_indexed
              q idx rest Hq) as (r & qe & Hr & Horig & Hqe).
  fold df in Hr.
  assert (Hne : df <> [])
    by (intros E; rewrite E in Hr; destruct idx; discriminate).
  destruct (non_empty_last df Hne) as (init & last_row & Edf).
  destruct (take_search init last_row embeddings qe top_k)
    as (ps & rows & Hps & _ & Hrows & HI & Htake).
  { rewrite <- Edf. unfold df. rewrite evaluation_build_df_length.
    exact co_indexed. }
  rewrite <- Edf in Htake, Hrows.
  set (retrieved := (rows ++ repeat last_row (top_k - List.length embeddings))%list)
    in *.
  exists idx, rest, r.
  unfold retrieve_and_display. rewrite Hq, Hqe.
  rewrite index_search_positive by lia. cbv beta iota zeta. rewrite Htake.
  destruct (existsb (Z.eqb (Z.of_nat idx))
              (snd (Faiss.search embeddings qe top_k))) eqn:Hex.
  - exists retrieved. repeat split; auto.
    + unfold retrieved. rewrite length_app, repeat_length.
      rewrite <- (Forall2_length Hrows), Hps. lia.
    + apply (take_In _ _ _ Htake).
    + apply existsb_exists in Hex as (x & Hx & Ex).
      apply Z.eqb_eq in Ex. subst x. rewrite HI in Hx.
      apply in_app_or in Hx as [Hx | Hx].
      * apply in_map_iff in Hx as (p & Ep & Hp).
        apply Nat2Z.inj in Ep. subst p.
        destruct (Forall2_In_l _ _ _ _ Hrows Hp) as (y & Hy & Ey).
        rewrite Hr in Ey. injection Ey as <-.
        unfold retrieved. apply in_or_app. now left.
      * apply repeat_spec in Hx. lia.
  - rewrite Hr.
    exists (firstn top_k (drop_duplicates (r :: retrieved))).
    repeat split; auto.
    + apply firstn_le_length.
    + intros x Hx. apply firstn_incl in Hx. apply drop_duplicates_incl in Hx.
      destruct Hx as [<- | Hx].
      * eapply nth_error_In; eassumption.
      * apply (take_In _ _ _ Htake _ Hx).
    + destruct top_k as [|k]; [lia|]. simpl. now left.
Qed.

End RetrieveAndDisplay.

(** X11: on a table that has as many rows as there are embeddings,
    [retrieve_and_display] prints the message and returns nothing exactly
    when no row has the query as original image, whatever [top_k] is.
    For a query that has a row it raises exactly when [top_k] is 0 (the
    assertion of [index.search]); for every other [top_k] it returns at
    most [top_k] rows of the table, among them the first row of the
    query, the one whose embedding was searched for. *)
Theorem retrieve_and_display_returns
    (augmented_df : list (string * string)) (image_files : list string)
    (embeddings : list vec) (query_image_name : string) (top_k : nat) :
  List.length image_files = List.length embeddings ->
  let df := Evaluation.build_df augmented_df image_files in
  (Evaluation.retrieve_and_display df embeddings query_image_name top_k
   = Some (inl (Evaluation.no_embeddings_msg query_image_name))
   <-> ~ In query_image_name (map Evaluation.original_image df))
  /\ (In query_image_name (map Evaluation.original_image df) ->
      (Evaluation.retrieve_and_display df embeddings query_image_name top_k
       = None
       <-> top_k = 0%nat)
      /\ ((1 <= top_k)%nat ->
          exists rows query_row,
            Evaluation.retrieve_and_display df embeddings query_image_name
              top_k
            = Some (inr rows)
            /\ (List.length rows <= top_k)%nat
            /\ (forall r, In r rows -> In r df)
            /\ Evaluation.original_image query_row = query_image_name
            /\ In query_row rows)).
Proof.
  intros Hlen df.
  assert (Hsome : In query_image_name (map Evaluation.original_image df) ->
      (1 <= top_k)%nat ->
      exists rows query_row,
        Evaluation.retrieve_and_display df embeddings query_image_name top_k
        = Some (inr rows)
        /\ (List.length rows <= top_k)%nat
        /\ (forall r, In r rows -> In r df)
        /\ Evaluation.original_image query_row = query_image_name
        /\ In query_row rows).
  { intros Hin Hk. apply has_embedding_In in Hin.
    destruct (retrieve_and_display_total augmented_df image_files embeddings
                Hlen query_image_name top_k Hk Hin)
      as (idx & rest & qrow & rows & _ & _ & Ho & Hrun & Hle & Hsub & Hq).
    exists rows, qrow. auto. }
  assert (Hzero : In query_image_name (map Evaluation.original_image df) ->
      Evaluation.retrieve_and_display df embeddings query_image_name 0 = None).
  { intros Hin. apply has_embedding_In in Hin.
    now apply retrieve_and_display_asserts. }
  split; [split|].
  - intros Hrun Hin. destruct top_k as [|k].
    + rewrite (Hzero Hin) in Hrun. discriminate.
    + destruct (Hsome Hin) as (rows & qrow & Hrun' & _); [lia|].
      rewrite Hrun in Hrun'. discriminate.
  - intros Hnot.
    assert (Hno : Evaluation.has_embedding df query_image_name = false).
    { destruct (Evaluation.has_embedding df query_image_name) eqn:E;
        [|reflexivity].
      exfalso. apply Hnot, has_embedding_In. exact E. }
    apply has_embedding_false in Hno.
    unfold Evaluation.retrieve_and_display. now rewrite Hno.
  - intros Hin. split; [split|].
    + intros Hrun. destruct top_k as [|k]; [reflexivity|].
      destruct (Hsome Hin) as (rows & qrow & Hrun' & _); [lia|].
      rewrite Hrun in Hrun'. discriminate.
    + intros ->. now apply Hzero.
    + now apply Hsome.
Qed.

Lemma retrieve_and_display_returns_witness :
  let df := Evaluation.build_df [] Sample.ten_files in
  (Evaluation.retrieve_and_display df Sample.ten_embeddings "2000_02.jpg" 3
   = Some (inl (Evaluation.no_embeddings_msg "2000_02.jpg"))
   <-> ~ In "2000_02.jpg" (map Evaluation.original_image df))
  /\ (In "2000_02.jpg" (map Evaluation.original_image df) ->
      (Evaluation.retrieve_and_display df Sample.ten_embeddings "2000_02.jpg" 3
       = None
       <-> 3%nat = 0%nat)
      /\ ((1 <= 3)%nat ->
          exists rows query_row,
            Evaluation.retrieve_and_display df Sample.ten_embeddings
              "2000_02.jpg" 3
            = Some (inr rows)
            /\ (List.length rows <= 3)%nat
            /\ (forall r, In r rows -> In r df)
            /\ Evaluation.original_image query_row = "2000_02.jpg"
            /\ In query_row rows)).
Proof.
  apply (retrieve_and_display_returns [] Sample.ten_files Sample.ten_embeddings
           "2000_02.jpg" 3).
  reflexivity.
Defined.

(** ** The figures *)

Section DisplayFacts.
Import Display.

Lemma subplot_rows_grid n cols rows :
  subplot_rows n cols = Some rows ->
  (0 < cols)%nat
  /\ (n <= rows * cols)%nat
  /\ ((0 < n)%nat -> ((rows - 1) * cols < n)%nat)
  /\ (n = 0%nat -> rows = 0%nat).
Proof.
  unfold subplot_rows. destruct (Nat.eqb_spec cols 0) as [|Hc]; [discriminate|].
  intros [= <-].
  pose proof (Nat.div_mod_eq n cols) as Hdm.
  pose proof (Nat.mod_upper_bound n cols Hc) as Hm.
  destruct (Nat.eqb_spec (n mod cols) 0) as [Hz|Hnz];
    repeat split; try lia; try nia;
    intros ->;
    first [rewrite Nat.Div0.div_0_l; lia | rewrite Nat.Div0.mod_0_l in Hnz; lia].
Qed.

Lemma draw_some rows cols titles captions : forall paths idx,
  (idx + List.length paths <= rows * cols)%nat ->
  titles = [] \/ (idx + List.length paths <= List.length titles)%nat ->
  captions = [] \/ (idx + List.length paths <= List.length captions)%nat ->
  exists panels,
    draw rows cols titles captions idx paths = Some panels
    /\ map subplot_index panels = seq (idx + 1) (List.length paths)
    /\ map img_path panels = paths.
Proof.
  induction paths as [|p t IH]; intros idx Hg Ht Hc; cbn [draw].
  - exists []. auto.
  - cbn [List.length] in Hg, Ht, Hc.
    destruct (Nat.leb_spec (idx + 1) (rows * cols)) as [_|Hbad]; [|lia].
    assert (Htitle : exists title,
               match titles with
               | [] => Some ""
               | _ :: _ => nth_error titles idx
               end = Some title).
    { destruct titles as [|x xs]; [eauto|].
      destruct Ht as [E|Ht]; [discriminate|].
      destruct (nth_error (x :: xs) idx) eqn:E; [eauto|].
      apply nth_error_None in E. lia. }
    assert (Hcaption : exists caption,
               match captions with
               | [] => Some ""
               | _ :: _ => option_map fmt (nth_error captions idx)
               end = Some caption).
    { destruct captions as [|x xs]; [eauto|].
      destruct Hc as [E|Hc]; [discriminate|].
      destruct (nth_error (x :: xs) idx) eqn:E; [simpl; eauto|].
      apply nth_error_None in E. lia. }
    destruct Htitle as [title ->]. destruct Hcaption as [caption ->].
    destruct (IH (S idx)) as (panels & -> & Hi & Hp).
    + lia.
    + destruct Ht; [now left | right; lia].
    + destruct Hc; [now left | right; lia].
    + eexists. split; [reflexivity|]. cbn [map subplot_index img_path seq List.length].
      rewrite Hi, Hp. replace (S idx + 1)%nat with (S (idx + 1)) by lia. auto.
Qed.

Lemma draw_short_titles rows cols titles captions : forall paths idx,
  titles <> [] ->
  (idx <= List.length titles)%nat ->
  (List.length titles < idx + List.length paths)%nat ->
  draw rows cols titles captions idx paths = None.
Proof.
  induction paths as [|p t IH]; intros idx Hne Hle Hlt; cbn [draw List.length] in *;
    [lia|].
  destruct (idx + 1 <=? rows * cols)%nat; [|reflexivity].
  destruct titles as [|x xs]; [congruence|].
  destruct (nth_error (x :: xs) idx) as [title|] eqn:E; [|reflexivity].
  assert (idx < List.length (x :: xs))%nat by (apply nth_error_Some; congruence).
  rewrite IH; [|assumption|lia|lia].
  destruct captions as [|c cs]; [reflexivity|].
  destruct (option_map fmt (nth_error (c :: cs) idx)); reflexivity.
Qed.

Lemma draw_short_captions rows cols titles captions : forall paths idx,
  captions <> [] ->
  (idx <= List.length captions)%nat ->
  (List.length captions < idx + List.length paths)%nat ->
  draw rows cols titles captions idx paths = None.
Proof.
  induction paths as [|p t IH]; intros idx Hne Hle Hlt; cbn [draw List.length] in *;
    [lia|].
  destruct (idx + 1 <=? rows * cols)%nat; [|reflexivity].
  destruct captions as [|c cs]; [congruence|].
  destruct (nth_error (c :: cs) idx) as [caption|] eqn:E.
  - assert (idx < List.length (c :: cs))%nat by (apply nth_error_Some; congruence).
    rewrite IH; [|assumption|lia|lia].
    destruct titles as [|x xs]; [reflexivity|].
    destruct (nth_error (x :: xs) idx); reflexivity.
  - destruct titles as [|x xs]; [reflexivity|].
    destruct (nth_error (x :: xs) idx); reflexivity.
Qed.

Lemma display_images_some paths titles captions cols :
  (0 < cols)%nat ->
  titles = [] \/ (List.length paths <= List.length titles)%nat ->
  captions = [] \/ (List.length paths <= List.length captions)%nat ->
  exists rows panels,
    display_images paths titles captions cols = Some (rows, panels)
    /\ subplot_rows (List.length paths) cols = Some rows
    /\ map subplot_index panels = seq 1 (List.length paths)
    /\ map img_path panels = paths.
Proof.
  intros Hcols Ht Hc. unfold display_images.
  destruct (subplot_rows (List.length paths) cols) as [rows|] eqn:Hrows.
  - destruct (subplot_rows_grid _ _ _ Hrows) as (_ & Hgrid & _).
    destruct (draw_some rows cols titles captions paths 0)
      as (panels & -> & Hi & Hp); auto.
    exists rows, panels. auto.
  - unfold subplot_rows in Hrows.
    destruct (Nat.eqb_spec cols 0); [lia | discriminate].
Qed.


Lemma map_length_eq {A B} (f : A -> B) l l' :
  map f l = l' -> List.length l = List.length l'.
Proof. intros <-. now rewrite length_map. Qed.

End DisplayFacts.

(** X12: [display_images] raises exactly when [cols] is 0 or a list of
    titles or captions that is not empty is shorter than the list of
    images.  Otherwise it draws every image, in order, in the subplots
    1, 2, ... of a grid that holds them all and has no empty row: the
    subplot index never leaves the grid. *)
Theorem display_images_grid (image_paths titles : list string)
    (captions : list Display.cell) (cols : nat) :
  (Display.display_images image_paths titles captions cols = None
   <-> cols = 0%nat
       \/ (titles <> [] /\ (List.length titles < List.length image_paths)%nat)
       \/ (captions <> [] /\ (List.length captions < List.length image_paths)%nat))
  /\ (forall rows panels,
         Display.display_images image_paths titles captions cols
         = Some (rows, panels) ->
         (List.length image_paths <= rows * cols)%nat
         /\ ((0 < List.length image_paths)%nat ->
             ((rows - 1) * cols < List.length image_paths)%nat)
         /\ map Display.subplot_index panels = seq 1 (List.length image_paths)
         /\ map Display.img_path panels = image_paths).
Proof.
  set (n := List.length image_paths).
  assert (Ht : (titles = [] \/ (n <= List.length titles)%nat)
               \/ (titles <> [] /\ (List.length titles < n)%nat)).
  { destruct titles as [|x xs]; [now left; left|].
    destruct (le_lt_dec n (List.length (x :: xs)));
      [left; right | right; split]; auto; discriminate. }
  assert (Hc : (captions = [] \/ (n <= List.length captions)%nat)
               \/ (captions <> [] /\ (List.length captions < n)%nat)).
  { destruct captions as [|x xs]; [now left; left|].
    destruct (le_lt_dec n (List.length (x :: xs)));
      [left; right | right; split]; auto; discriminate. }
  destruct (Nat.eq_dec cols 0) as [-> | Hcols].
  { split; [split; auto | intros rows panels H; discriminate]. }
  assert (Hnone : forall rows,
             Display.subplot_rows n cols = Some rows ->
             Display.draw rows cols titles captions 0 image_paths = None ->
             Display.display_images image_paths titles captions cols = None).
  { intros rows Hr Hd. unfold Display.display_images. fold n. now rewrite Hr, Hd. }
  assert (Hrows : exists rows, Display.subplot_rows n cols = Some rows).
  { unfold Display.subplot_rows.
    destruct (Nat.eqb_spec cols 0); [contradiction | eauto]. }
  destruct Hrows as [rows0 Hrows0].
  destruct Ht as [Ht | [Htne Htlt]].
  - destruct Hc as [Hc | [Hcne Hclt]].
    + destruct (display_images_some image_paths titles captions cols)
        as (rows & panels & Hrun & Hrows & Hi & Hp); auto; [lia|].
      destruct (subplot_rows_grid _ _ _ Hrows) as (_ & Hg1 & Hg2 & _).
      split.
      * rewrite Hrun. split; [discriminate|].
        intros [E | [[Hne Hlt] | [Hne Hlt]]]; [contradiction | |].
        -- destruct Ht; [contradiction | fold n in Hlt; lia].
        -- destruct Hc; [contradiction | fold n in Hlt; lia].
      * intros rows' panels' H. rewrite Hrun in H. injection H as <- <-.
        fold n in Hg1, Hg2, Hi. auto.
    + assert (Hrun : Display.display_images image_paths titles captions cols = None).
      { apply (Hnone rows0 Hrows0).
        apply draw_short_captions; [assumption | lia | fold n; lia]. }
      rewrite Hrun. split; [split; auto | intros rows panels H; discriminate].
  - assert (Hrun : Display.display_images image_paths titles captions cols = None).
    { apply (Hnone rows0 Hrows0).
      apply draw_short_titles; [assumption | lia | fold n; lia]. }
    rewrite Hrun. split; [split; auto | intros rows panels H; discriminate].
Qed.

Section RetrievalFigure.
Import Evaluation Display.




End RetrievalFigure.



Section ClusterFigures.
Import Display.

Lemma labels_below_succ labels k :
  List.length (filter (fun l => l <? S k)%nat labels)
  = (List.length (filter (fun l => l <? k)%nat labels)
     + List.length (filter (fun l => l =? k)%nat labels))%nat.
Proof.
  induction labels as [|l t IH]; simpl; [reflexivity|].
  destruct (Nat.ltb_spec l (S k)), (Nat.ltb_spec l k), (Nat.eqb_spec l k);
    simpl; lia.
Qed.

Lemma cluster_images_length files : forall labels c,
  List.length labels = List.length files ->
  List.length (cluster_images files labels c)
  = List.length (filter (fun l => l =? c)%nat labels).
Proof.
  unfold cluster_images.
  induction files as [|f t IH]; intros [|l ls] c Hlen; try discriminate;
    [reflexivity|].
  simpl in *. injection Hlen as Hlen. specialize (IH ls c Hlen).
  rewrite length_map in *. destruct (l =? c)%nat; simpl; now rewrite IH.
Qed.

Lemma cluster_sizes_sum files labels k :
  List.length labels = List.length files ->
  list_sum (map (fun c => List.length (cluster_images files labels c)) (seq 0 k))
  = List.length (filter (fun l => l <? k)%nat labels).
Proof.
  intros Hlen. induction k as [|k IH].
  - clear Hlen. induction labels as [|l t IHl]; [reflexivity | exact IHl].
  - rewrite seq_S, map_app, list_sum_app, IH, labels_below_succ. simpl.
    rewrite cluster_images_length by assumption. lia.
Qed.

Lemma display_cluster_images_some pick files labels c m :
  (forall pop size, (size <= List.length pop)%nat ->
                    List.length (pick pop size) = size) ->
  exists shown,
    display_cluster_images pick files labels c m = Some shown
    /\ match shown with
       | inl _ => List.length (cluster_images files labels c) = 0%nat
       | inr (rows, panels) =>
           (0 < List.length (cluster_images files labels c))%nat
           /\ List.length panels
              = Nat.min m (List.length (cluster_images files labels c))
           /\ subplot_rows
                (Nat.min m (List.length (cluster_images files labels c))) 3
              = Some rows
       end.
Proof.
  intros Hpick. unfold display_cluster_images. cbv zeta.
  set (members := cluster_images files labels c).
  destruct (Nat.eqb_spec (List.length members) 0) as [Hz|Hnz]; [eauto|].
  unfold random_choice.
  destruct (Nat.leb_spec (Nat.min m (List.length members)) (List.length members))
    as [Hle|Hgt]; [|lia].
  set (sample_images := pick members (Nat.min m (List.length members))).
  assert (Hsample : List.length sample_images
                    = Nat.min m (List.length members))
    by (apply Hpick; lia).
  destruct (display_images_some
              (map (Generation.path_join combined_dataset) sample_images)
              (map (fun img_file => "Cluster " ++ dec c ++ ": " ++ img_file)
                   sample_images)
              [] 3)
    as (rows & panels & Hrun & Hrows & _ & Hp).
  - lia.
  - right. now rewrite !length_map.
  - now left.
  - rewrite Hrun. eexists. split; [reflexivity|]. cbv beta iota.
    rewrite length_map, Hsample in Hrows.
    apply map_length_eq in Hp. rewrite length_map, Hsample in Hp.
    repeat split; auto. lia.
Qed.

End ClusterFigures.

(** X14: step 10 never raises when every row has a cluster label, whatever
    images the random draw picks.  It handles the clusters 0, 1, ... in
    order; the sizes it prints add up to the number of rows whose label is
    below [num_clusters]; an empty cluster gets the message and no
    figure, and any other cluster a figure of [min(5, size)] images in
    one or two rows of three. *)
Theorem clusters_are_displayed (pick : list string -> nat -> list string)
    (image_files : list string) (cluster_labels : list nat)
    (num_clusters : nat) :
  List.length cluster_labels = List.length image_files ->
  (forall pop size, (size <= List.length pop)%nat ->
                    List.length (pick pop size) = size) ->
  exists shown,
    Display.display_clusters pick image_files cluster_labels num_clusters
    = Some shown
    /\ List.length shown = num_clusters
    /\ list_sum (map fst shown)
       = List.length (filter (fun l => l <? num_clusters)%nat cluster_labels)
    /\ Forall (fun p =>
                 match snd p with
                 | inl _ => fst p = 0%nat
                 | inr (rows, panels) =>
                     (0 < fst p)%nat
                     /\ List.length panels = Nat.min 5 (fst p)
                     /\ (rows = 1 \/ rows = 2)%nat
                 end)
              shown.
Proof.
  intros Hlen Hpick. unfold Display.display_clusters.
  rewrite Hlen, Nat.eqb_refl.
  set (size := fun c =>
         List.length (Display.cluster_images image_files cluster_labels c)).
  match goal with
  | |- context [mapM ?f _] =>
      destruct (mapM_total f (seq 0 num_clusters)) as [shown Hrun]
  end.
  { intros c _.
    destruct (display_cluster_images_some pick image_files cluster_labels c 5
                Hpick) as (s & -> & _). eauto. }
  exists shown. split; [exact Hrun|].
  apply mapM_Forall2 in Hrun.
  assert (Hsizes : map fst shown = map size (seq 0 num_clusters)).
  { clear - Hrun. induction Hrun as [|c p cs ps Hp _ IH]; [reflexivity|].
    simpl. rewrite IH. f_equal.
    destruct (Display.display_cluster_images _ _ _ _ _); [|discriminate].
    now injection Hp as <-. }
  split; [|split].
  - rewrite <- (Forall2_length Hrun). apply length_seq.
  - rewrite Hsizes. now apply cluster_sizes_sum.
  - eapply Forall2_Forall_r; [exact Hrun|].
    intros c p _ Hp. cbv beta in Hp.
    destruct (display_cluster_images_some pick image_files cluster_labels c 5
                Hpick) as (s & Hs & Hshape).
    rewrite Hs in Hp. injection Hp as <-. cbn [fst snd].
    destruct s as [msg | [rows panels]]; [exact Hshape|].
    destruct Hshape as (Hpos & Hpanels & Hrows).
    repeat split; auto.
    set (n := List.length (Display.cluster_images image_files cluster_labels c))
      in *.
    assert (Hn : (1 <= Nat.min 5 n <= 5)%nat) by lia.
    destruct (Nat.min 5 n) as [|[|[|[|[|[|k]]]]]]; try lia;
      injection Hrows as <-; cbn; auto.
Qed.

Lemma clusters_are_displayed_witness :
  exists shown,
    Display.display_clusters (fun pop size => firstn size pop)
      Sample.ten_files [0; 1; 0; 1; 1; 0; 0; 2; 0; 0]%nat 2
    = Some shown
    /\ List.length shown = 2%nat
    /\ list_sum (map fst shown)
       = List.length (filter (fun l => l <? 2)%nat
                             [0; 1; 0; 1; 1; 0; 0; 2; 0; 0]%nat)
    /\ Forall (fun p =>
                 match snd p with
                 | inl _ => fst p = 0%nat
                 | inr (rows, panels) =>
                     (0 < fst p)%nat
                     /\ List.length panels = Nat.min 5 (fst p)
                     /\ (rows = 1 \/ rows = 2)%nat
                 end)
              shown.
Proof.
  apply (clusters_are_displayed (fun pop size => firstn size pop)
           Sample.ten_files [0; 1; 0; 1; 1; 0; 0; 2; 0; 0]%nat 2).
  - reflexivity.
  - intros pop size Hle. now apply firstn_length_le.
Defined.

(** ** What the comparison notebook retrieves *)

Section ComparisonReturns.
Import Comparison Counting.

Lemma search_labels_length xb q k : List.length (snd (Faiss.search xb q k)) = k.
Proof. apply pad_length. Qed.

Lemma take_length {A} (l : list A) idxs rows :
  take l idxs = Some rows -> List.length rows = List.length idxs.
Proof.
  intros H. apply mapM_Forall2 in H. symmetry. eapply Forall2_length; eassumption.
Qed.

Lemma query_absent model embeddings image_files q top_k :
  ~ In q image_files ->
  retrieve_images_for_model model embeddings image_files q top_k
  = Some (inl (no_embeddings_msg model q)).
Proof.
  intros Hq. unfold retrieve_images_for_model. cbv zeta.
  destruct (map embedding_index
              (filter (fun r => String.eqb (image_file r) q)
                      (build_df image_files)))
    as [|idx rest] eqn:Hidx; [reflexivity|].
  exfalso. apply Hq.
  destruct (first_hit_position embedding_index _ (build_df image_files) idx rest
              (comparison_build_df_indexed _) Hidx) as (r & Hr & Ht & _).
  apply String.eqb_eq in Ht. subst q.
  rewrite <- (comparison_build_rows_files image_files 0).
  apply in_map. eapply nth_error_In. exact Hr.
Qed.

Lemma ratio_nonneg (found : nat) (total : Z) :
  (0 < total)%Z -> 0 <= inject_Z (Z.of_nat found) / inject_Z total.
Proof.
  intros Hpos. apply Qle_shift_div_l.
  - change 0 with (inject_Z 0). rewrite <- Zlt_Qlt. lia.
  - rewrite Qmult_0_l. change 0 with (inject_Z 0). rewrite <- Zle_Qle. lia.
Qed.

(** Rows fetched at distinct positions other than [idx] cannot satisfy a
    test more often than the rest of the table does. *)
Lemma count_distinct_others {A} (P : A -> bool) (l : list A) idx ps rows :
  NoDup ps -> ~ In idx ps ->
  Forall2 (fun p r => nth_error l p = Some r) ps rows ->
  (count P rows <= count_others P l idx)%nat.
Proof.
  intros Hnd Hidx Hrows. unfold count, count_others.
  set (Q := fun p => match nth_error l p with
                     | Some x => P x
                     | None => false
                     end).
  assert (E : List.length (filter P rows) = List.length (filter Q ps)).
  { clear Hnd Hidx. induction Hrows as [|p r ps' rows' Hp _ IH]; simpl;
      [reflexivity|].
    unfold Q at 1. rewrite Hp. destruct (P r); simpl; now rewrite IH. }
  rewrite E. apply NoDup_incl_length; [now apply NoDup_filter|].
  intros p Hp. apply filter_In in Hp as [Hp HQ]. apply filter_In. split.
  - apply in_seq. split; [lia|]. simpl.
    destruct (Forall2_In_l _ _ _ _ Hrows Hp) as (r & _ & Hr).
    apply nth_error_Some. congruence.
  - fold (Q p). rewrite HQ, Bool.andb_true_r. apply Bool.negb_true_iff.
    apply Nat.eqb_neq. intros ->. contradiction.
Qed.

Lemma take_naturals {A} (l : list A) ps rows :
  take l (map Z.of_nat ps) = Some rows ->
  Forall2 (fun p r => nth_error l p = Some r) ps rows.
Proof.
  unfold take. intros H. apply mapM_Forall2 in H.
  remember (map Z.of_nat ps) as zs eqn:Ez. revert ps Ez.
  induction H as [|z r zs' rows' Hz _ IH]; intros [|p ps'] Ez;
    try discriminate; constructor.
  - injection Ez as -> _. now rewrite getitem_nat in Hz.
  - apply IH. now injection Ez.
Qed.

End ComparisonReturns.

(** X15: on file names and embeddings of the same number,
    [retrieve_images_for_model] never raises.  It prints the message and
    returns [(None, None)] exactly when the query is not among the file
    names; otherwise it returns exactly [top_k] names, all of them file
    names of the table, an accuracy that is not negative, and at most
    [top_k] matches. *)
Theorem comparison_retrieval_returns (model : string) (embeddings : list vec)
    (image_files : list string) (query_image_name : string) (top_k : nat) :
  List.length image_files = List.length embeddings ->
  (Comparison.retrieve_images_for_model model embeddings image_files
     query_image_name top_k
   = Some (inl (Comparison.no_embeddings_msg model query_image_name))
   <-> ~ In query_image_name image_files)
  /\ (In query_image_name image_files ->
      exists r,
        Comparison.retrieve_images_for_model model embeddings image_files
          query_image_name top_k
        = Some (inr r)
        /\ List.length (Comparison.retrieved_images r) = top_k
        /\ (forall f, In f (Comparison.retrieved_images r) -> In f image_files)
        /\ (Comparison.num_matches_found r <= top_k)%nat
        /\ (0 <= Comparison.total_available_matches r)%Z
        /\ 0 <= Comparison.match_accuracy r).
Proof.
  intros Hlen.
  assert (Hsome : In query_image_name image_files ->
      exists r,
        Comparison.retrieve_images_for_model model embeddings image_files
          query_image_name top_k
        = Some (inr r)
        /\ List.length (Comparison.retrieved_images r) = top_k
        /\ (forall f, In f (Comparison.retrieved_images r) -> In f image_files)
        /\ (Comparison.num_matches_found r <= top_k)%nat
        /\ (0 <= Comparison.total_available_matches r)%Z
        /\ 0 <= Comparison.match_accuracy r).
  { intros Hq.
    destruct (retrieve_images_for_model_spec model embeddings image_files
                Hlen query_image_name top_k Hq)
      as (idx & qe & r & _ & _ & Hrun & Htake & Hfound & Htotal & Hacc).
    assert (Hk : List.length (Comparison.retrieved_images r) = top_k).
    { rewrite (take_length _ _ _ Htake). unfold Comparison.drop_first.
      pose proof (search_labels_length embeddings qe (top_k + 1)) as Hl.
      destruct (snd (Faiss.search embeddings qe (top_k + 1))); simpl in *; lia. }
    exists r. split; [exact Hrun|]. split; [exact Hk|].
    split; [apply (take_In _ _ _ Htake)|].
    split.
    { rewrite Hfound. unfold Counting.count. rewrite <- Hk.
      apply filter_length_le. }
    split; [lia|].
    rewrite Hacc.
    destruct (Z.ltb_spec 0 (Comparison.total_available_matches r)).
    - now apply ratio_nonneg.
    - apply Qle_refl. }
  split; [|exact Hsome]. split.
  - intros Hrun Hq. destruct (Hsome Hq) as (r & Hrun' & _).
    rewrite Hrun in Hrun'. discriminate.
  - apply query_absent.
Qed.

Lemma comparison_retrieval_returns_witness :
  (Comparison.retrieve_images_for_model "DINO" Sample.ten_embeddings
     Sample.ten_files "b.jpg" 3
   = Some (inl (Comparison.no_embeddings_msg "DINO" "b.jpg"))
   <-> ~ In "b.jpg" Sample.ten_files)
  /\ (In "b.jpg" Sample.ten_files ->
      exists r,
        Comparison.retrieve_images_for_model "DINO" Sample.ten_embeddings
          Sample.ten_files "b.jpg" 3
        = Some (inr r)
        /\ List.length (Comparison.retrieved_images r) = 3%nat
        /\ (forall f, In f (Comparison.retrieved_images r) ->
                      In f Sample.ten_files)
        /\ (Comparison.num_matches_found r <= 3)%nat
        /\ (0 <= Comparison.total_available_matches r)%Z
        /\ 0 <= Comparison.match_accuracy r).
Proof.
  apply (comparison_retrieval_returns "DINO" Sample.ten_embeddings
           Sample.ten_files "b.jpg" 3).
  reflexivity.
Defined.

(** X16: when fewer neighbours are asked for than the index holds, the
    file names are distinct and no other stored vector lies at distance 0
    of the query's, the first result dropped is the query itself: the
    names returned do not contain the query and do not repeat, the matches
    found do not exceed the matches available, and the accuracy lies
    between 0 and 1. *)
Theorem comparison_accuracy_bounded (model : string) (embeddings : list vec)
    (image_files : list string) (query_image_name : string) (top_k : nat)
    (query_idx : nat) (query_embedding : vec) :
  List.length image_files = List.length embeddings ->
  (top_k < List.length embeddings)%nat ->
  NoDup image_files ->
  nth_error image_files query_idx = Some query_image_name ->
  nth_error embeddings query_idx = Some query_embedding ->
  (forall p v, nth_error embeddings p = Some v -> p <> query_idx ->
               0 < l2_sq query_embedding v) ->
  exists r,
    Comparison.retrieve_images_for_model model embeddings image_files
      query_image_name top_k
    = Some (inr r)
    /\ ~ In query_image_name (Comparison.retrieved_images r)
    /\ NoDup (Comparison.retrieved_images r)
    /\ (Z.of_nat (Comparison.num_matches_found r)
        <= Comparison.total_available_matches r)%Z
    /\ 0 <= Comparison.match_accuracy r <= 1.
Proof.
  intros Hlen Hk Hnd Hq Hqe Hfar.
  assert (Hin : In query_image_name image_files)
    by (eapply nth_error_In; eassumption).
  destruct (retrieve_images_for_model_spec model embeddings image_files
              Hlen query_image_name top_k Hin)
    as (idx & qe & r & Hidx & Hqe' & Hrun & Htake & Hfound & Htotal & Hacc).
  assert (idx = query_idx).
  { apply (proj1 (NoDup_nth_error image_files) Hnd).
    - apply nth_error_Some. congruence.
    - congruence. }
  subst idx. rewrite Hqe in Hqe'. injection Hqe' as <-.
  destruct (search_spec embeddings query_embedding (top_k + 1))
    as (ps & vs & Hps & Hpv & Hndps & HI & _ & _ & _ & Htop).
  replace (top_k + 1 - List.length embeddings)%nat with 0%nat in HI by lia.
  cbn [repeat] in HI. rewrite app_nil_r in HI.
  destruct Hpv as [|p0 v0 ps' vs' Hp0 Hrest]; [simpl in Hps; lia|].
  assert (p0 = query_idx).
  { destruct (Nat.eq_dec p0 query_idx) as [E|Hne]; [exact E|]. exfalso.
    pose proof (Hfar p0 v0 Hp0 Hne) as Hpos.
    pose proof (Htop p0 v0 eq_refl eq_refl query_embedding
                  (nth_error_In _ _ Hqe)) as Hle.
    rewrite l2_sq_self in Hle. lra. }
  subst p0. apply NoDup_cons_iff in Hndps as [Hout Hndps].
  rewrite HI in Htake. unfold Comparison.drop_first in Htake.
  cbn [map tl] in Htake. apply take_naturals in Htake.
  assert (Hnotin : ~ In query_image_name (Comparison.retrieved_images r)).
  { intros Hr. apply Forall2_flip in Htake.
    destruct (Forall2_In_l _ _ _ _ Htake Hr) as (p & Hp & Hpq).
    apply Hout. replace query_idx with p; [exact Hp|].
    apply (proj1 (NoDup_nth_error image_files) Hnd).
    - apply nth_error_Some. congruence.
    - congruence. }
  assert (Hnodup : NoDup (Comparison.retrieved_images r)).
  { clear - Htake Hndps Hnd. induction Htake as [|p f ps fs Hp Hrest IH];
      [constructor|].
    apply NoDup_cons_iff in Hndps as [Hp' Hndps]. constructor; [|auto].
    intros Hf. apply Forall2_flip in Hrest.
    destruct (Forall2_In_l _ _ _ _ Hrest Hf) as (p1 & Hp1 & Hpf).
    apply Hp'. replace p with p1; [exact Hp1|].
    apply (proj1 (NoDup_nth_error image_files) Hnd).
    - apply nth_error_Some. congruence.
    - congruence. }
  pose proof (count_distinct_others
                (Comparison.shares_match_set query_image_name)
                image_files query_idx ps' (Comparison.retrieved_images r)
                Hndps Hout Htake) as Hle.
  exists r. split; [exact Hrun|]. split; [exact Hnotin|].
  split; [exact Hnodup|]. split; [rewrite Hfound, Htotal; lia|].
  rewrite Hacc, Htotal, Hfound.
  destruct (Z.ltb_spec 0
              (Z.of_nat (Counting.count_others
                           (Comparison.shares_match_set query_image_name)
                           image_files query_idx))) as [Hpos|Hz].
  - apply ratio_in_unit_interval; lia.
  - split; [apply Qle_refl | discriminate].
Qed.

Lemma comparison_accuracy_bounded_witness :
  exists r,
    Comparison.retrieve_images_for_model "DINO" Sample.ten_embeddings
      Sample.ten_files "100_02.jpg" 3
    = Some (inr r)
    /\ ~ In "100_02.jpg" (Comparison.retrieved_images r)
    /\ NoDup (Comparison.retrieved_images r)
    /\ (Z.of_nat (Comparison.num_matches_found r)
        <= Comparison.total_available_matches r)%Z
    /\ 0 <= Comparison.match_accuracy r <= 1.
Proof.
  apply (comparison_accuracy_bounded "DINO" Sample.ten_embeddings
           Sample.ten_files "100_02.jpg" 3 1 [1; 1]).
  - reflexivity.
  - simpl. lia.
  - repeat constructor; simpl; intuition discriminate.
  - reflexivity.
  - reflexivity.
  - intros p v H Hp.
    do 10 (destruct p as [|p];
           [injection H as <-; first [congruence | reflexivity]|]).
    destruct p; discriminate.
Defined.

(** ** The two classifiers on the same names *)

Section ClassifiersAgree.

Lemma split_first_digits g rest :
  all_digits g = true ->
  split_first Evaluation.underscore (g ++ String Evaluation.underscore rest) = g.
Proof.
  induction g as [|c g IH]; intros Hg.
  - reflexivity.
  - cbn [all_digits] in Hg. apply andb_prop in Hg as [Hc Hg].
    cbn [append split_first].
    destruct (Ascii.eqb_spec c Evaluation.underscore) as [-> | _];
      [discriminate Hc|].
    now rewrite IH.
Qed.

Lemma matches_name_groups s :
  determine_source s = "matches" ->
  get_match_set s = Evaluation.group_id s
  /\ get_match_set s <> "pubmed"
  /\ all_digits (get_match_set s) = true
  /\ (String.length (get_match_set s) = 3
      \/ String.length (get_match_set s) = 4)%nat.
Proof.
  intros H. apply determine_source_spec in H
    as (g & v & nl & -> & Hg & Hlen & Hv & Hvlen & Hnl).
  assert (Hset : get_match_set (g ++ "_" ++ v ++ ".jpg" ++ nl) = g
                 /\ g <> "pubmed").
  { apply get_match_set_spec. exists v, nl. repeat split; auto.
    - intros ->. simpl in Hlen. lia.
    - intros ->. simpl in Hvlen. lia. }
  destruct Hset as [Hset Hne]. rewrite Hset. repeat split; auto.
  unfold Evaluation.group_id. symmetry.
  apply (split_first_digits g (v ++ ".jpg" ++ nl) Hg).
Qed.

End ClassifiersAgree.

(** X17: the two notebooks agree on the images the evaluation notebook
    labels 'matches'.  For such a name the match set of the comparison
    notebook is the group-id the evaluation notebook cuts off before the
    first underscore, three or four digits and never 'pubmed'; and two
    such names are in the same match set exactly when they have the same
    group-id. *)
Theorem classifiers_agree_on_matches (s t : string) :
  determine_source s = "matches" ->
  determine_source t = "matches" ->
  get_match_set s = Evaluation.group_id s
  /\ get_match_set s <> "pubmed"
  /\ all_digits (get_match_set s) = true
  /\ (String.length (get_match_set s) = 3
      \/ String.length (get_match_set s) = 4)%nat
  /\ (Comparison.shares_match_set s t = true
      <-> Evaluation.group_id s = Evaluation.group_id t).
Proof.
  intros Hs Ht.
  destruct (matches_name_groups s Hs) as (Es & Hne & Hd & Hl).
  destruct (matches_name_groups t Ht) as (Et & _).
  repeat split; auto.
  - unfold Comparison.shares_match_set. rewrite String.eqb_eq. congruence.
  - unfold Comparison.shares_match_set. rewrite String.eqb_eq. congruence.
Qed.

Lemma classifiers_agree_on_matches_witness :
  get_match_set "100_01.jpg" = Evaluation.group_id "100_01.jpg"
  /\ get_match_set "100_01.jpg" <> "pubmed"
  /\ all_digits (get_match_set "100_01.jpg") = true
  /\ (String.length (get_match_set "100_01.jpg") = 3
      \/ String.length (get_match_set "100_01.jpg") = 4)%nat
  /\ (Comparison.shares_match_set "100_01.jpg" "2000_02.jpg" = true
      <-> Evaluation.group_id "100_01.jpg" = Evaluation.group_id "2000_02.jpg").
Proof.
  apply (classifiers_agree_on_matches "100_01.jpg" "2000_02.jpg"); reflexivity.
Defined.

(** ** The master table and the plots of the comparison notebook *)

Section MasterTable.
Import Aggregation.

Lemma master_df_tables model_data :
  match master_df model_data with
  | None => exists m, In m models /\ lookup model_data m = None
  | Some master =>
      exists plip uni dino clip,
        lookup model_data "PLIP" = Some plip
        /\ lookup model_data "UNI" = Some uni
        /\ lookup model_data "DINO" = Some dino
        /\ lookup model_data "CLIP" = Some clip
        /\ master
           = map
               (fun i =>
                  mkMaster
                    (option_map Evaluation.queried_image (nth_error plip i))
                    (option_map Evaluation.total_available_matches
                                (nth_error plip i))
                    (map (fun eval_df =>
                            option_map
                              (fun e => (Evaluation.number_of_matches_found e,
                                         Evaluation.match_accuracy e))
                              (nth_error eval_df i))
                         [plip; uni; dino; clip]))
               (seq 0 (index_length [plip; uni; dino; clip]
                                    (List.length plip)))
  end.
Proof.
  unfold master_df, models. cbn [mapM].
  destruct (lookup model_data "PLIP") as [plip|] eqn:Hp;
    [|exists "PLIP"; split; [simpl; tauto | assumption]].
  destruct (lookup model_data "UNI") as [uni|] eqn:Hu;
    [|exists "UNI"; split; [simpl; tauto | assumption]].
  destruct (lookup model_data "DINO") as [dino|] eqn:Hd;
    [|exists "DINO"; split; [simpl; tauto | assumption]].
  destruct (lookup model_data "CLIP") as [clip|] eqn:Hc;
    [|exists "CLIP"; split; [simpl; tauto | assumption]].
  exists plip, uni, dino, clip. repeat split.
Qed.

Lemma nth_error_seq_inv n : forall s i x,
  nth_error (seq s n) i = Some x -> x = (s + i)%nat.
Proof.
  induction n as [|n IH]; intros s [|i] x; simpl; try discriminate.
  - intros [= <-]. lia.
  - intros H. apply IH in H. lia.
Qed.

(** The index after the four assignments: that of the first table, in
    the order of the models, that is not empty. *)
Lemma index_length_first_nonempty (plip uni dino clip : list Evaluation.result) :
  index_length [plip; uni; dino; clip] (List.length plip)
  = match plip, uni, dino with
    | _ :: _, _, _ => List.length plip
    | [], _ :: _, _ => List.length uni
    | [], [], _ :: _ => List.length dino
    | [], [], [] => List.length clip
    end.
Proof.
  destruct plip as [|p plip]; [|reflexivity].
  destruct uni as [|u uni]; [|reflexivity].
  destruct dino as [|d dino]; reflexivity.
Qed.

(** An empty PLIP table and one row for UNI: the master table has the row
    of UNI, with no query, no total and no cells for PLIP. *)
Example master_df_empty_plip :
  master_df [("PLIP", []); ("UNI", [Evaluation.mkResult "100_01.jpg" 1 2 (1 # 2)]);
             ("DINO", []); ("CLIP", [])]
  = Some [mkMaster None None [None; Some (1%nat, 1 # 2); None; None]].
Proof. reflexivity. Qed.

End MasterTable.

(** X18: step 3 raises exactly when the tables of one of the four models
    are missing.  Otherwise the master table has as many rows as the
    first table, in the order PLIP, UNI, DINO, CLIP, that is not empty:
    as many as the PLIP table unless that one is empty.  Rows are paired
    by position, not by query: on row [i] the query and the total are
    those of row [i] of the PLIP table and the cells of a model those of
    row [i] of that model's table, each missing when its table has no such
    row. *)
Theorem master_table_aligns_by_position
    (model_data : list (string * list Evaluation.result)) :
  (Aggregation.master_df model_data = None
   <-> exists m, In m Aggregation.models
                 /\ Aggregation.lookup model_data m = None)
  /\ (forall master,
         Aggregation.master_df model_data = Some master ->
         exists plip uni dino clip,
           Aggregation.lookup model_data "PLIP" = Some plip
           /\ Aggregation.lookup model_data "UNI" = Some uni
           /\ Aggregation.lookup model_data "DINO" = Some dino
           /\ Aggregation.lookup model_data "CLIP" = Some clip
           /\ List.length master
              = match plip, uni, dino with
                | _ :: _, _, _ => List.length plip
                | [], _ :: _, _ => List.length uni
                | [], [], _ :: _ => List.length dino
                | [], [], [] => List.length clip
                end
           /\ forall i row,
                nth_error master i = Some row ->
                Aggregation.queried_image row
                = option_map Evaluation.queried_image (nth_error plip i)
                /\ Aggregation.total_available_matches row
                   = option_map Evaluation.total_available_matches
                                (nth_error plip i)
                /\ Aggregation.cells row
                   = map (fun table =>
                            option_map
                              (fun e => (Evaluation.number_of_matches_found e,
                                         Evaluation.match_accuracy e))
                              (nth_error table i))
                         [plip; uni; dino; clip]).
Proof.
  pose proof (master_df_tables model_data) as H.
  destruct (Aggregation.master_df model_data) as [master|].
  - destruct H as (plip & uni & dino & clip & Hp & Hu & Hd & Hc & ->).
    split.
    + split; [discriminate|].
      intros (m & Hm & Hnone). simpl in Hm.
      destruct Hm as [<- | [<- | [<- | [<- | []]]]]; congruence.
    + intros master [= <-]. exists plip, uni, dino, clip.
      do 4 (split; [assumption|]). split.
      * rewrite length_map, length_seq. apply index_length_first_nonempty.
      * intros i row Hrow. rewrite nth_error_map in Hrow.
        destruct (nth_error (seq 0 _) i) as [i'|] eqn:Hi; [|discriminate].
        apply nth_error_seq_inv in Hi. simpl in Hi. subst i'.
        injection Hrow as <-. repeat split.
  - split; [split; auto | discriminate].
Qed.

Section ModelNames.
Import Aggregation.

Lemma lazy_until_close_plain m rest :
  plain_name m = true ->
  lazy_until_close (m ++ String ")" rest) = Some m.
Proof.
  unfold plain_name. induction m as [|c m IH]; intros Hm.
  - reflexivity.
  - cbn [list_ascii_of_string forallb] in Hm.
    apply andb_prop in Hm as [Hc Hm]. apply andb_prop in Hc as [Hc1 Hc2].
    apply Bool.negb_true_iff in Hc1, Hc2.
    cbn [append lazy_until_close]. rewrite Hc1, Hc2, (IH Hm). reflexivity.
Qed.

Lemma accuracy_data_rows master :
  accuracy_data master
  = List.concat
      (map (fun jm =>
              map (fun row =>
                     (queried_image row, Some (snd jm),
                      match nth_error (cells row) (fst jm) with
                      | Some (Some (_, acc)) => Some acc
                      | _ => None
                      end))
                  master)
           (combine (seq 0 4) models)).
Proof. reflexivity. Qed.

End ModelNames.

(** X19: the model name written into a column title comes out again
    unchanged when it holds no closing parenthesis and no newline, as the
    four names of the notebook do.  The table of the box plots has four
    entries per row of the master table, each under one of the four
    names: the extraction never leaves a missing model. *)
Theorem model_names_survive_the_column_titles
    (master : list Aggregation.master_row) :
  (forall model,
      Aggregation.plain_name model = true ->
      Aggregation.extract_parenthesised (Aggregation.accuracy_column model)
      = Some model)
  /\ List.length (Aggregation.accuracy_data master)
     = (4 * List.length master)%nat
  /\ (forall q m a,
         In (q, m, a) (Aggregation.accuracy_data master) ->
         exists model, m = Some model /\ In model Aggregation.models).
Proof.
  split; [|split].
  - intros model Hm. unfold Aggregation.accuracy_column.
    change ("Match Accuracy (" ++ model ++ ")")
      with ("Match Accuracy " ++ String "(" (model ++ String ")" "")).
    cbn. now rewrite lazy_until_close_plain.
  - rewrite accuracy_data_rows. cbn [seq combine Aggregation.models map List.concat].
    rewrite !length_app, !length_map. simpl. lia.
  - intros q m a. rewrite accuracy_data_rows. intros H.
    apply in_concat in H as (l & Hl & H).
    apply in_map_iff in Hl as ([j model] & <- & Hjm).
    apply in_map_iff in H as (row & [= _ <- _] & _).
    exists model. split; [reflexivity|].
    apply in_combine_r in Hjm. exact Hjm.
Qed.

Section Styles.
Import Aggregation.

(** The style at position [i] of the cycle. *)
Lemma style_at i :
  exists marker edgecolor,
    nth_error markers (i mod List.length markers) = Some marker
    /\ nth_error edge_colors (i mod List.length edge_colors) = Some edgecolor.
Proof.
  assert (Hm : (i mod List.length markers < List.length markers)%nat)
    by (apply Nat.mod_upper_bound; discriminate).
  assert (He : (i mod List.length edge_colors < List.length edge_colors)%nat)
    by (apply Nat.mod_upper_bound; discriminate).
  apply nth_error_Some in Hm, He.
  destruct (nth_error markers _) as [marker|]; [|congruence].
  destruct (nth_error edge_colors _) as [edgecolor|]; [|congruence].
  eauto.
Qed.

Lemma match_set_styles_from_spec match_sets : forall i,
  exists styles,
    match_set_styles_from i match_sets = Some styles
    /\ map fst styles = match_sets
    /\ forall n s,
         nth_error styles n = Some s ->
         nth_error markers ((i + n) mod 10) = Some (fst (snd s))
         /\ nth_error edge_colors ((i + n) mod 10) = Some (snd (snd s)).
Proof.
  induction match_sets as [|ms rest IH]; intros i; cbn [match_set_styles_from].
  - exists []. split; [reflexivity|]. split; [reflexivity|].
    intros [|n] st H; discriminate.
  - destruct (style_at i) as (marker & edgecolor & Hm & He).
    rewrite Hm, He. destruct (IH (S i)) as (styles & -> & Hkeys & Hstyles).
    eexists. split; [reflexivity|]. split; [simpl; now rewrite Hkeys|].
    intros [|n] st H.
    + injection H as <-. rewrite Nat.add_0_r. auto.
    + replace (i + S n)%nat with (S i + n)%nat by lia. now apply Hstyles.
Qed.

Lemma styles_distinct a b m e :
  (a < 10)%nat -> (b < 10)%nat ->
  nth_error markers a = Some m -> nth_error markers b = Some m ->
  nth_error edge_colors a = Some e -> nth_error edge_colors b = Some e ->
  a = b.
Proof.
  intros Ha Hb Hma Hmb _ _.
  assert (Hnd : NoDup markers)
    by (repeat constructor; simpl; intuition discriminate).
  apply (proj1 (NoDup_nth_error markers) Hnd); [exact Ha | congruence].
Qed.

End Styles.

(** X20: the styles of the match sets are always found, however many
    match sets there are: the position is taken modulo the ten markers
    and the ten edge colours.  Two match sets get the same marker and
    edge colour exactly when their positions differ by a multiple of
    ten, so the first ten are told apart and the eleventh looks like the
    first. *)
Theorem match_set_styles_cycle (match_sets : list string) :
  exists styles,
    Aggregation.match_set_styles_from 0 match_sets = Some styles
    /\ map fst styles = match_sets
    /\ forall i j s t,
         nth_error styles i = Some s ->
         nth_error styles j = Some t ->
         (snd s = snd t <-> i mod 10 = j mod 10).
Proof.
  destruct (match_set_styles_from_spec match_sets 0)
    as (styles & Hrun & Hkeys & Hstyles).
  exists styles. split; [exact Hrun|]. split; [exact Hkeys|].
  intros i j [ks [ms es]] [kt [mt et]] Hi Hj.
  destruct (Hstyles i _ Hi) as [Hmi Hei].
  destruct (Hstyles j _ Hj) as [Hmj Hej].
  cbn [fst snd Nat.add] in *. split.
  - intros [= <- <-].
    apply (styles_distinct (i mod 10) (j mod 10) ms es); auto;
      apply Nat.mod_upper_bound; discriminate.
  - intros E. rewrite E in Hmi, Hei. congruence.
Qed.
